(** * benchmark.py: three crawl engines and the benchmark runner

    A shallow embedding of [ThreadedCrawler] (sequential and thread-pool
    strategies), [AsyncCrawler] (asyncio strategy), [time_fn] and [main].

    Python objects are records threaded through the functions that mutate
    them; [deque] is a list (popleft takes the head, append adds at the
    end); the [visited] set is a [gset string]; integers are [Z].  The
    network, BeautifulSoup and [urljoin] are collaborators outside the
    sources and are gathered in the class [Web].  Wall-clock readings
    ([time.time()], [start_time], the elapsed seconds a run returns) are not
    represented: a run returns its engine, and its timing sample is [tt]. *)

From stdpp Require Import gmap strings list.
From Equations Require Import Equations.
From Stdlib Require Import ZArith String Lia.

Open Scope Z_scope.

(** ** Collaborators *)

(** What a GET of a URL produces.  [NoReply] stands for every exception raised
    inside the [try] block before a body is available (timeout, connection
    error, malformed URL, undecodable body). *)
Inductive reply :=
| NoReply
| Reply (status : Z) (text : string).

Class Web := {
  (** the answer of the network to a GET of the URL *)
  http_get : string -> reply;
  (** [[a["href"] for a in soup.find_all("a", href=True)]], document order *)
  find_all_a_href : string -> list string;
  (** [soup.title.string.strip() if soup.title else ""] *)
  soup_title : string -> string;
  (** [soup.body.get_text(" ", strip=True) if soup.body else ""] *)
  soup_body_text : string -> string;
  (** [urllib.parse.urljoin] *)
  urljoin : string -> string -> string
}.

(** [requests.Response.raise_for_status] raises for 4xx and 5xx codes. *)
Definition raise_for_status (status : Z) : bool :=
  (400 <=? status) && (status <? 600).

(** Truth value of a Python string: empty is false. *)
Definition truthy (s : string) : bool := negb (String.eqb s "").

(** Outcome of a call that may raise, or whose scheduling tape ended before
    the call returned. *)
Inductive result (A : Type) :=
| Return (a : A)
| Raise (exn : string)
| Unfinished.
Arguments Return {A} a.
Arguments Raise {A} exn.
Arguments Unfinished {A}.

(** A stored page, as [insert_one] receives it. *)
Record document := { doc_url : string; doc_title : string; doc_content : string }.

(** [futures.remove(fut)]: drops the first occurrence. *)
Fixpoint remove_first (x : nat) (l : list nat) : list nat :=
  match l with
  | [] => []
  | y :: l' => if Nat.eqb x y then l' else y :: remove_first x l'
  end.

(** ** ThreadedCrawler *)

Module ThreadedCrawler.

(** The engine object.  [requests] is the log of the URLs handed to [fetch],
    oldest first; it records the GETs the engine issues and is read by no
    engine code. *)
Record t := mk {
  queue : list string;
  visited : gset string;
  max_pages : Z;
  pages_crawled : Z;
  db_client : bool;
  collection : list document;
  requests : list string
}.

Definition set_queue (q : list string) (st : t) : t :=
  mk q (visited st) (max_pages st) (pages_crawled st)
     (db_client st) (collection st) (requests st).

Definition add_visited (url : string) (st : t) : t :=
  mk (queue st) ({[ url ]} ∪ visited st) (max_pages st) (pages_crawled st)
     (db_client st) (collection st) (requests st).

Definition set_pages_crawled (n : Z) (st : t) : t :=
  mk (queue st) (visited st) (max_pages st) n
     (db_client st) (collection st) (requests st).

Definition insert_one (d : document) (st : t) : t :=
  mk (queue st) (visited st) (max_pages st) (pages_crawled st)
     (db_client st) (collection st ++ [d]) (requests st).

Definition log_request (url : string) (st : t) : t :=
  mk (queue st) (visited st) (max_pages st) (pages_crawled st)
     (db_client st) (collection st) (requests st ++ [url]).

(** [__init__].  [MONGO_URI] is the environment variable ([None] when unset;
    an empty value is as good as unset: [if MONGO_URI]); [stored] is what the
    webpages collection holds before the call.  With a store configured the
    constructor runs [delete_many({})]. *)
Definition __init__ (MONGO_URI : option string) (stored : list document)
    (seed_url : string) (max_pages : Z) : t :=
  let configured :=
    match MONGO_URI with Some uri => truthy uri | None => false end in
  mk [seed_url] ∅ max_pages 0 configured
     (if configured then [] else stored) [].

Section WithWeb.
Context `{Web}.

(** [fetch]: the bare [except] turns every failure into [""]. *)
Definition fetch (url : string) : string :=
  match http_get url with
  | NoReply => ""
  | Reply status text => if raise_for_status status then "" else text
  end.

(** One round of the [for a in soup.find_all(...)] loop of [parse]. *)
Definition enqueue_link (st : t) (href : string) : t :=
  if String.prefix "http" href && bool_decide (href ∉ visited st)
  then set_queue (queue st ++ [href]) st
  else st.

(** The part of [parse] before the loop: the optional [insert_one]. *)
Definition save_page (st : t) (url html : string) : t :=
  if db_client st
  then insert_one {| doc_url := url;
                     doc_title := soup_title html;
                     doc_content := substring 0 500 (soup_body_text html) |} st
  else st.

Definition parse (st : t) (url html : string) : t :=
  fold_left enqueue_link (find_all_a_href html) (save_page st url html).

(** [fetch_and_parse], as one uninterrupted call. *)
Definition fetch_and_parse (st : t) (url : string) : t :=
  let html := fetch url in
  let st := log_request url st in
  if truthy html then parse st url html else st.

(** *** crawl_single *)

(** Guard and body of the [while] loop. *)
Definition single_guard (st : t) : bool :=
  bool_decide (queue st ≠ []) && (pages_crawled st <? max_pages st).

Definition single_body (st : t) : t :=
  match queue st with
  | [] => st (* popleft of an empty deque; excluded by the guard *)
  | url :: rest =>
      let st := add_visited url (set_queue rest st) in
      let html := fetch url in
      let st := log_request url st in
      if truthy html
      then let st := parse st url html in
           set_pages_crawled (pages_crawled st + 1) st
      else st
  end.

(** Termination measure of the loop: pages left in the budget, then pending
    URLs. *)
Definition single_measure (st : t) : nat * nat :=
  (Z.to_nat (max_pages st - pages_crawled st), List.length (queue st)).

Lemma parse_counters st url html :
  pages_crawled (parse st url html) = pages_crawled st /\
  max_pages (parse st url html) = max_pages st.
Proof.
  unfold parse.
  assert (Hsave : pages_crawled (save_page st url html) = pages_crawled st /\
                  max_pages (save_page st url html) = max_pages st)
    by (unfold save_page; destruct (db_client st); split; reflexivity).
  destruct Hsave as [<- <-]. generalize (save_page st url html) as s.
  induction (find_all_a_href html) as [|h l IH]; intros s; simpl; [tauto|].
  destruct (IH (enqueue_link s h)) as [-> ->]. unfold enqueue_link.
  destruct (_ && _); split; reflexivity.
Qed.

Lemma single_body_decreases st :
  single_guard st = true ->
  Subterm.lexprod nat nat lt lt
    (single_measure (single_body st)) (single_measure st).
Proof.
  unfold single_guard, single_body, single_measure. intros Hg.
  apply andb_prop in Hg as [Hq Hlt]. apply Z.ltb_lt in Hlt.
  destruct (queue st) as [|url rest] eqn:Eq.
  { apply bool_decide_eq_true in Hq. congruence. }
  destruct (truthy (fetch url)); simpl.
  - left. destruct (parse_counters
      (log_request url (add_visited url (set_queue rest st))) url (fetch url))
      as [-> ->]. simpl. lia.
  - right. lia.
Qed.

(** [crawl_single]: the [while] loop, run to its end. *)
Equations crawl_single (st : t) : t
  by wf (single_measure st) (Subterm.lexprod nat nat lt lt) :=
  crawl_single st with Equations.Prop.Logic.inspect (single_guard st) := {
    | exist _ true Hguard => crawl_single (single_body st)
    | exist _ false _ => st }.
Next Obligation. apply single_body_decreases, Hguard. Qed.

(** The same loop cut off after [fuel] rounds, for evaluation. *)
Fixpoint crawl_single_fuel (fuel : nat) (st : t) : option t :=
  match fuel with
  | O => None
  | S fuel => if single_guard st then crawl_single_fuel fuel (single_body st)
              else Some st
  end.

(** *** crawl_threaded *)

(** What a pool thread has left to do of one [fetch_and_parse] call. *)
Inductive job :=
| ToFetch (url : string)
| ToParse (url : string) (hrefs : list string)
| Finished.

(** Where the calling thread stands in [crawl_threaded]: in the kick-off
    loop with [n] rounds left, at the head of the [while] loop (which holds
    the guard and the blocking [wait]), inside [for fut in done], leaving the
    [with] block (which joins the pool threads), or returned. *)
Inductive pc :=
| Kickoff (n : nat)
| Loop
| ForDone (done : list nat)
| Shutdown
| Returned.

(** The executor and the caller's locals.  A future is the index of its job
    in [jobs]. *)
Record pool := mk_pool {
  engine : t;
  jobs : list job;
  futures : list nat;
  at_main : pc
}.

Definition set_engine (st : t) (p : pool) : pool :=
  mk_pool st (jobs p) (futures p) (at_main p).

Definition set_job (i : nat) (j : job) (p : pool) : pool :=
  mk_pool (engine p) (<[ i := j ]> (jobs p)) (futures p) (at_main p).

Definition set_futures (fs : list nat) (p : pool) : pool :=
  mk_pool (engine p) (jobs p) fs (at_main p).

Definition set_at_main (c : pc) (p : pool) : pool :=
  mk_pool (engine p) (jobs p) (futures p) c.

(** A scheduling decision: the calling thread moves, or pool thread [i]. *)
Inductive choice :=
| Main
| Worker (i : nat).

Definition future_done (js : list job) (fut : nat) : bool :=
  match js !! fut with
  | Some Finished => true
  | _ => false
  end.

Definition job_finished (j : job) : bool :=
  match j with Finished => true | _ => false end.

(** [url = self.queue.popleft(); self.visited.add(url);
    futures.append(execu.submit(self.fetch_and_parse, url))] *)
Definition dispatch (p : pool) : pool :=
  match queue (engine p) with
  | [] => p (* popleft of an empty deque; callers check the queue first *)
  | url :: rest =>
      mk_pool (add_visited url (set_queue rest (engine p)))
              (jobs p ++ [ToFetch url])
              (futures p ++ [List.length (jobs p)])
              (at_main p)
  end.

(** One move of pool thread [i] through [fetch_and_parse]: the fetch, then
    the [insert_one] of [parse], then one link per move (the test of the
    href and its append in one go).  Any unfinished job may move; the
    executor, which runs at most [max_workers] jobs at a time, allows fewer
    schedules, not more. *)
Definition worker_step (i : nat) (p : pool) : pool :=
  match jobs p !! i with
  | Some (ToFetch url) =>
      let html := fetch url in
      let st := log_request url (engine p) in
      if truthy html
      then set_job i (ToParse url (find_all_a_href html))
                   (set_engine (save_page st url html) p)
      else set_job i Finished (set_engine st p)
  | Some (ToParse url (href :: hrefs)) =>
      set_job i (ToParse url hrefs)
              (set_engine (enqueue_link (engine p) href) p)
  | Some (ToParse url []) => set_job i Finished p
  | _ => p
  end.

(** One move of the calling thread: one round of the kick-off loop, the
    guard of the [while] loop with the [wait], one round of [for fut in
    done], or the exit.  [wait] blocks (the move changes nothing) until a
    future of the list is done and then hands over all that are, here in the
    order of the list (a Python set has no order of its own); the [with]
    block is left once every job has finished.  The counter and the futures
    list are touched by the calling thread alone. *)
Definition main_step (p : pool) : pool :=
  match at_main p with
  | Kickoff (S n) => set_at_main (Kickoff n) (dispatch p)
  | Kickoff O => set_at_main Loop p
  | Loop =>
      if bool_decide (futures p ≠ [])
         && (pages_crawled (engine p) <? max_pages (engine p))
      then match List.filter (future_done (jobs p)) (futures p) with
           | [] => p
           | done => set_at_main (ForDone done) p
           end
      else set_at_main Shutdown p
  | ForDone (fut :: done) =>
      let st := engine p in
      let p := set_engine (set_pages_crawled (pages_crawled st + 1) st) p in
      let p := set_futures (remove_first fut (futures p)) p in
      let p := if bool_decide (queue (engine p) ≠ []) then dispatch p else p in
      set_at_main (ForDone done) p
  | ForDone [] => set_at_main Loop p
  | Shutdown =>
      if forallb job_finished (jobs p) then set_at_main Returned p else p
  | Returned => p
  end.

Definition step (c : choice) (p : pool) : pool :=
  match c with
  | Main => main_step p
  | Worker i => worker_step i p
  end.

Definition steps (tape : list choice) (p : pool) : pool :=
  fold_left (fun p c => step c p) tape p.

Definition returned (p : pool) : bool :=
  match at_main p with Returned => true | _ => false end.

(** Follows the tape until the call has returned; the rest of the tape is
    handed back. *)
Fixpoint exec (tape : list choice) (p : pool) : result (pool * list choice) :=
  if returned p then Return (p, tape)
  else match tape with
       | [] => Unfinished
       | c :: tape => exec tape (step c p)
       end.

(** Entry of [crawl_threaded]: no futures yet, and the kick-off loop has
    [min(len(self.queue), max_workers)] rounds to go. *)
Definition start (max_workers : Z) (st : t) : pool :=
  mk_pool st [] []
    (Kickoff (Z.to_nat (Z.min (Z.of_nat (List.length (queue st))) max_workers))).

(** [crawl_threaded], on an engine paired with the scheduling tape.
    [ThreadPoolExecutor] refuses [max_workers <= 0] with a ValueError. *)
Definition crawl_threaded (max_workers : Z) (w : t * list choice)
    : result (unit * (t * list choice)) :=
  if max_workers <=? 0 then Raise "ValueError"
  else match exec (snd w) (start max_workers (fst w)) with
       | Return (p, tape) => Return (tt, (engine p, tape))
       | Raise e => Raise e
       | Unfinished => Unfinished
       end.

End WithWeb.
End ThreadedCrawler.

(** ** AsyncCrawler *)

Module AsyncCrawler.

(** The engine object; [requests] logs the URLs handed to [fetch]. *)
Record t := mk {
  queue : list string;
  visited : gset string;
  max_pages : Z;
  pages : Z;
  requests : list string
}.

Definition set_queue (q : list string) (st : t) : t :=
  mk q (visited st) (max_pages st) (pages st) (requests st).

Definition add_visited (url : string) (st : t) : t :=
  mk (queue st) ({[ url ]} ∪ visited st) (max_pages st) (pages st) (requests st).

Definition set_pages (n : Z) (st : t) : t :=
  mk (queue st) (visited st) (max_pages st) n (requests st).

Definition log_request (url : string) (st : t) : t :=
  mk (queue st) (visited st) (max_pages st) (pages st) (requests st ++ [url]).

Definition __init__ (seed_url : string) (max_pages : Z) : t :=
  mk [seed_url] ∅ max_pages 0 [].

Section WithWeb.
Context `{Web}.

(** [fetch]: the body of whatever response arrives; [""] when the GET
    raises.  There is no [raise_for_status] on this path. *)
Definition fetch (url : string) : string :=
  match http_get url with
  | NoReply => ""
  | Reply _ text => text
  end.

(** One round of the [for] loop of [parse]. *)
Definition enqueue_link (url : string) (st : t) (a_href : string) : t :=
  let href := urljoin url a_href in
  if String.prefix "http" href && bool_decide (href ∉ visited st)
  then set_queue (queue st ++ [href]) st
  else st.

Definition parse (st : t) (url html : string) : t :=
  fold_left (enqueue_link url) (find_all_a_href html) st.

(** Where a [worker] coroutine is suspended: created and not yet run,
    waiting for a slot of the semaphore, waiting for the reply to its GET,
    or done. *)
Inductive task :=
| Created
| Acquiring (url : string)
| Fetching (url : string)
| Exited.

(** The event loop during [crawl]: the engine, the worker tasks, the FIFO of
    tasks scheduled to run, and the semaphore (free slots and the FIFO of
    tasks waiting for one). *)
Record loop := mk_loop {
  crawler : t;
  tasks : list task;
  ready : list nat;
  sem : Z;
  waiters : list nat
}.

Definition set_crawler (st : t) (l : loop) : loop :=
  mk_loop st (tasks l) (ready l) (sem l) (waiters l).

Definition set_task (i : nat) (k : task) (l : loop) : loop :=
  mk_loop (crawler l) (<[ i := k ]> (tasks l)) (ready l) (sem l) (waiters l).

Definition set_ready (r : list nat) (l : loop) : loop :=
  mk_loop (crawler l) (tasks l) r (sem l) (waiters l).

(** The GET of [url] goes out and task [i] suspends on it. *)
Definition begin_fetch (i : nat) (url : string) (l : loop) : loop :=
  set_task i (Fetching url) (set_crawler (log_request url (crawler l)) l).

(** Entering [async with sem]: a free slot is taken at once, otherwise the
    task queues up behind the other waiters. *)
Definition acquire (i : nat) (url : string) (l : loop) : loop :=
  if (0 <? sem l) && bool_decide (waiters l = [])
  then begin_fetch i url
         (mk_loop (crawler l) (tasks l) (ready l) (sem l - 1) (waiters l))
  else set_task i (Acquiring url)
         (mk_loop (crawler l) (tasks l) (ready l) (sem l) (waiters l ++ [i])).

(** Leaving [async with sem]: the slot goes to the first waiter, which is
    scheduled to run, or back to the semaphore. *)
Definition release (l : loop) : loop :=
  match waiters l with
  | [] => mk_loop (crawler l) (tasks l) (ready l) (sem l + 1) []
  | j :: ws => mk_loop (crawler l) (tasks l) (ready l ++ [j]) (sem l) ws
  end.

(** From the head of the [while] loop of [worker] to its next suspension. *)
Definition enter (i : nat) (l : loop) : loop :=
  let st := crawler l in
  if (pages st <? max_pages st) && bool_decide (queue st ≠ [])
  then match queue st with
       | [] => l
       | url :: rest =>
           acquire i url (set_crawler (add_visited url (set_queue rest st)) l)
       end
  else set_task i Exited l.

(** The rest of a round of [worker] once the reply to the GET of [url] is
    there, and on to the next suspension. *)
Definition resume (i : nat) (url : string) (l : loop) : loop :=
  let html := fetch url in
  let l := release l in
  let st := crawler l in
  let st := if truthy html then parse st url html else st in
  let st := set_pages (pages st + 1) st in
  enter i (set_crawler st l).

(** A scheduling decision: the event loop runs the task at the head of the
    ready queue, or the reply for the GET of task [i] arrives and the task
    joins the ready queue.  The order of arrivals is free; the order of runs
    is the event loop's: callbacks run first in, first out, [create_task]
    schedules the first run of each worker in the order of creation, and a
    worker suspended on its GET is scheduled again only when the reply is
    there.  [await self.fetch] is the one suspension point of a round:
    acquiring a free slot, releasing it and [await self.parse] go through
    without giving up control. *)
Inductive choice :=
| Run
| Arrive (i : nat).

Definition run_task (i : nat) (l : loop) : loop :=
  match tasks l !! i with
  | Some Created => enter i l
  | Some (Acquiring url) => begin_fetch i url l
  | Some (Fetching url) => resume i url l
  | _ => l
  end.

Definition step (c : choice) (l : loop) : loop :=
  match c with
  | Run =>
      match ready l with
      | [] => l
      | i :: r => run_task i (set_ready r l)
      end
  | Arrive i =>
      match tasks l !! i with
      | Some (Fetching _) =>
          if bool_decide (i ∈ ready l) then l else set_ready (ready l ++ [i]) l
      | _ => l
      end
  end.

Definition steps (tape : list choice) (l : loop) : loop :=
  fold_left (fun l c => step c l) tape l.

Definition task_exited (k : task) : bool :=
  match k with Exited => true | _ => false end.

(** [gather] is through when every worker has left its loop. *)
Definition gathered (l : loop) : bool := forallb task_exited (tasks l).

Fixpoint exec (tape : list choice) (l : loop) : result (loop * list choice) :=
  if gathered l then Return (l, tape)
  else match tape with
       | [] => Unfinished
       | c :: tape => exec tape (step c l)
       end.

(** Entry of [crawl]: [concurrency] tasks created in order, each scheduled
    for its first run, and a semaphore of [concurrency] slots. *)
Definition start (concurrency : Z) (st : t) : loop :=
  let n := Z.to_nat concurrency in
  mk_loop st (replicate n Created) (seq 0 n) concurrency [].

(** [asyncio.run(ac.crawl(concurrency))], on an engine paired with the
    scheduling tape.  [asyncio.Semaphore] refuses a negative value. *)
Definition crawl (concurrency : Z) (w : t * list choice)
    : result (unit * (t * list choice)) :=
  if concurrency <? 0 then Raise "ValueError"
  else match exec (snd w) (start concurrency (fst w)) with
       | Return (l, tape) => Return (tt, (crawler l, tape))
       | Raise e => Raise e
       | Unfinished => Unfinished
       end.

End WithWeb.
End AsyncCrawler.

(** ** Benchmarking *)

(** [time_fn]: [fn] is a callable on the state it closes over. *)
Fixpoint time_fn_loop {S R : Type} (fn : S -> result (R * S)) (n : nat)
    (results : list R) (s : S) : result (list R * S) :=
  match n with
  | O => Return (results, s)
  | Datatypes.S n =>
      match fn s with
      | Return (elapsed, s) => time_fn_loop fn n (results ++ [elapsed]) s
      | Raise e => Raise e
      | Unfinished => Unfinished
      end
  end.

Definition time_fn {S R : Type} (fn : S -> result (R * S)) (repeats : Z)
    (s : S) : result (list R * S) :=
  time_fn_loop fn (Z.to_nat repeats) [] s.

(** A callable that also hands back the state it was called on. *)
Definition observe {S R : Type} (fn : S -> result (R * S))
    : S -> result ((S * R) * S) :=
  fun s =>
    match fn s with
    | Return (r, s') => Return ((s, r), s')
    | Raise e => Raise e
    | Unfinished => Unfinished
    end.

(** The [results] dictionary of [main]: one list of samples per key. *)
Record report (R1 R2 : Type) := mk_report {
  single_thread_samples : list R1;
  thread_pool_samples : list R1;
  asyncio_samples : list R2
}.
Arguments mk_report {R1 R2} _ _ _.
Arguments single_thread_samples {R1 R2} _.
Arguments thread_pool_samples {R1 R2} _.
Arguments asyncio_samples {R1 R2} _.

Section Main.
Context `{Web}.

Definition seed : string := "https://wikipedia.org/".
Definition max_pages : Z := 100.
Definition workers : Z := 20.
Definition repeats : Z := 5.

(** The three measured callables of [main]. *)
Definition single_thread (tc : ThreadedCrawler.t * list ThreadedCrawler.choice)
    : result (unit * (ThreadedCrawler.t * list ThreadedCrawler.choice)) :=
  Return (tt, (ThreadedCrawler.crawl_single (fst tc), snd tc)).

Definition thread_pool := ThreadedCrawler.crawl_threaded workers.

Definition asyncio := AsyncCrawler.crawl workers.

(** The body of [main] up to the [results] dictionary; writing the JSON file
    and the plot is not represented.  The engines [tc] and [ac] are built
    once, before the first measurement.  [wrap_tc] and [wrap_ac] are applied
    to the callables before they are handed to [time_fn]; [main] takes them
    as they are. *)
Definition benchmark {R1 R2 : Type}
    (wrap_tc : (ThreadedCrawler.t * list ThreadedCrawler.choice ->
                result (unit * (ThreadedCrawler.t * list ThreadedCrawler.choice))) ->
               ThreadedCrawler.t * list ThreadedCrawler.choice ->
               result (R1 * (ThreadedCrawler.t * list ThreadedCrawler.choice)))
    (wrap_ac : (AsyncCrawler.t * list AsyncCrawler.choice ->
                result (unit * (AsyncCrawler.t * list AsyncCrawler.choice))) ->
               AsyncCrawler.t * list AsyncCrawler.choice ->
               result (R2 * (AsyncCrawler.t * list AsyncCrawler.choice)))
    (MONGO_URI : option string) (stored : list document)
    (tape_tc : list ThreadedCrawler.choice) (tape_ac : list AsyncCrawler.choice)
    : result (report R1 R2) :=
  let tc := ThreadedCrawler.__init__ MONGO_URI stored seed max_pages in
  let ac := AsyncCrawler.__init__ seed max_pages in
  match time_fn (wrap_tc single_thread) repeats (tc, tape_tc) with
  | Return (r1, tc) =>
      match time_fn (wrap_tc thread_pool) repeats tc with
      | Return (r2, tc) =>
          match time_fn (wrap_ac asyncio) repeats (ac, tape_ac) with
          | Return (r3, ac) => Return (mk_report r1 r2 r3)
          | Raise e => Raise e
          | Unfinished => Unfinished
          end
      | Raise e => Raise e
      | Unfinished => Unfinished
      end
  | Raise e => Raise e
  | Unfinished => Unfinished
  end.


(** [main] with every callable reporting the state it is called on. *)
Definition main_observed := benchmark observe observe.

End Main.

(** ** Stub webs for the examples *)

Definition lookup_or {A : Type} (d : A) (k : string) (l : list (string * A)) : A :=
  match List.find (fun kv => String.eqb k (fst kv)) l with
  | Some kv => snd kv
  | None => d
  end.

(** A web given by two tables: the reply to each URL (no reply for a URL
    that is not listed) and the hrefs of each page body.  Its [urljoin]
    keeps an href that starts with http and appends any other to the base,
    as the library does for a base without a path and an href starting with
    a slash. *)
Definition stub_web (site : list (string * reply))
    (links : list (string * list string)) : Web :=
  {| http_get url := lookup_or NoReply url site;
     find_all_a_href html := lookup_or [] html links;
     soup_title html := html;
     soup_body_text html := html;
     urljoin base href :=
       if String.prefix "http" href then href else String.append base href |}.

(** [http://a] links twice to [http://b]. *)
Definition web_twice : Web :=
  stub_web [("http://a"%string, Reply 200 "A"); ("http://b"%string, Reply 200 "B")]
           [("A"%string, ["http://b"%string; "http://b"%string])].

(** Every GET fails. *)
Definition web_down : Web := stub_web [] [].

(** [http://a] holds one relative link. *)
Definition web_relative : Web :=
  stub_web [("http://a"%string, Reply 200 "A")]
           [("A"%string, ["/about"%string])].

(** [http://a/missing] answers 404 with an error page. *)
Definition web_404 : Web :=
  stub_web [("http://a/missing"%string, Reply 404 "Not Found")] [].

(** [http://a] links to [http://b] and [http://c], which link nowhere. *)
Definition web_fan : Web :=
  stub_web [("http://a"%string, Reply 200 "A"); ("http://b"%string, Reply 200 "B");
            ("http://c"%string, Reply 200 "C")]
           [("A"%string, ["http://b"%string; "http://c"%string])].

(** [http://a] links to itself and to [http://b]. *)
Definition web_self : Web :=
  stub_web [("http://a"%string, Reply 200 "A"); ("http://b"%string, Reply 200 "B")]
           [("A"%string, ["http://a"%string; "http://b"%string])].

(** The seed of [main] links to one further page. *)
Definition web_wiki : Web :=
  stub_web [("https://wikipedia.org/"%string, Reply 200 "W");
            ("https://b/"%string, Reply 200 "B")]
           [("W"%string, ["https://b/"%string])].

(** ** The sequential strategy in the words of the specification *)

Module SequentialSpec.







End SequentialSpec.

(** ** Respect of the seen-set *)





(** ** Engine states between runs *)

(** An engine on which a run may start: the counter is within the budget,
    and below the budget at most one URL is pending.  A new engine with a
    budget that is not negative is such a state, and so is an engine that a
    run has returned. *)
Definition threaded_settled (st : ThreadedCrawler.t) : Prop :=
  ThreadedCrawler.pages_crawled st <= ThreadedCrawler.max_pages st /\
  ((List.length (ThreadedCrawler.queue st) <= 1)%nat \/
   ThreadedCrawler.max_pages st <= ThreadedCrawler.pages_crawled st).

Definition async_settled (st : AsyncCrawler.t) : Prop :=
  AsyncCrawler.pages st <= AsyncCrawler.max_pages st /\
  ((List.length (AsyncCrawler.queue st) <= 1)%nat \/
   AsyncCrawler.max_pages st <= AsyncCrawler.pages st).

(** ** Accounting of the thread pool *)

(** The futures list holds distinct futures of submitted jobs, the futures
    handed over by [wait] are distinct members of it, and the counter stands
    at [entry] plus the jobs submitted minus the futures still listed. *)
Definition pool_accounts (entry : Z) (p : ThreadedCrawler.pool) : Prop :=
  NoDup (ThreadedCrawler.futures p) /\
  (forall fut, In fut (ThreadedCrawler.futures p) ->
               (fut < List.length (ThreadedCrawler.jobs p))%nat) /\
  match ThreadedCrawler.at_main p with
  | ThreadedCrawler.ForDone done =>
      NoDup done /\ forall fut, In fut done -> In fut (ThreadedCrawler.futures p)
  | _ => True
  end /\
  ThreadedCrawler.pages_crawled (ThreadedCrawler.engine p) =
    entry + Z.of_nat (List.length (ThreadedCrawler.jobs p))
          - Z.of_nat (List.length (ThreadedCrawler.futures p)).

(** ** The budget in the thread pool *)

(** The counter is within the budget [B]; and either it has reached [B] and
    the caller is not handling a future, or at most one future is listed
    (counting the kick-off rounds still to come), and a future being handled
    is that one, taken while the counter was below [B]. *)
Definition pool_bounded (B : Z) (p : ThreadedCrawler.pool) : Prop :=
  ThreadedCrawler.max_pages (ThreadedCrawler.engine p) = B /\
  ThreadedCrawler.pages_crawled (ThreadedCrawler.engine p) <= B /\
  ((ThreadedCrawler.pages_crawled (ThreadedCrawler.engine p) = B /\
    match ThreadedCrawler.at_main p with
    | ThreadedCrawler.ForDone (_ :: _) => False
    | _ => True
    end) \/
   match ThreadedCrawler.at_main p with
   | ThreadedCrawler.Kickoff n =>
       (n + List.length (ThreadedCrawler.futures p) <= 1)%nat
   | ThreadedCrawler.ForDone done =>
       (List.length (ThreadedCrawler.futures p) <= 1)%nat /\
       (done = [] \/
        (ThreadedCrawler.pages_crawled (ThreadedCrawler.engine p) < B /\
         exists fut, done = [fut] /\ ThreadedCrawler.futures p = [fut]))
   | _ => (List.length (ThreadedCrawler.futures p) <= 1)%nat
   end).

(** ** The pool at rest *)

(** A job whose future is not listed has finished, and so have the jobs
    whose futures [wait] handed over; with no future listed nothing is
    pending, unless the kick-off has not submitted anything yet; and the
    caller leaves the loop only with no future listed or the budget
    reached. *)
Definition pool_idles (p : ThreadedCrawler.pool) : Prop :=
  (forall i j, ThreadedCrawler.jobs p !! i = Some j ->
               ~ In i (ThreadedCrawler.futures p) ->
               j = ThreadedCrawler.Finished) /\
  match ThreadedCrawler.at_main p with
  | ThreadedCrawler.ForDone done =>
      forall fut, In fut done ->
                  ThreadedCrawler.jobs p !! fut = Some ThreadedCrawler.Finished
  | _ => True
  end /\
  (ThreadedCrawler.futures p = [] ->
   ThreadedCrawler.queue (ThreadedCrawler.engine p) = [] \/
   (ThreadedCrawler.jobs p = [] /\
    exists n, ThreadedCrawler.at_main p = ThreadedCrawler.Kickoff (S n))) /\
  match ThreadedCrawler.at_main p with
  | ThreadedCrawler.Shutdown | ThreadedCrawler.Returned =>
      ThreadedCrawler.futures p = [] \/
      ThreadedCrawler.max_pages (ThreadedCrawler.engine p)
        <= ThreadedCrawler.pages_crawled (ThreadedCrawler.engine p)
  | _ => True
  end.

(** ** Moves of the pool threads alone *)

(** From [p] to [p'] the caller has not moved: it stands where it stood,
    with the same futures, counter and budget and as many jobs, and the jobs
    that had finished are still finished. *)
Definition caller_waits (p p' : ThreadedCrawler.pool) : Prop :=
  ThreadedCrawler.at_main p' = ThreadedCrawler.at_main p /\
  ThreadedCrawler.futures p' = ThreadedCrawler.futures p /\
  ThreadedCrawler.pages_crawled (ThreadedCrawler.engine p')
  = ThreadedCrawler.pages_crawled (ThreadedCrawler.engine p) /\
  ThreadedCrawler.max_pages (ThreadedCrawler.engine p')
  = ThreadedCrawler.max_pages (ThreadedCrawler.engine p) /\
  List.length (ThreadedCrawler.jobs p') = List.length (ThreadedCrawler.jobs p) /\
  forall k, ThreadedCrawler.jobs p !! k = Some ThreadedCrawler.Finished ->
            ThreadedCrawler.jobs p' !! k = Some ThreadedCrawler.Finished.

(** ** The budget in the event loop *)

(** A task that has popped a URL and not yet passed the increment. *)
Definition in_flight (k : AsyncCrawler.task) : bool :=
  match k with
  | AsyncCrawler.Acquiring _ | AsyncCrawler.Fetching _ => true
  | _ => false
  end.

(** The counter is within the budget [B].  The ready queue starts with the
    tasks that have not run yet ([pre], each once); every task in flight is
    the task [fl], if any; while one is, the counter is below [B] and, as
    long as tasks wait for their first run, nothing is pending; while none
    is, the counter has reached [B] or at most one URL is pending. *)
Definition loop_bounded (B : Z) (l : AsyncCrawler.loop) : Prop :=
  AsyncCrawler.max_pages (AsyncCrawler.crawler l) = B /\
  AsyncCrawler.pages (AsyncCrawler.crawler l) <= B /\
  exists (fl : option nat) (pre post : list nat),
    AsyncCrawler.ready l = pre ++ post /\
    NoDup pre /\
    (forall j, j ∈ pre <-> AsyncCrawler.tasks l !! j = Some AsyncCrawler.Created) /\
    (forall i k, AsyncCrawler.tasks l !! i = Some k -> in_flight k = true ->
                 fl = Some i) /\
    match fl with
    | Some h =>
        AsyncCrawler.pages (AsyncCrawler.crawler l) < B /\
        (pre <> [] -> AsyncCrawler.queue (AsyncCrawler.crawler l) = []) /\
        (exists k, AsyncCrawler.tasks l !! h = Some k /\ in_flight k = true)
    | None =>
        (List.length (AsyncCrawler.queue (AsyncCrawler.crawler l)) <= 1)%nat \/
        B <= AsyncCrawler.pages (AsyncCrawler.crawler l)
    end.

(** ** Counting in the event loop *)

Definition is_fetching (k : AsyncCrawler.task) : bool :=
  match k with AsyncCrawler.Fetching _ => true | _ => false end.

(** Number of GETs that are out and whose round has not yet reached the
    increment. *)
Definition fetching (l : AsyncCrawler.loop) : nat :=
  List.length (List.filter is_fetching (AsyncCrawler.tasks l)).


(** ** Repetitions of a measured callable *)

(** [chained fn s obs s']: the observations [obs] of successive calls of [fn]
    start at [s]; each call starts in the state the one before it returned,
    and the last returns [s']. *)
Inductive chained {S R : Type} (fn : S -> result (R * S))
    : S -> list (S * R) -> S -> Prop :=
| chained_nil s : chained fn s [] s
| chained_cons s r s1 obs s' :
    fn s = Return (r, s1) -> chained fn s1 obs s' ->
    chained fn s ((s, r) :: obs) s'.

(** A threaded engine as its constructor leaves it. *)
Definition threaded_fresh (seed_url : string) (st : ThreadedCrawler.t) : Prop :=
  ThreadedCrawler.queue st = [seed_url] /\
  ThreadedCrawler.visited st = ∅ /\
  ThreadedCrawler.pages_crawled st = 0.

(** Schedules under which [main] runs to its end on [web_wiki]: the
    thread-pool calls find nothing to do (three moves of the caller each);
    the first asyncio call runs its twenty workers, of which the first
    fetches the two pages, and the later calls only run their workers. *)
Definition wiki_tape_tc : list ThreadedCrawler.choice :=
  replicate 15 ThreadedCrawler.Main.

Definition wiki_tape_ac : list AsyncCrawler.choice :=
  replicate 20 AsyncCrawler.Run
  ++ [AsyncCrawler.Arrive 0; AsyncCrawler.Run;
      AsyncCrawler.Arrive 0; AsyncCrawler.Run]
  ++ replicate 80 AsyncCrawler.Run.

(** A job whose GET has been issued. *)
Definition started (j : ThreadedCrawler.job) : bool :=
  match j with ThreadedCrawler.ToFetch _ => false | _ => true end.

(** GETs issued so far by the engine, minus the jobs that have issued
    theirs. *)
Definition unissued (p : ThreadedCrawler.pool) : Z :=
  Z.of_nat (List.length (ThreadedCrawler.requests (ThreadedCrawler.engine p)))
  - Z.of_nat (List.length (List.filter started (ThreadedCrawler.jobs p))).

(** A schedule for the thread pool on [web_down]: the caller kicks off the
    one job, the pool thread runs it, the caller collects it and leaves. *)
Definition down_tape_tc : list ThreadedCrawler.choice :=
  [ThreadedCrawler.Main; ThreadedCrawler.Main; ThreadedCrawler.Worker 0;
   ThreadedCrawler.Main; ThreadedCrawler.Main; ThreadedCrawler.Main;
   ThreadedCrawler.Main; ThreadedCrawler.Main].

(** A schedule for the thread pool on [web_twice]: each job is run to its
    end by its pool thread before the caller collects it. *)
Definition twice_tape_tc : list ThreadedCrawler.choice :=
  [ThreadedCrawler.Main; ThreadedCrawler.Main;
   ThreadedCrawler.Worker 0; ThreadedCrawler.Worker 0;
   ThreadedCrawler.Worker 0; ThreadedCrawler.Worker 0;
   ThreadedCrawler.Main; ThreadedCrawler.Main; ThreadedCrawler.Main;
   ThreadedCrawler.Worker 1; ThreadedCrawler.Worker 1;
   ThreadedCrawler.Main; ThreadedCrawler.Main; ThreadedCrawler.Main;
   ThreadedCrawler.Worker 2; ThreadedCrawler.Worker 2;
   ThreadedCrawler.Main; ThreadedCrawler.Main; ThreadedCrawler.Main;
   ThreadedCrawler.Main; ThreadedCrawler.Main].

(** A schedule for two asyncio workers on [web_fan]: the second finds
    nothing pending at its first run and leaves; the first fetches the three
    pages one after the other. *)
Definition fan_tape_ac : list AsyncCrawler.choice :=
  [AsyncCrawler.Run; AsyncCrawler.Run;
   AsyncCrawler.Arrive 0; AsyncCrawler.Run;
   AsyncCrawler.Arrive 0; AsyncCrawler.Run;
   AsyncCrawler.Arrive 0; AsyncCrawler.Run].

(** A schedule for one asyncio worker on [web_down]. *)
Definition down_tape_ac : list AsyncCrawler.choice :=
  [AsyncCrawler.Run; AsyncCrawler.Arrive 0; AsyncCrawler.Run].

(** ** Engines a caller can hold *)

(** A threaded engine with budget [B]: new from the constructor, or handed
    back by a call of [crawl_single] or by a returned call of
    [crawl_threaded] on such an engine. *)
Inductive threaded_engine `{Web} (B : Z) : ThreadedCrawler.t -> Prop :=
| threaded_new MONGO_URI stored seed_url :
    threaded_engine B (ThreadedCrawler.__init__ MONGO_URI stored seed_url B)
| threaded_after_single st :
    threaded_engine B st ->
    threaded_engine B (ThreadedCrawler.crawl_single st)
| threaded_after_pool st max_workers tape st' rest :
    threaded_engine B st ->
    ThreadedCrawler.crawl_threaded max_workers (st, tape) = Return (tt, (st', rest)) ->
    threaded_engine B st'.

(** An async engine with budget [B]: new, or handed back by a returned call
    of [crawl] on such an engine. *)
Inductive async_engine `{Web} (B : Z) : AsyncCrawler.t -> Prop :=
| async_new seed_url :
    async_engine B (AsyncCrawler.__init__ seed_url B)
| async_after_crawl st concurrency tape st' rest :
    async_engine B st ->
    AsyncCrawler.crawl concurrency (st, tape) = Return (tt, (st', rest)) ->
    async_engine B st'.

(** ** The semaphore never holds a worker up *)

(** During [crawl] with [concurrency] workers: nobody waits for the
    semaphore, its free slots are those not held by a worker with a GET out,
    and every worker that has not run yet is scheduled. *)
Definition loop_flows (concurrency : Z) (l : AsyncCrawler.loop) : Prop :=
  Z.of_nat (List.length (AsyncCrawler.tasks l)) <= concurrency /\
  AsyncCrawler.waiters l = [] /\
  (forall i url, AsyncCrawler.tasks l !! i <> Some (AsyncCrawler.Acquiring url)) /\
  AsyncCrawler.sem l = concurrency - Z.of_nat (fetching l) /\
  (forall j, AsyncCrawler.tasks l !! j = Some AsyncCrawler.Created ->
             In j (AsyncCrawler.ready l)).

(** Workers that have not left their loop. *)
Definition live (l : AsyncCrawler.loop) : nat :=
  List.length
    (List.filter (fun k => negb (AsyncCrawler.task_exited k)) (AsyncCrawler.tasks l)).

(** What bounds the rounds still to come: budget left, plus live workers. *)
Definition rounds_left (l : AsyncCrawler.loop) : nat :=
  (Z.to_nat (AsyncCrawler.max_pages (AsyncCrawler.crawler l)
             - AsyncCrawler.pages (AsyncCrawler.crawler l))
   + live l)%nat.

(** ** What a page contributes *)

(** The test both [parse] methods make on a link, against the seen-set [v]:
    [href.startswith("http") and href not in self.visited]. *)
Definition wanted (v : gset string) (href : string) : bool :=
  String.prefix "http" href && bool_decide (href ∉ v).

(** ** The trace of a run *)

Definition job_url (j : ThreadedCrawler.job) : list string :=
  match j with ThreadedCrawler.ToFetch url => [url] | _ => [] end.

(** URLs of the submitted jobs whose GET has not been issued yet. *)
Definition to_fetch (js : list ThreadedCrawler.job) : list string :=
  flat_map job_url js.

Definition task_url (k : AsyncCrawler.task) : list string :=
  match k with AsyncCrawler.Acquiring url => [url] | _ => [] end.

(** URLs popped by workers that wait for a slot of the semaphore. *)
Definition acquiring (ts : list AsyncCrawler.task) : list string :=
  flat_map task_url ts.

Section Traces.
Context `{Web}.

(** The URL is one whose GET gives [ThreadedCrawler.fetch] some content. *)
Definition has_content (url : string) : bool :=
  truthy (ThreadedCrawler.fetch url).

(** The document [ThreadedCrawler.parse] stores for the page fetched from
    [url]. *)
Definition page_of (url : string) : document :=
  {| doc_url := url;
     doc_title := soup_title (ThreadedCrawler.fetch url);
     doc_content := substring 0 500 (soup_body_text (ThreadedCrawler.fetch url)) |}.

(** What the threaded engine [st'] shows of a run that started at [st], has
    issued the GETs [new] (oldest first) and has popped the URLs [pending]
    without a GET so far: the request log, the seen-set, the store, and
    where the URLs it holds come from. *)
Definition threaded_trace (st : ThreadedCrawler.t) (pending new : list string)
    (st' : ThreadedCrawler.t) : Prop :=
  ThreadedCrawler.requests st' = ThreadedCrawler.requests st ++ new /\
  ThreadedCrawler.visited st'
  = ThreadedCrawler.visited st ∪ list_to_set new ∪ list_to_set pending /\
  ThreadedCrawler.db_client st' = ThreadedCrawler.db_client st /\
  ThreadedCrawler.collection st'
  = ThreadedCrawler.collection st
    ++ (if ThreadedCrawler.db_client st
        then List.map page_of (List.filter has_content new) else []) /\
  (forall u, u ∈ ThreadedCrawler.queue st' \/ u ∈ pending \/ u ∈ new ->
             u ∈ ThreadedCrawler.queue st \/ String.prefix "http" u = true).

(** The same for the async engine, which has no store. *)
Definition async_trace (st : AsyncCrawler.t) (pending new : list string)
    (st' : AsyncCrawler.t) : Prop :=
  AsyncCrawler.requests st' = AsyncCrawler.requests st ++ new /\
  AsyncCrawler.visited st'
  = AsyncCrawler.visited st ∪ list_to_set new ∪ list_to_set pending /\
  (forall u, u ∈ AsyncCrawler.queue st' \/ u ∈ pending \/ u ∈ new ->
             u ∈ AsyncCrawler.queue st \/ String.prefix "http" u = true).

(** The trace of a run of the thread pool that started at [st]. *)
Definition pool_trace (st : ThreadedCrawler.t) (p : ThreadedCrawler.pool) : Prop :=
  exists new,
    threaded_trace st (to_fetch (ThreadedCrawler.jobs p)) new (ThreadedCrawler.engine p).

(** The trace of a run of the event loop that started at [st]. *)
Definition loop_trace (st : AsyncCrawler.t) (l : AsyncCrawler.loop) : Prop :=
  exists new,
    async_trace st (acquiring (AsyncCrawler.tasks l)) new (AsyncCrawler.crawler l).

End Traces.

(** ** The kick-off of the thread pool *)

(** Rounds of the kick-off loop of [crawl_threaded]:
    [min(len(self.queue), max_workers)]. *)
Definition kickoff_rounds (max_workers : Z) (st : ThreadedCrawler.t) : nat :=
  Z.to_nat (Z.min (Z.of_nat (List.length (ThreadedCrawler.queue st))) max_workers).

(** The futures listed, with the kick-off rounds still to come, are at most
    [k]. *)
Definition pool_refills (k : nat) (p : ThreadedCrawler.pool) : Prop :=
  match ThreadedCrawler.at_main p with
  | ThreadedCrawler.Kickoff n => (n + List.length (ThreadedCrawler.futures p) <= k)%nat
  | _ => (List.length (ThreadedCrawler.futures p) <= k)%nat
  end.

(** The pool on an engine [st] whose budget was used up at entry, with [k]
    kick-off rounds: the counter stands still, the caller never handles a
    future, and with [n] kick-off rounds to come the GETs issued and those
    of the jobs still to start are the first [k - n] URLs of the queue of
    [st], the rest of which is still pending. *)
Definition pool_kicks (st : ThreadedCrawler.t) (k : nat)
    (p : ThreadedCrawler.pool) : Prop :=
  ThreadedCrawler.pages_crawled (ThreadedCrawler.engine p)
  = ThreadedCrawler.pages_crawled st /\
  ThreadedCrawler.max_pages (ThreadedCrawler.engine p)
  = ThreadedCrawler.max_pages st /\
  exists (n : nat) (new links : list string),
    (n <= k)%nat /\
    match ThreadedCrawler.at_main p with
    | ThreadedCrawler.Kickoff m => m = n
    | ThreadedCrawler.ForDone _ => False
    | _ => n = 0%nat
    end /\
    ThreadedCrawler.requests (ThreadedCrawler.engine p)
    = ThreadedCrawler.requests st ++ new /\
    new ++ to_fetch (ThreadedCrawler.jobs p)
      ≡ₚ take (k - n) (ThreadedCrawler.queue st) /\
    ThreadedCrawler.queue (ThreadedCrawler.engine p)
    = drop (k - n) (ThreadedCrawler.queue st) ++ links.

(** ** Runs with nothing to do *)

(** The pool on an engine [st] with an empty queue: no job is ever
    submitted. *)
Definition pool_rests (st : ThreadedCrawler.t) (p : ThreadedCrawler.pool) : Prop :=
  ThreadedCrawler.engine p = st /\
  ThreadedCrawler.jobs p = [] /\
  ThreadedCrawler.futures p = [] /\
  match ThreadedCrawler.at_main p with
  | ThreadedCrawler.Kickoff (S _) | ThreadedCrawler.ForDone _ => False
  | _ => True
  end.

(** The event loop on an engine [st] on which the guard of [worker] is
    false: no worker ever pops a URL. *)
Definition loop_rests (st : AsyncCrawler.t) (l : AsyncCrawler.loop) : Prop :=
  AsyncCrawler.crawler l = st /\
  Forall (fun k => k = AsyncCrawler.Created \/ k = AsyncCrawler.Exited)
         (AsyncCrawler.tasks l).

(** ** The pool taken one job at a time *)

Section Sequential.
Context `{Web}.

(** What is left of a job, done in one go. *)
Definition finish_job (st : ThreadedCrawler.t) (j : ThreadedCrawler.job)
    : ThreadedCrawler.t :=
  match j with
  | ThreadedCrawler.ToFetch url => ThreadedCrawler.fetch_and_parse st url
  | ThreadedCrawler.ToParse _ hrefs =>
      fold_left ThreadedCrawler.enqueue_link hrefs st
  | ThreadedCrawler.Finished => st
  end.

(** The pool once its threads have run every job to its end, one job after
    the other. *)
Definition complete (p : ThreadedCrawler.pool) : ThreadedCrawler.pool :=
  ThreadedCrawler.mk_pool
    (fold_left finish_job (ThreadedCrawler.jobs p) (ThreadedCrawler.engine p))
    (List.map (fun _ => ThreadedCrawler.Finished) (ThreadedCrawler.jobs p))
    (ThreadedCrawler.futures p) (ThreadedCrawler.at_main p).

(** One move of the caller, followed by the pool threads running every job
    to its end. *)
Definition pool_round (p : ThreadedCrawler.pool) : ThreadedCrawler.pool :=
  complete (ThreadedCrawler.main_step p).

(** ** The worker taken one round at a time *)

(** The rest of a round of [worker] once the GET of [url] is out: the parse
    of the reply and the increment. *)
Definition finish_round (st : AsyncCrawler.t) (url : string) : AsyncCrawler.t :=
  let html := AsyncCrawler.fetch url in
  let st := if truthy html then AsyncCrawler.parse st url html else st in
  AsyncCrawler.set_pages (AsyncCrawler.pages st + 1) st.

Definition finish_task (st : AsyncCrawler.t) (k : AsyncCrawler.task)
    : AsyncCrawler.t :=
  match k with
  | AsyncCrawler.Fetching url => finish_round st url
  | AsyncCrawler.Acquiring url => finish_round (AsyncCrawler.log_request url st) url
  | _ => st
  end.

(** The engine once every round under way has been brought to its end. *)
Definition settle (l : AsyncCrawler.loop) : AsyncCrawler.t :=
  fold_left finish_task (AsyncCrawler.tasks l) (AsyncCrawler.crawler l).

(** The guard of the [while] loop of [worker]. *)
Definition worker_guard (st : AsyncCrawler.t) : bool :=
  (AsyncCrawler.pages st <? AsyncCrawler.max_pages st)
  && bool_decide (AsyncCrawler.queue st ≠ []).

(** One round of [worker] without a suspension. *)
Definition worker_round (st : AsyncCrawler.t) : AsyncCrawler.t :=
  match AsyncCrawler.queue st with
  | [] => st
  | url :: rest =>
      finish_round
        (AsyncCrawler.log_request url
           (AsyncCrawler.add_visited url (AsyncCrawler.set_queue rest st))) url
  end.

(** The test of the [while] loop and, if it holds, one round. *)
Definition worker_turn (st : AsyncCrawler.t) : AsyncCrawler.t :=
  if worker_guard st then worker_round st else st.

End Sequential.

(** At most one job is unfinished, and the caller handles finished futures
    only. *)
Definition pool_single (entry : Z) (p : ThreadedCrawler.pool) : Prop :=
  pool_accounts entry p /\ pool_idles p /\ pool_refills 1 p.

(** Once every worker has left its loop, the guard of the loop is false. *)
Definition loop_drains (l : AsyncCrawler.loop) : Prop :=
  AsyncCrawler.gathered l = true -> worker_guard (AsyncCrawler.crawler l) = false.

(** At most one round is under way, no worker waits for the semaphore, and
    the loop ends with its guard false. *)
Definition loop_single (B concurrency : Z) (l : AsyncCrawler.loop) : Prop :=
  loop_bounded B l /\ loop_flows concurrency l /\ loop_drains l.

(** ** The sequential loop and the loop of a worker side by side *)


(** ** The two threaded strategies side by side *)

(** Two threaded engines that differ in the counter at most. *)
Definition same_frontier (a b : ThreadedCrawler.t) : Prop :=
  ThreadedCrawler.queue a = ThreadedCrawler.queue b /\
  ThreadedCrawler.visited a = ThreadedCrawler.visited b /\
  ThreadedCrawler.max_pages a = ThreadedCrawler.max_pages b /\
  ThreadedCrawler.db_client a = ThreadedCrawler.db_client b /\
  ThreadedCrawler.collection a = ThreadedCrawler.collection b /\
  ThreadedCrawler.requests a = ThreadedCrawler.requests b.

(** What a round of either threaded strategy does but for the counting: the
    next URL, if there is one, is popped, marked, fetched and parsed. *)
Definition advance `{Web} (st : ThreadedCrawler.t) : ThreadedCrawler.t :=
  match ThreadedCrawler.queue st with
  | [] => st
  | url :: rest =>
      ThreadedCrawler.fetch_and_parse
        (ThreadedCrawler.add_visited url (ThreadedCrawler.set_queue rest st)) url
  end.

(** The pool has brought the engine as far as one [advance] per job
    submitted. *)
Definition pool_advances `{Web} (st : ThreadedCrawler.t)
    (p : ThreadedCrawler.pool) : Prop :=
  same_frontier (ThreadedCrawler.engine (complete p))
    (Nat.iter (List.length (ThreadedCrawler.jobs p)) advance st).

(** ** Further schedules *)

(** A schedule for the thread pool on [web_twice] with the budget used up at
    entry: the caller kicks off the one job, the pool thread runs it to its
    end, the caller leaves. *)
Definition spent_tape_tc : list ThreadedCrawler.choice :=
  [ThreadedCrawler.Main;
   ThreadedCrawler.Worker 0; ThreadedCrawler.Worker 0;
   ThreadedCrawler.Worker 0; ThreadedCrawler.Worker 0;
   ThreadedCrawler.Main; ThreadedCrawler.Main; ThreadedCrawler.Main].

(** Another schedule for the thread pool on [web_twice]: the caller polls
    while the pool threads are at work. *)
Definition polling_tape_tc : list ThreadedCrawler.choice :=
  [ThreadedCrawler.Main; ThreadedCrawler.Main; ThreadedCrawler.Main;
   ThreadedCrawler.Worker 0; ThreadedCrawler.Main;
   ThreadedCrawler.Worker 0; ThreadedCrawler.Worker 0; ThreadedCrawler.Main;
   ThreadedCrawler.Worker 0; ThreadedCrawler.Main;
   ThreadedCrawler.Main; ThreadedCrawler.Main; ThreadedCrawler.Main;
   ThreadedCrawler.Worker 1; ThreadedCrawler.Main;
   ThreadedCrawler.Worker 1; ThreadedCrawler.Main;
   ThreadedCrawler.Main; ThreadedCrawler.Main; ThreadedCrawler.Main;
   ThreadedCrawler.Worker 2; ThreadedCrawler.Worker 2;
   ThreadedCrawler.Main; ThreadedCrawler.Main; ThreadedCrawler.Main;
   ThreadedCrawler.Main; ThreadedCrawler.Main].

(** A schedule for one asyncio worker on [web_fan]; the first reply is
    announced twice. *)
Definition lone_tape_ac : list AsyncCrawler.choice :=
  [AsyncCrawler.Run; AsyncCrawler.Arrive 0; AsyncCrawler.Arrive 0;
   AsyncCrawler.Run; AsyncCrawler.Run;
   AsyncCrawler.Arrive 0; AsyncCrawler.Run;
   AsyncCrawler.Arrive 0; AsyncCrawler.Run].

(** * Properties *)

(** ** Queues and the seen-set *)





Lemma filter_insert_length {A : Type} (f : A -> bool) (l : list A) i x y :
  l !! i = Some x ->
  (List.length (List.filter f (<[ i := y ]> l)) + (if f x then 1 else 0)
   = List.length (List.filter f l) + (if f y then 1 else 0))%nat.
Proof.
  revert i. induction l as [|z l IH]; intros [|i] Hi; simpl in *; try discriminate.
  - injection Hi as ->. destruct (f x), (f y); simpl; lia.
  - specialize (IH i Hi). destruct (f z); simpl; lia.
Qed.




(** ** The sequential loop *)

Module SingleFacts.
Import ThreadedCrawler.

Section WithWeb.
Context `{Web}.

Lemma crawl_single_unfold st :
  crawl_single st =
  if single_guard st then crawl_single (single_body st) else st.
Proof.
  rewrite crawl_single_equation_1. unfold crawl_single_unfold_clause_1.
  destruct (Equations.Prop.Logic.inspect (single_guard st)) as [[] Hg];
    simpl; rewrite Hg; reflexivity.
Qed.

(** Induction along the rounds of the loop. *)
Lemma crawl_single_rounds (P : t -> t -> Prop) :
  (forall st, single_guard st = false -> P st st) ->
  (forall st st', single_guard st = true -> P (single_body st) st' -> P st st') ->
  forall st, P st (crawl_single st).
Proof.
  intros Hstop Hround st. funelim (crawl_single st).
  - apply Hround; [assumption|]. match goal with IH : forall Q : _, _ |- _ => exact (IH P Hstop Hround) end.
  - apply Hstop. assumption.
Qed.

Lemma crawl_single_fuel_sound fuel : forall st st',
  crawl_single_fuel fuel st = Some st' -> crawl_single st = st'.
Proof.
  induction fuel as [|fuel IH]; simpl; intros st st' Hrun; [discriminate|].
  rewrite crawl_single_unfold. destruct (single_guard st); [auto | congruence].
Qed.

(** The loop always returns, and then its guard is false. *)
Lemma crawl_single_guard st : single_guard (crawl_single st) = false.
Proof. apply (crawl_single_rounds (fun _ st' => single_guard st' = false)); auto. Qed.

(** Some number of rounds is always enough for the cut-off loop. *)
Lemma crawl_single_fuel_complete st :
  exists fuel, crawl_single_fuel fuel st = Some (crawl_single st).
Proof.
  apply (crawl_single_rounds
           (fun st st' => exists fuel, crawl_single_fuel fuel st = Some st')).
  - intros s Hg. exists 1%nat. simpl. rewrite Hg. reflexivity.
  - intros s s' Hg [fuel Hrun]. exists (S fuel). simpl. rewrite Hg. exact Hrun.
Qed.



Lemma single_guard_true st :
  single_guard st = true <-> queue st <> [] /\ pages_crawled st < max_pages st.
Proof.
  unfold single_guard. rewrite andb_true_iff, bool_decide_eq_true, Z.ltb_lt. tauto.
Qed.

Lemma single_guard_false st :
  single_guard st = false <-> queue st = [] \/ max_pages st <= pages_crawled st.
Proof.
  unfold single_guard. rewrite andb_false_iff, bool_decide_eq_false, Z.ltb_ge.
  split.
  - intros [Hn|Hle]; [left | right; exact Hle].
    destruct (queue st); [reflexivity|]. exfalso. apply Hn. discriminate.
  - intros [Hq|Hle]; [left | right; exact Hle].
    intros Hn. apply Hn, Hq.
Qed.

Lemma single_body_max_pages st : max_pages (single_body st) = max_pages st.
Proof.
  unfold single_body. destruct (queue st) as [|url rest]; [reflexivity|].
  destruct (truthy (fetch url)); [|reflexivity]. simpl.
  apply (parse_counters (log_request url (add_visited url (set_queue rest st)))).
Qed.

Lemma crawl_single_max_pages st : max_pages (crawl_single st) = max_pages st.
Proof.
  apply (crawl_single_rounds (fun st st' => max_pages st' = max_pages st)).
  - reflexivity.
  - intros s s' _ ->. apply single_body_max_pages.
Qed.



Lemma save_page_frame st url html :
  queue (save_page st url html) = queue st /\
  visited (save_page st url html) = visited st /\
  pages_crawled (save_page st url html) = pages_crawled st /\
  max_pages (save_page st url html) = max_pages st /\
  requests (save_page st url html) = requests st.
Proof. unfold save_page. destruct (db_client st); simpl; auto. Qed.





Lemma single_body_pages_crawled st :
  pages_crawled st <= pages_crawled (single_body st) <= pages_crawled st + 1.
Proof.
  unfold single_body. destruct (queue st) as [|url rest]; [lia|].
  destruct (truthy (fetch url)); simpl; [|lia].
  destruct (parse_counters (log_request url (add_visited url (set_queue rest st)))
              url (fetch url)) as [-> _]. simpl. lia.
Qed.

Lemma crawl_single_within_budget st :
  pages_crawled st <= max_pages st ->
  pages_crawled (crawl_single st) <= max_pages st.
Proof.
  apply (crawl_single_rounds
           (fun st st' => pages_crawled st <= max_pages st ->
                          pages_crawled st' <= max_pages st)).
  - auto.
  - intros s s' Hg Hrest _. apply single_guard_true in Hg as [_ Hlt].
    rewrite single_body_max_pages in Hrest. apply Hrest.
    pose proof (single_body_pages_crawled s). lia.
Qed.

Import SequentialSpec.




End WithWeb.
End SingleFacts.

(** ** The thread pool *)

Module PoolFacts.
Import ThreadedCrawler.

Section WithWeb.
Context `{Web}.

Lemma pool_steps_cons c tape p : steps (c :: tape) p = steps tape (step c p).
Proof. reflexivity. Qed.

Lemma pool_steps_app tape1 tape2 p :
  steps (tape1 ++ tape2) p = steps tape2 (steps tape1 p).
Proof. unfold steps. apply fold_left_app. Qed.

(** An invariant of every move holds after every tape. *)
Lemma pool_steps_invariant (Inv : pool -> Prop) :
  (forall c p, Inv p -> Inv (step c p)) ->
  forall tape p, Inv p -> Inv (steps tape p).
Proof.
  intros Hstep tape. induction tape as [|c tape IH]; intros p Hp; [exact Hp|].
  rewrite pool_steps_cons. apply IH, Hstep, Hp.
Qed.

(** A returned call sits at the end of some tape. *)
Lemma pool_exec_steps tape : forall p p' rest,
  exec tape p = Return (p', rest) ->
  exists used, tape = used ++ rest /\ p' = steps used p /\ at_main p' = Returned.
Proof.
  induction tape as [|c tape IH]; intros p p' rest; simpl.
  - destruct (returned p) eqn:Hr; [|discriminate]. intros [= <- <-].
    exists []. repeat split. unfold returned in Hr.
    destruct (at_main p); congruence.
  - destruct (returned p) eqn:Hr.
    + intros [= <- <-]. exists []. repeat split. unfold returned in Hr.
      destruct (at_main p); congruence.
    + intros Hrun. destruct (IH _ _ _ Hrun) as (used & -> & -> & Hret).
      exists (c :: used). repeat split. exact Hret.
Qed.

(** What a move of a pool thread leaves alone. *)
Lemma worker_step_frame i p :
  pages_crawled (engine (worker_step i p)) = pages_crawled (engine p) /\
  max_pages (engine (worker_step i p)) = max_pages (engine p) /\
  futures (worker_step i p) = futures p /\
  at_main (worker_step i p) = at_main p /\
  List.length (jobs (worker_step i p)) = List.length (jobs p).
Proof.
  unfold worker_step. destruct (jobs p !! i) as [[url|url [|href hrefs]|]|];
    simpl; rewrite ?length_insert; auto.
  - destruct (truthy (fetch url)); simpl; rewrite ?length_insert.
    + destruct (SingleFacts.save_page_frame (log_request url (engine p)) url (fetch url))
        as (_ & _ & -> & -> & _). auto.
    + auto.
  - unfold enqueue_link. destruct (_ && _); simpl; auto.
Qed.

Lemma dispatch_frame p :
  pages_crawled (engine (dispatch p)) = pages_crawled (engine p) /\
  max_pages (engine (dispatch p)) = max_pages (engine p) /\
  at_main (dispatch p) = at_main p.
Proof. unfold dispatch. destruct (queue (engine p)); simpl; auto. Qed.

Lemma remove_first_length x l :
  In x l -> S (List.length (remove_first x l)) = List.length l.
Proof.
  induction l as [|y l IH]; simpl; [tauto|]. intros Hin.
  destruct (Nat.eqb_spec x y); [reflexivity|]. simpl. f_equal. apply IH.
  destruct Hin; [congruence | assumption].
Qed.

Lemma remove_first_In x l y : In y (remove_first x l) -> In y l.
Proof.
  induction l as [|z l IH]; simpl; [tauto|].
  destruct (Nat.eqb x z); simpl; tauto.
Qed.

Lemma remove_first_NoDup x l : NoDup l -> NoDup (remove_first x l).
Proof.
  induction 1 as [|z l Hz Hl IH]; simpl; [constructor|].
  destruct (Nat.eqb x z); [exact Hl|]. constructor; [|exact IH].
  intros Hin. apply Hz. apply list_elem_of_In. eapply remove_first_In.
  apply list_elem_of_In. exact Hin.
Qed.

Lemma remove_first_other x l y : In y l -> y <> x -> In y (remove_first x l).
Proof.
  induction l as [|z l IH]; simpl; [tauto|]. intros Hin Hne.
  destruct (Nat.eqb_spec x z) as [->|Hxz].
  - destruct Hin; [congruence | assumption].
  - simpl. destruct Hin; [left; assumption | right; auto].
Qed.

(** Submitting one more job keeps the books. *)
Lemma dispatch_accounts p :
  NoDup (futures p) ->
  (forall fut, In fut (futures p) -> (fut < List.length (jobs p))%nat) ->
  NoDup (futures (dispatch p)) /\
  (forall fut, In fut (futures (dispatch p)) ->
               (fut < List.length (jobs (dispatch p)))%nat) /\
  (forall fut, In fut (futures p) -> In fut (futures (dispatch p))) /\
  Z.of_nat (List.length (jobs (dispatch p)))
    - Z.of_nat (List.length (futures (dispatch p)))
  = Z.of_nat (List.length (jobs p)) - Z.of_nat (List.length (futures p)).
Proof.
  intros Hnd Hlt. unfold dispatch. destruct (queue (engine p)); simpl; [auto|].
  repeat split.
  - apply NoDup_app. repeat split; [exact Hnd | | apply NoDup_singleton].
    intros x Hx Hx'. apply list_elem_of_In in Hx. apply Hlt in Hx.
    apply list_elem_of_In in Hx'. destruct Hx' as [<-|[]]. lia.
  - intros fut Hin. rewrite List.length_app. simpl.
    apply in_app_or in Hin as [Hin|[<-|[]]]; [apply Hlt in Hin|]; lia.
  - intros fut Hin. apply in_or_app. left. exact Hin.
  - rewrite !List.length_app. simpl. lia.
Qed.

Lemma step_accounts entry c p : pool_accounts entry p -> pool_accounts entry (step c p).
Proof.
  intros (Hnd & Hlt & Hdone & Hpages). destruct c as [|i]; simpl.
  - unfold main_step.
    destruct (at_main p) as [[|n]| |[|fut done]| |] eqn:Hat; cbv beta iota zeta.
    + unfold pool_accounts. simpl. auto.
    + destruct (dispatch_accounts p Hnd Hlt) as (Hnd' & Hlt' & _ & Hlen).
      destruct (dispatch_frame p) as (Hp & _ & _).
      unfold pool_accounts. simpl. repeat split; auto. rewrite Hp. lia.
    + destruct (_ && _).
      * assert (Hnd_f : NoDup (List.filter (future_done (jobs p)) (futures p)))
          by (apply NoDup_ListNoDup, List.NoDup_filter, NoDup_ListNoDup, Hnd).
        assert (Hin_f : forall fut,
                  In fut (List.filter (future_done (jobs p)) (futures p)) ->
                  In fut (futures p))
          by (intros fut Hin; apply List.filter_In in Hin; tauto).
        revert Hnd_f Hin_f.
        destruct (List.filter (future_done (jobs p)) (futures p)) as [|f fs];
          intros Hnd_f Hin_f.
        { unfold pool_accounts. rewrite Hat. auto. }
        unfold pool_accounts. cbn [futures jobs engine at_main set_at_main].
        auto.
      * unfold pool_accounts. simpl. auto.
    + unfold pool_accounts. simpl. auto.
    + destruct Hdone as (Hdn & Hdin).
      assert (Hfut : In fut (futures p)) by (apply Hdin; left; reflexivity).
      pose proof (remove_first_length fut (futures p) Hfut) as Hlen.
      set (p1 := set_futures _ (set_engine _ p)).
      assert (Hnd1 : NoDup (futures p1)) by (apply remove_first_NoDup, Hnd).
      assert (Hlt1 : forall f, In f (futures p1) -> (f < List.length (jobs p1))%nat)
        by (intros f Hf; apply Hlt; eapply remove_first_In; exact Hf).
      assert (Hrest : forall f, In f done -> In f (futures p1)).
      { intros f Hf. apply remove_first_other; [apply Hdin; right; exact Hf|].
        intros ->. apply NoDup_cons in Hdn as [Hn _]. apply Hn.
        apply list_elem_of_In. exact Hf. }
      apply NoDup_cons in Hdn as [_ Hdn].
      destruct (bool_decide (queue (engine p1) ≠ [])).
      * destruct (dispatch_accounts p1 Hnd1 Hlt1) as (Hnd' & Hlt' & Hin' & Hlen').
        destruct (dispatch_frame p1) as (Hp & _ & _).
        unfold pool_accounts.
        cbn [futures jobs engine at_main set_at_main].
        repeat split; auto.
        rewrite Hp. subst p1. cbn [futures jobs engine set_futures set_engine pages_crawled set_pages_crawled] in *. lia.
      * unfold pool_accounts. subst p1. 
        cbn [futures jobs engine at_main set_at_main set_futures set_engine pages_crawled set_pages_crawled] in *.
        repeat split; auto; lia.
    + destruct (forallb job_finished (jobs p));
        unfold pool_accounts; simpl; rewrite ?Hat; auto.
    + unfold pool_accounts. rewrite Hat. auto.
  - destruct (worker_step_frame i p) as (Hp & _ & Hf & Ha & Hl).
    unfold pool_accounts. rewrite Hp, Hf, Ha, Hl. auto.
Qed.

Lemma start_accounts max_workers st :
  pool_accounts (pages_crawled st) (start max_workers st).
Proof.
  unfold pool_accounts, start. simpl. repeat split; [constructor | tauto | lia].
Qed.

Lemma dispatch_futures_length p :
  (List.length (futures (dispatch p)) <= S (List.length (futures p)))%nat.
Proof.
  unfold dispatch. destruct (queue (engine p)); simpl; [lia|].
  rewrite List.length_app. simpl. lia.
Qed.

Lemma pool_step_bounded B c p : pool_bounded B p -> pool_bounded B (step c p).
Proof.
  intros (Hmax & Hle & Hcase). destruct c as [|i]; simpl.
  - unfold main_step.
    destruct (at_main p) as [[|n]| |[|fut done]| |] eqn:Hat; cbv beta iota zeta.
    + unfold pool_bounded. simpl. repeat split; auto;
        (destruct Hcase as [[Hfull _]|Hone]; [left; auto | right; lia]).
    + destruct (dispatch_frame p) as (Hp & Hm & _).
      pose proof (dispatch_futures_length p) as Hlen.
      unfold pool_bounded. cbn [engine at_main futures set_at_main].
      rewrite Hp, Hm. repeat split; auto;
        (destruct Hcase as [[Hfull _]|Hone]; [left; auto | right; lia]).
    + destruct (bool_decide (futures p ≠ [])) eqn:Hfs; simpl.
      2:{ unfold pool_bounded. simpl. repeat split; auto;
            (destruct Hcase as [[Hfull _]|Hone]; [left; auto | right; lia]). }
      destruct (pages_crawled (engine p) <? max_pages (engine p)) eqn:Hlt.
      2:{ unfold pool_bounded. simpl. repeat split; auto;
            (destruct Hcase as [[Hfull _]|Hone]; [left; auto | right; lia]). }
      apply Z.ltb_lt in Hlt. rewrite Hmax in Hlt.
      destruct Hcase as [[Hfull _]|Hone]; [lia|].
      destruct (futures p) as [|f [|f' fs]] eqn:Hfut; simpl in Hone; try lia.
      { apply bool_decide_eq_true in Hfs. congruence. }
      simpl. destruct (future_done (jobs p) f).
      * unfold pool_bounded. cbn [engine at_main futures set_at_main].
        rewrite Hfut. repeat split; auto. right. split; [simpl; lia|].
        right. split; [exact Hlt|]. exists f. auto.
      * unfold pool_bounded. rewrite Hat, Hfut. repeat split; auto.
    + unfold pool_bounded. simpl. repeat split; auto;
        (destruct Hcase as [[Hfull _]|[Hone _]]; [left; auto | right; lia]).
    + destruct Hcase as [[_ []]|[_ [Hd|(Hlt & f & Hd & Hfut)]]]; [discriminate|].
      injection Hd as -> ->.
      set (p1 := set_futures _ (set_engine _ p)).
      assert (Hf1 : futures p1 = []).
      { subst p1. simpl. rewrite Hfut. simpl. rewrite Nat.eqb_refl. reflexivity. }
      assert (Hp1 : pages_crawled (engine p1) = pages_crawled (engine p) + 1)
        by reflexivity.
      assert (Hm1 : max_pages (engine p1) = B) by exact Hmax.
      destruct (bool_decide (queue (engine p1) ≠ [])).
      * destruct (dispatch_frame p1) as (Hp & Hm & _).
        pose proof (dispatch_futures_length p1) as Hlen. rewrite Hf1 in Hlen.
        unfold pool_bounded. cbn [engine at_main futures set_at_main].
        rewrite Hp, Hm, Hp1, Hm1. repeat split; auto; try lia;
          (right; split; [exact Hlen | left; reflexivity]).
      * unfold pool_bounded. cbn [engine at_main futures set_at_main].
        rewrite Hp1, Hm1, Hf1. repeat split; auto; try lia;
          (right; split; [simpl; lia | left; reflexivity]).
    + destruct (forallb job_finished (jobs p)).
      * unfold pool_bounded. simpl. repeat split; auto;
          (destruct Hcase as [[Hfull _]|Hone]; [left; auto | right; lia]).
      * unfold pool_bounded. rewrite Hat. auto.
    + unfold pool_bounded. rewrite Hat. auto.
  - destruct (worker_step_frame i p) as (Hp & Hm & Hf & Ha & _).
    unfold pool_bounded. rewrite Hp, Hm, Hf, Ha. auto.
Qed.

Lemma pool_start_bounded max_workers st :
  threaded_settled st -> pool_bounded (max_pages st) (start max_workers st).
Proof.
  intros (Hle & Hcase). unfold pool_bounded, start. simpl.
  repeat split; auto. destruct Hcase as [Hq|Hfull]; [right | left; split; [lia | exact I]].
  lia.
Qed.

(** From a settled engine the counter stays within the budget, whatever the
    schedule. *)
Lemma crawl_threaded_within_budget max_workers st tape :
  threaded_settled st ->
  pages_crawled (engine (steps tape (start max_workers st))) <= max_pages st.
Proof.
  intros Hst.
  apply (pool_steps_invariant (pool_bounded (max_pages st)) (pool_step_bounded _) tape
           _ (pool_start_bounded max_workers st Hst)).
Qed.

(** *** The pool at rest *)

Lemma worker_step_noop i p :
  jobs p !! i = None \/ jobs p !! i = Some Finished -> worker_step i p = p.
Proof. unfold worker_step. intros [->| ->]; reflexivity. Qed.

Lemma worker_step_jobs i p :
  exists j', jobs (worker_step i p) = <[ i := j' ]> (jobs p) /\
             (jobs p !! i = Some Finished -> j' = Finished).
Proof.
  unfold worker_step. destruct (jobs p !! i) as [[url|url [|href hrefs]|]|] eqn:Hi.
  - destruct (truthy (fetch url)); eexists; (split; [reflexivity | discriminate]).
  - eexists. split; [reflexivity | discriminate].
  - eexists. split; [reflexivity | discriminate].
  - exists Finished. split; [|reflexivity]. symmetry. apply list_insert_id, Hi.
  - exists Finished. split; [|reflexivity]. symmetry. apply list_insert_ge.
    apply lookup_ge_None, Hi.
Qed.

Lemma worker_step_queue i p :
  (forall j, jobs p !! i = Some j -> j = Finished) ->
  worker_step i p = p.
Proof.
  intros Hfin. apply worker_step_noop. destruct (jobs p !! i) as [j|] eqn:Hi;
    [right; rewrite (Hfin j eq_refl); reflexivity | left; reflexivity].
Qed.

(** Submitting a job keeps the pool's books on finished jobs. *)
Lemma dispatch_idles p :
  (forall i j, jobs p !! i = Some j -> ~ In i (futures p) -> j = Finished) ->
  (forall i j, jobs (dispatch p) !! i = Some j -> ~ In i (futures (dispatch p)) ->
               j = Finished) /\
  (forall fut, jobs p !! fut = Some Finished ->
               jobs (dispatch p) !! fut = Some Finished) /\
  (futures (dispatch p) = [] ->
   futures p = [] /\ queue (engine p) = [] /\ dispatch p = p).
Proof.
  intros Ha. unfold dispatch. destruct (queue (engine p)) as [|url rest] eqn:Hq.
  { repeat split; auto. }
  cbn [jobs futures]. repeat split.
  - intros i j Hi Hn. destruct (decide (i < List.length (jobs p))%nat) as [Hlt|Hge].
    + rewrite lookup_app_l in Hi by exact Hlt. apply (Ha i j Hi).
      intros Hin. apply Hn, in_or_app. left. exact Hin.
    + exfalso. apply Hn, in_or_app. right. left.
      apply lookup_lt_Some in Hi. rewrite length_app in Hi. simpl in Hi. lia.
  - intros fut Hf. apply lookup_app_l_Some. exact Hf.
  - destruct (futures p); discriminate.
  - destruct (futures p); discriminate.
  - destruct (futures p); discriminate.
Qed.

Lemma pool_step_idles c p : pool_idles p -> pool_idles (step c p).
Proof.
  intros (Ha & Hc & Hidle & Hd). destruct c as [|i]; simpl.
  - unfold main_step.
    destruct (at_main p) as [[|n]| |[|fut done]| |] eqn:Hat; cbv beta iota zeta.
    + (* kick-off over *)
      unfold pool_idles. cbn [jobs futures engine at_main set_at_main].
      repeat split; auto. intros Hf.
      destruct (Hidle Hf) as [Hq|(_ & m & Hm)]; [left; exact Hq | discriminate].
    + (* a kick-off round *)
      destruct (dispatch_idles p Ha) as (Ha' & _ & Hempty).
      unfold pool_idles. cbn [jobs futures engine at_main set_at_main].
      repeat split; auto. intros Hf.
      destruct (Hempty Hf) as (Hf0 & Hq & ->). left. exact Hq.
    + (* head of the loop *)
      destruct (bool_decide (futures p ≠ [])) eqn:Hfs; simpl.
      2:{ unfold pool_idles. cbn [jobs futures engine at_main set_at_main].
          apply bool_decide_eq_false in Hfs.
          repeat split; auto.
          - intros Hf. destruct (Hidle Hf) as [Hq|(_ & m & Hm)];
              [left; exact Hq | discriminate].
          - left. destruct (futures p); [reflexivity|].
            exfalso. apply Hfs. discriminate. }
      destruct (pages_crawled (engine p) <? max_pages (engine p)) eqn:Hlt.
      2:{ unfold pool_idles. cbn [jobs futures engine at_main set_at_main].
          apply Z.ltb_ge in Hlt. repeat split; auto.
          intros Hf. destruct (Hidle Hf) as [Hq|(_ & m & Hm)];
            [left; exact Hq | discriminate]. }
      assert (Hdone : forall fut,
                In fut (List.filter (future_done (jobs p)) (futures p)) ->
                jobs p !! fut = Some Finished).
      { intros fut Hin. apply List.filter_In in Hin as [_ Hfd].
        unfold future_done in Hfd.
        destruct (jobs p !! fut) as [[| |]|]; try discriminate. reflexivity. }
      revert Hdone.
      destruct (List.filter (future_done (jobs p)) (futures p)) as [|f fs];
        intros Hdone.
      { unfold pool_idles. rewrite Hat. auto. }
      unfold pool_idles. cbn [jobs futures engine at_main set_at_main].
      repeat split; auto. intros Hf.
      destruct (Hidle Hf) as [Hq|(_ & m & Hm)];
        [left; exact Hq | discriminate].
    + (* every handed-over future handled *)
      unfold pool_idles. cbn [jobs futures engine at_main set_at_main].
      repeat split; auto. intros Hf.
      destruct (Hidle Hf) as [Hq|(_ & m & Hm)];
        [left; exact Hq | discriminate].
    + (* one future handled *)
      set (p1 := set_futures _ (set_engine _ p)).
      assert (Ha1 : forall i j, jobs p1 !! i = Some j -> ~ In i (futures p1) ->
                                j = Finished).
      { intros i j Hi Hn. destruct (decide (i = fut)) as [->|Hne].
        - cbn [jobs p1 set_futures set_engine] in Hi.
          rewrite (Hc fut (or_introl eq_refl)) in Hi. congruence.
        - apply (Ha i j Hi). intros Hin. apply Hn.
          apply remove_first_other; assumption. }
      destruct (bool_decide (queue (engine p1) ≠ [])) eqn:Hq.
      * destruct (dispatch_idles p1 Ha1) as (Ha' & Hkeep & Hempty).
        unfold pool_idles. cbn [jobs futures engine at_main set_at_main].
        repeat split; auto.
        -- intros f Hf. apply Hkeep. apply Hc. right. exact Hf.
        -- intros Hf. destruct (Hempty Hf) as (_ & Hq0 & _).
           apply bool_decide_eq_true in Hq. contradiction.
      * apply bool_decide_eq_false in Hq.
        unfold pool_idles. cbn [jobs futures engine at_main set_at_main].
        repeat split; auto.
        -- intros f Hf. apply Hc. right. exact Hf.
        -- intros _. left. destruct (queue (engine p1)); [reflexivity|].
           exfalso. apply Hq. discriminate.
    + (* leaving the with block *)
      destruct (forallb job_finished (jobs p)).
      * unfold pool_idles. cbn [jobs futures engine at_main set_at_main].
        repeat split; auto. intros Hf.
        destruct (Hidle Hf) as [Hq|(_ & m & Hm)];
          [left; exact Hq | discriminate].
      * unfold pool_idles. rewrite Hat. auto.
    + unfold pool_idles. rewrite Hat. auto.
  - (* a pool thread moves *)
    destruct (List.in_dec Nat.eq_dec i (futures p)) as [Hin|Hout].
    2:{ rewrite worker_step_queue; [unfold pool_idles; auto|].
        intros j Hj. apply (Ha i j Hj Hout). }
    destruct (worker_step_frame i p) as (Hp & Hm & Hf & Hat & _).
    destruct (worker_step_jobs i p) as (j' & Hjobs & Hfin).
    unfold pool_idles. rewrite Hp, Hm, Hf, Hat, Hjobs. repeat split.
    + intros i0 j Hi0 Hn. apply list_lookup_insert_Some in Hi0
        as [(<- & _ & _)|(_ & Hi0)]; [contradiction | apply (Ha i0 j Hi0 Hn)].
    + destruct (at_main p); auto. intros fut Hfut. specialize (Hc fut Hfut).
      destruct (decide (i = fut)) as [->|Hne].
      * rewrite (Hfin Hc). apply list_lookup_insert_eq. eapply lookup_lt_Some, Hc.
      * rewrite list_lookup_insert_ne by exact Hne. exact Hc.
    + intros Hempty. rewrite Hempty in Hin. destruct Hin.
    + exact Hd.
Qed.

Lemma pool_start_idles max_workers st :
  0 < max_workers -> pool_idles (start max_workers st).
Proof.
  intros Hw. unfold pool_idles, start. cbn [jobs futures engine at_main].
  repeat split; auto.
  - intros i j Hi. rewrite lookup_nil in Hi. discriminate.
  - intros _. destruct (queue st) as [|url rest]; [left; reflexivity | right].
    split; [reflexivity|].
    exists (Nat.pred (Z.to_nat (Z.min (Z.of_nat (List.length (url :: rest))) max_workers))).
    f_equal. simpl List.length. lia.
Qed.

(** *** One GET per job *)

Lemma dispatch_unissued p : unissued (dispatch p) = unissued p.
Proof.
  unfold unissued, dispatch. destruct (queue (engine p)); simpl; [reflexivity|].
  rewrite List.filter_app, List.length_app. simpl. lia.
Qed.

Lemma step_unissued c p : unissued (step c p) = unissued p.
Proof.
  destruct c as [|i]; simpl.
  - unfold main_step.
    destruct (at_main p) as [[|n]| |[|fut done]| |]; cbv beta iota zeta;
      try reflexivity.
    + apply (dispatch_unissued p).
    + destruct (_ && _); [|reflexivity]. destruct (List.filter _ _); reflexivity.
    + set (p1 := set_futures _ (set_engine _ p)).
      destruct (bool_decide (queue (engine p1) ≠ []));
        [apply (dispatch_unissued p1) | reflexivity].
    + destruct (forallb job_finished (jobs p)); reflexivity.
  - unfold worker_step.
    destruct (jobs p !! i) as [[url|url [|href hrefs]|]|] eqn:Hi; try reflexivity.
    + assert (Hreq : forall html j,
                unissued (set_job i j (set_engine
                   (if truthy html then save_page (log_request url (engine p)) url html
                    else log_request url (engine p)) p))
                = unissued p + 1 - (if started j then 1 else 0)).
      { intros html j. unfold unissued. cbn [engine jobs set_job set_engine].
        pose proof (filter_insert_length started (jobs p) i (ToFetch url) j Hi) as Hc.
        assert (Hlen : List.length (requests
                   (if truthy html then save_page (log_request url (engine p)) url html
                    else log_request url (engine p)))
                 = S (List.length (requests (engine p)))).
        { destruct (truthy html).
          - destruct (SingleFacts.save_page_frame (log_request url (engine p)) url html)
              as (_ & _ & _ & _ & ->). simpl. rewrite List.length_app. simpl. lia.
          - simpl. rewrite List.length_app. simpl. lia. }
        rewrite Hlen. simpl in Hc. destruct (started j); lia. }
      destruct (truthy (fetch url)) eqn:Hhtml.
      * specialize (Hreq (fetch url) (ToParse url (find_all_a_href (fetch url)))).
        rewrite Hhtml in Hreq. rewrite Hreq. simpl. lia.
      * specialize (Hreq (fetch url) Finished).
        rewrite Hhtml in Hreq. rewrite Hreq. simpl. lia.
    + unfold unissued. cbn [engine jobs set_job set_engine].
      pose proof (filter_insert_length started (jobs p) i _ Finished Hi) as Hc.
      simpl in Hc. lia.
    + unfold unissued. cbn [engine jobs set_job set_engine].
      pose proof (filter_insert_length started (jobs p) i _ (ToParse url hrefs) Hi) as Hc.
      simpl in Hc.
      assert (Hr : requests (enqueue_link (engine p) href) = requests (engine p))
        by (unfold enqueue_link; destruct (_ && _); reflexivity).
      rewrite Hr. lia.
Qed.

Lemma finished_lookup (js : list job) i j :
  forallb job_finished js = true -> js !! i = Some j -> j = Finished.
Proof.
  revert i. induction js as [|x js IH]; intros [|i] Hall Hi; simpl in *;
    try discriminate; apply andb_prop in Hall as [Hx Hjs].
  - injection Hi as <-. destruct x; [discriminate.. | reflexivity].
  - eapply IH; eassumption.
Qed.

Lemma finished_all_started (js : list job) :
  forallb job_finished js = true -> List.filter started js = js.
Proof.
  induction js as [|x js IH]; simpl; [reflexivity|]. intros Hall.
  apply andb_prop in Hall as [Hx Hjs]. destruct x; try discriminate.
  simpl. rewrite IH by exact Hjs. reflexivity.
Qed.

(** When the call has returned, every job has finished. *)
Lemma step_returned_finished c p :
  (at_main p = Returned -> forallb job_finished (jobs p) = true) ->
  at_main (step c p) = Returned -> forallb job_finished (jobs (step c p)) = true.
Proof.
  intros Hinv. destruct c as [|i]; simpl.
  - unfold main_step.
    destruct (at_main p) as [[|n]| |[|fut done]| |] eqn:Hat; cbv beta iota zeta;
      cbn [at_main set_at_main]; try discriminate.
    + destruct (_ && _); [|discriminate].
      destruct (List.filter _ _); [rewrite Hat|]; discriminate.
    + destruct (forallb job_finished (jobs p)) eqn:Hall;
        [intros _; exact Hall | rewrite Hat; discriminate].
    + intros _. apply Hinv. reflexivity.
  - destruct (worker_step_frame i p) as (_ & _ & _ & Ha & _).
    rewrite Ha. intros Hret. specialize (Hinv Hret).
    unfold worker_step. destruct (jobs p !! i) as [j|] eqn:Hi; [|exact Hinv].
    rewrite (finished_lookup _ _ _ Hinv Hi). exact Hinv.
Qed.

(** *** Every call can return *)

Lemma caller_waits_refl p : caller_waits p p.
Proof. unfold caller_waits. auto 10. Qed.

Lemma caller_waits_trans p1 p2 p3 :
  caller_waits p1 p2 -> caller_waits p2 p3 -> caller_waits p1 p3.
Proof.
  intros (Ha & Hf & Hp & Hm & Hl & Hk) (Ha' & Hf' & Hp' & Hm' & Hl' & Hk').
  unfold caller_waits. repeat split; try congruence. auto.
Qed.

Lemma worker_step_waits i p : caller_waits p (worker_step i p).
Proof.
  destruct (worker_step_frame i p) as (Hp & Hm & Hf & Ha & Hl).
  destruct (worker_step_jobs i p) as (j' & Hjobs & Hfin).
  unfold caller_waits. repeat split; auto.
  intros k Hk. rewrite Hjobs. destruct (decide (i = k)) as [->|Hne].
  - rewrite (Hfin Hk). apply list_lookup_insert_eq. eapply lookup_lt_Some, Hk.
  - rewrite list_lookup_insert_ne by exact Hne. exact Hk.
Qed.

(** A pool thread inside the loop of [parse] gets to the end of its job. *)
Lemma parse_runs_out i url hrefs : forall p,
  jobs p !! i = Some (ToParse url hrefs) ->
  exists tape, caller_waits p (steps tape p) /\
               jobs (steps tape p) !! i = Some Finished.
Proof.
  induction hrefs as [|href hrefs IH]; intros p Hi.
  - exists [Worker i]. split; [apply worker_step_waits|].
    simpl. unfold worker_step. rewrite Hi. simpl.
    apply list_lookup_insert_eq. eapply lookup_lt_Some, Hi.
  - assert (Hnext : jobs (worker_step i p) !! i = Some (ToParse url hrefs)).
    { unfold worker_step. rewrite Hi. simpl.
      apply list_lookup_insert_eq. eapply lookup_lt_Some, Hi. }
    destruct (IH _ Hnext) as (tape & Hw & Hfin).
    exists (Worker i :: tape). split; [|exact Hfin].
    eapply caller_waits_trans; [apply (worker_step_waits i p) | exact Hw].
Qed.

(** Any pool thread gets to the end of its job. *)
Lemma worker_runs_out i p :
  is_Some (jobs p !! i) ->
  exists tape, caller_waits p (steps tape p) /\
               jobs (steps tape p) !! i = Some Finished.
Proof.
  intros [[url|url hrefs|] Hi].
  - destruct (truthy (fetch url)) eqn:Hhtml.
    + assert (Hnext : jobs (worker_step i p) !! i
                      = Some (ToParse url (find_all_a_href (fetch url)))).
      { unfold worker_step. rewrite Hi, Hhtml. simpl.
        apply list_lookup_insert_eq. eapply lookup_lt_Some, Hi. }
      destruct (parse_runs_out i _ _ _ Hnext) as (tape & Hw & Hfin).
      exists (Worker i :: tape). split; [|exact Hfin].
      eapply caller_waits_trans; [apply (worker_step_waits i p) | exact Hw].
    + exists [Worker i]. split; [apply worker_step_waits|].
      simpl. unfold worker_step. rewrite Hi, Hhtml. simpl.
      apply list_lookup_insert_eq. eapply lookup_lt_Some, Hi.
  - apply (parse_runs_out i url hrefs p Hi).
  - exists []. split; [apply caller_waits_refl | exact Hi].
Qed.

(** The pool threads can finish every job while the caller waits. *)
Lemma jobs_run_out p :
  exists tape, caller_waits p (steps tape p) /\
               forallb job_finished (jobs (steps tape p)) = true.
Proof.
  assert (Hupto : forall n, (n <= List.length (jobs p))%nat ->
            exists tape, caller_waits p (steps tape p) /\
              forall k, (k < n)%nat -> jobs (steps tape p) !! k = Some Finished).
  { induction n as [|n IH]; intros Hn.
    - exists []. split; [apply caller_waits_refl | intros k Hk; lia].
    - destruct IH as (tape1 & Hw1 & Hfin1); [lia|].
      set (p1 := steps tape1 p) in *.
      assert (Hlen : List.length (jobs p1) = List.length (jobs p))
        by (destruct Hw1 as (_ & _ & _ & _ & Hl & _); exact Hl).
      destruct (worker_runs_out n p1) as (tape2 & Hw2 & Hfin2).
      { apply lookup_lt_is_Some. lia. }
      exists (tape1 ++ tape2). rewrite pool_steps_app. fold p1.
      split; [eapply caller_waits_trans; eassumption|].
      intros k Hk. destruct (decide (k = n)) as [->|Hne]; [exact Hfin2|].
      destruct Hw2 as (_ & _ & _ & _ & _ & Hkeep). apply Hkeep, Hfin1. lia. }
  destruct (Hupto _ (le_n _)) as (tape & Hw & Hfin).
  exists tape. split; [exact Hw|].
  apply forallb_forall. intros j Hj. apply list_elem_of_In in Hj.
  apply list_elem_of_lookup in Hj as [k Hk].
  assert (Hlt : (k < List.length (jobs p))%nat).
  { destruct Hw as (_ & _ & _ & _ & <- & _). eapply lookup_lt_Some, Hk. }
  rewrite (Hfin k Hlt) in Hk. injection Hk as <-. reflexivity.
Qed.

(** The kick-off loop runs out. *)
Lemma kickoff_runs_out n : forall p,
  at_main p = Kickoff n -> exists tape, at_main (steps tape p) = Loop.
Proof.
  induction n as [|n IH]; intros p Hat.
  - exists [Main]. simpl. unfold main_step. rewrite Hat. reflexivity.
  - destruct (IH (main_step p)) as (tape & Hloop).
    { unfold main_step. rewrite Hat. reflexivity. }
    exists (Main :: tape). exact Hloop.
Qed.

(** The [for fut in done] loop runs out, one increment per future. *)
Lemma for_done_runs_out done : forall p,
  at_main p = ForDone done ->
  exists tape,
    at_main (steps tape p) = Loop /\
    pages_crawled (engine (steps tape p))
    = pages_crawled (engine p) + Z.of_nat (List.length done) /\
    max_pages (engine (steps tape p)) = max_pages (engine p).
Proof.
  induction done as [|fut done IH]; intros p Hat.
  - exists [Main]. simpl. unfold main_step. rewrite Hat. simpl. split; [reflexivity|].
    split; [lia | reflexivity].
  - assert (Hnext : at_main (main_step p) = ForDone done /\
                    pages_crawled (engine (main_step p)) = pages_crawled (engine p) + 1 /\
                    max_pages (engine (main_step p)) = max_pages (engine p)).
    { unfold main_step. rewrite Hat. cbv beta iota zeta.
      set (p1 := set_futures _ (set_engine _ p)).
      destruct (bool_decide (queue (engine p1) ≠ [])).
      - destruct (dispatch_frame p1) as (Hp & Hm & _).
        cbn [at_main engine set_at_main]. rewrite Hp, Hm. auto.
      - cbn [at_main engine set_at_main]. auto. }
    destruct Hnext as (Hat' & Hp' & Hm').
    destruct (IH _ Hat') as (tape & Hloop & Hp & Hm).
    exists (Main :: tape). rewrite pool_steps_cons. simpl step.
    split; [exact Hloop|]. split; [|congruence].
    rewrite Hp, Hp'. simpl List.length. lia.
Qed.

Lemma filter_all {A : Type} (f : A -> bool) (l : list A) :
  (forall x, In x l -> f x = true) -> List.filter f l = l.
Proof.
  induction l as [|x l IH]; intros Hall; simpl; [reflexivity|].
  rewrite (Hall x (or_introl eq_refl)), IH; [reflexivity|].
  intros y Hy. apply Hall. right. exact Hy.
Qed.

(** From the head of the [while] loop the call can return: each pass of the
    loop waits for every job and then raises the counter. *)
Lemma loop_runs_out entry m : forall p,
  pool_accounts entry p -> at_main p = Loop ->
  (Z.to_nat (max_pages (engine p) - pages_crawled (engine p)) <= m)%nat ->
  exists tape, at_main (steps tape p) = Returned.
Proof.
  induction m as [|m IH]; intros p Hacc Hat Hm.
  all: destruct (jobs_run_out p) as (tape1 & Hw & Hall).
  all: set (p1 := steps tape1 p) in *.
  all: assert (Hacc1 : pool_accounts entry p1)
         by (apply pool_steps_invariant; [apply step_accounts | exact Hacc]).
  all: destruct Hw as (Hat1 & Hf1 & Hp1 & Hm1 & _ & _); rewrite Hat in Hat1.
  all: assert (Hleave : bool_decide (futures p1 ≠ [])
                        && (pages_crawled (engine p1) <? max_pages (engine p1)) = false ->
                        exists tape, at_main (steps tape p) = Returned).
  1,3: intros Hguard; exists (tape1 ++ [Main; Main]);
       rewrite pool_steps_app; fold p1; simpl;
       unfold main_step at 2; rewrite Hat1, Hguard;
       unfold main_step; cbn [at_main jobs set_at_main]; rewrite Hall; reflexivity.
  all: destruct (bool_decide (futures p1 ≠ [])
                 && (pages_crawled (engine p1) <? max_pages (engine p1))) eqn:Hguard;
       [|apply Hleave; reflexivity].
  all: apply andb_prop in Hguard as [Hfs Hlt]; apply Z.ltb_lt in Hlt.
  - rewrite Hp1, Hm1 in Hlt. lia.
  - assert (Hdone : List.filter (future_done (jobs p1)) (futures p1) = futures p1).
    { apply filter_all. intros fut Hin. destruct Hacc1 as (_ & Hvalid & _).
      specialize (Hvalid fut Hin). apply lookup_lt_is_Some in Hvalid as [j Hj].
      unfold future_done. rewrite Hj.
      rewrite (finished_lookup _ _ _ Hall Hj). reflexivity. }
    assert (Hwait : at_main (main_step p1) = ForDone (futures p1) /\
                    engine (main_step p1) = engine p1).
    { unfold main_step. rewrite Hat1, Hfs.
      replace (pages_crawled (engine p1) <? max_pages (engine p1)) with true
        by (symmetry; apply Z.ltb_lt; exact Hlt).
      simpl. rewrite Hdone. apply bool_decide_eq_true in Hfs.
      destruct (futures p1); [contradiction | auto]. }
    destruct Hwait as (Hat2 & He2).
    destruct (for_done_runs_out _ _ Hat2) as (tape3 & Hat3 & Hp3 & Hm3).
    rewrite He2 in Hp3, Hm3.
    set (p3 := steps tape3 (main_step p1)) in *.
    assert (Hmore : (0 < List.length (futures p1))%nat).
    { apply bool_decide_eq_true in Hfs. destruct (futures p1);
        [contradiction | simpl; lia]. }
    destruct (IH p3) as (tape4 & Hret).
    + apply pool_steps_invariant; [apply step_accounts|].
      apply (step_accounts entry Main p1 Hacc1).
    + exact Hat3.
    + rewrite Hp3, Hm3. rewrite Hp1, Hm1 in *. lia.
    + exists (tape1 ++ Main :: tape3 ++ tape4).
      rewrite pool_steps_app. fold p1. rewrite pool_steps_cons. simpl step.
      rewrite pool_steps_app. fold p3. exact Hret.
Qed.

(** Under some schedule the pool brings any call to its return. *)
Lemma pool_can_return max_workers st :
  exists tape, at_main (steps tape (start max_workers st)) = Returned.
Proof.
  destruct (kickoff_runs_out _ (start max_workers st) eq_refl) as (tape1 & Hloop).
  set (p1 := steps tape1 (start max_workers st)) in *.
  destruct (loop_runs_out (pages_crawled st)
              (Z.to_nat (max_pages (engine p1) - pages_crawled (engine p1))) p1)
    as (tape2 & Hret).
  - apply pool_steps_invariant; [apply step_accounts | apply start_accounts].
  - exact Hloop.
  - lia.
  - exists (tape1 ++ tape2). rewrite pool_steps_app. exact Hret.
Qed.

Lemma pool_exec_reaches tape : forall p,
  at_main (steps tape p) = Returned ->
  exists p' rest, exec tape p = Return (p', rest).
Proof.
  induction tape as [|c tape IH]; intros p Hret; simpl.
  - simpl in Hret. unfold returned. rewrite Hret. eauto.
  - destruct (returned p); [eauto|]. apply IH. exact Hret.
Qed.

(** *** The seen-set in the pool *)





End WithWeb.
End PoolFacts.

(** ** The event loop *)

Module LoopFacts.
Import AsyncCrawler.

Section WithWeb.
Context `{Web}.

Lemma loop_steps_cons c tape l : steps (c :: tape) l = steps tape (step c l).
Proof. reflexivity. Qed.

Lemma loop_steps_app tape1 tape2 l :
  steps (tape1 ++ tape2) l = steps tape2 (steps tape1 l).
Proof. unfold steps. apply fold_left_app. Qed.

Lemma loop_steps_invariant (Inv : loop -> Prop) :
  (forall c l, Inv l -> Inv (step c l)) ->
  forall tape l, Inv l -> Inv (steps tape l).
Proof.
  intros Hstep tape. induction tape as [|c tape IH]; intros l Hl; [exact Hl|].
  rewrite loop_steps_cons. apply IH, Hstep, Hl.
Qed.

Lemma loop_exec_steps tape : forall l l' rest,
  exec tape l = Return (l', rest) ->
  exists used, tape = used ++ rest /\ l' = steps used l /\ gathered l' = true.
Proof.
  induction tape as [|c tape IH]; intros l l' rest; simpl.
  - destruct (gathered l) eqn:Hg; [|discriminate]. intros [= <- <-].
    exists []. auto.
  - destruct (gathered l) eqn:Hg.
    + intros [= <- <-]. exists []. auto.
    + intros Hrun. destruct (IH _ _ _ Hrun) as (used & -> & -> & Hret).
      exists (c :: used). auto.
Qed.

Lemma enqueue_link_frame url st a_href :
  pages (enqueue_link url st a_href) = pages st /\
  max_pages (enqueue_link url st a_href) = max_pages st /\
  requests (enqueue_link url st a_href) = requests st.
Proof. unfold enqueue_link. destruct (_ && _); simpl; auto. Qed.

Lemma parse_frame st url html :
  pages (parse st url html) = pages st /\
  max_pages (parse st url html) = max_pages st /\
  requests (parse st url html) = requests st.
Proof.
  unfold parse. revert st.
  induction (find_all_a_href html) as [|h l IH]; intros st; simpl; [auto|].
  destruct (IH (enqueue_link url st h)) as (-> & -> & ->).
  apply enqueue_link_frame.
Qed.

(** Taking a slot, or queueing for one, puts the task in flight and leaves
    queue, counter and ready queue alone. *)
Lemma acquire_spec i url l :
  exists k, in_flight k = true /\
    tasks (acquire i url l) = <[ i := k ]> (tasks l) /\
    ready (acquire i url l) = ready l /\
    queue (crawler (acquire i url l)) = queue (crawler l) /\
    visited (crawler (acquire i url l)) = visited (crawler l) /\
    pages (crawler (acquire i url l)) = pages (crawler l) /\
    max_pages (crawler (acquire i url l)) = max_pages (crawler l).
Proof.
  unfold acquire. destruct (_ && _).
  - exists (Fetching url). simpl. auto 10.
  - exists (Acquiring url). simpl. auto 10.
Qed.

Lemma release_spec l :
  crawler (release l) = crawler l /\ tasks (release l) = tasks l /\
  exists woken, ready (release l) = ready l ++ woken.
Proof.
  unfold release. destruct (waiters l) as [|j ws]; simpl; repeat split; auto.
  - exists []. rewrite app_nil_r. reflexivity.
  - exists [j]. reflexivity.
Qed.

(** The two ways through the head of the [while] loop of [worker]. *)
Lemma enter_spec i l :
  (pages (crawler l) < max_pages (crawler l) /\
   exists url rest k,
     queue (crawler l) = url :: rest /\ in_flight k = true /\
     tasks (enter i l) = <[ i := k ]> (tasks l) /\
     ready (enter i l) = ready l /\
     queue (crawler (enter i l)) = rest /\
     visited (crawler (enter i l)) = {[ url ]} ∪ visited (crawler l) /\
     pages (crawler (enter i l)) = pages (crawler l) /\
     max_pages (crawler (enter i l)) = max_pages (crawler l)) \/
  ((max_pages (crawler l) <= pages (crawler l) \/ queue (crawler l) = []) /\
   enter i l = set_task i Exited l).
Proof.
  unfold enter.
  destruct (pages (crawler l) <? max_pages (crawler l)) eqn:Hlt; simpl.
  2:{ right. apply Z.ltb_ge in Hlt. auto. }
  apply Z.ltb_lt in Hlt.
  destruct (queue (crawler l)) as [|url rest] eqn:Hq.
  { right. rewrite bool_decide_eq_false_2; [auto | intros Hn; apply Hn; reflexivity]. }
  rewrite bool_decide_eq_true_2 by discriminate.
  left. split; [exact Hlt|].
  destruct (acquire_spec i url
              (set_crawler (add_visited url (set_queue rest (crawler l))) l))
    as (k & Hk & Ht & Hr & Hqueue & Hv & Hp & Hm).
  exists url, rest, k. rewrite Ht, Hr, Hqueue, Hv, Hp, Hm. simpl. auto 10.
Qed.

Lemma loop_bounded_intro B l fl pre post :
  max_pages (crawler l) = B ->
  pages (crawler l) <= B ->
  ready l = pre ++ post ->
  NoDup pre ->
  (forall j, j ∈ pre <-> tasks l !! j = Some Created) ->
  (forall i k, tasks l !! i = Some k -> in_flight k = true -> fl = Some i) ->
  match fl with
  | Some h => pages (crawler l) < B /\ (pre <> [] -> queue (crawler l) = []) /\
              (exists k, tasks l !! h = Some k /\ in_flight k = true)
  | None => (List.length (queue (crawler l)) <= 1)%nat \/ B <= pages (crawler l)
  end ->
  loop_bounded B l.
Proof. intros. unfold loop_bounded. eauto 10. Qed.

(** The tasks still to run once task [h], first in line, has run. *)
Lemma created_after h k (ts : list task) pre' :
  k <> Created -> h ∉ pre' ->
  (forall j, j ∈ h :: pre' <-> ts !! j = Some Created) ->
  forall j, j ∈ pre' <-> <[ h := k ]> ts !! j = Some Created.
Proof.
  intros Hk Hh Hc j. rewrite list_lookup_insert_Some. split.
  - intros Hj. right. split; [intros ->; contradiction|].
    apply Hc. apply elem_of_cons. right. exact Hj.
  - intros [(_ & Hk' & _)|(Hne & Hl)]; [congruence|].
    apply Hc in Hl. apply elem_of_cons in Hl as [->|Hl]; [contradiction | exact Hl].
Qed.

Lemma created_none h k (ts : list task) :
  k <> Created ->
  (forall j, j ∈ [] <-> ts !! j = Some Created) ->
  forall j, j ∈ [] <-> <[ h := k ]> ts !! j = Some Created.
Proof.
  intros Hk Hc j. rewrite list_lookup_insert_Some. split.
  - intros Hj. apply elem_of_nil in Hj. contradiction.
  - intros [(_ & Hk' & _)|(Hne & Hl)]; [congruence | apply Hc, Hl].
Qed.

Lemma in_flight_not_created k : in_flight k = true -> k <> Created.
Proof. intros Hk ->. discriminate. Qed.

Lemma loop_step_bounded B c l : loop_bounded B l -> loop_bounded B (step c l).
Proof.
  intros Hinv.
  pose proof Hinv
    as (Hmax & Hle & fl & pre & post & Hready & Hnd & Hcreated & Hfl & Hcase).
  destruct c as [|a]; simpl.
  2:{ (* a reply arrives *)
      destruct (tasks l !! a) as [[| | |]|]; try exact Hinv.
      destruct (bool_decide (a ∈ ready l)); [exact Hinv|].
      apply (loop_bounded_intro B _ fl pre (post ++ [a])); auto.
      simpl. rewrite Hready, app_assoc. reflexivity. }
  destruct (ready l) as [|h r] eqn:Hr; [exact Hinv|].
  unfold run_task. cbn [tasks set_ready].
  destruct pre as [|h' pre'].
  - (* every task has had its first run *)
    simpl in Hready. subst post.
    destruct (tasks l !! h) as [[|url|url|]|] eqn:Hh.
    + apply Hcreated in Hh. apply elem_of_nil in Hh. contradiction.
    + assert (Hfl_h : fl = Some h) by (eapply Hfl; [exact Hh | reflexivity]).
      subst fl. destruct Hcase as (Hlt & Hempty & _).
      apply (loop_bounded_intro B _ (Some h) [] r); auto.
      * apply created_none; [discriminate | exact Hcreated].
      * simpl. intros i k Hi Hk.
        apply list_lookup_insert_Some in Hi as [(<- & _ & _)|(_ & Hi)];
          [reflexivity | eapply Hfl; eassumption].
      * split; [exact Hlt|]. split; [exact Hempty|].
        exists (Fetching url). split; [|reflexivity]. simpl.
        apply list_lookup_insert_eq. eapply lookup_lt_Some, Hh.
    + assert (Hfl_h : fl = Some h) by (eapply Hfl; [exact Hh | reflexivity]).
      subst fl. destruct Hcase as (Hlt & _ & _).
      unfold resume.
      destruct (release_spec (set_ready r l)) as (Hrc & Hrt & woken & Hrr).
      set (l2 := release (set_ready r l)) in *.
      set (st2 := set_pages _ _).
      assert (Hp2 : pages st2 = pages (crawler l) + 1).
      { subst st2. simpl. rewrite Hrc. simpl.
        destruct (truthy (fetch url)); [|reflexivity].
        destruct (parse_frame (crawler l) url (fetch url)) as (-> & _). reflexivity. }
      assert (Hm2 : max_pages st2 = B).
      { subst st2. simpl. rewrite Hrc. simpl.
        destruct (truthy (fetch url)); [|exact Hmax].
        destruct (parse_frame (crawler l) url (fetch url)) as (_ & -> & _). exact Hmax. }
      destruct (enter_spec h (set_crawler st2 l2))
        as [(Hlt' & u & rest & k & _ & Hk & Ht & Hrd & _ & _ & Hp & Hm)|(Hstop & ->)].
      * cbn [crawler tasks ready set_crawler] in Hlt', Ht, Hrd, Hp, Hm.
        apply (loop_bounded_intro B _ (Some h) [] (r ++ woken)).
        -- rewrite Hm. exact Hm2.
        -- rewrite Hp, Hp2. lia.
        -- rewrite Hrd, Hrr. reflexivity.
        -- constructor.
        -- rewrite Ht, Hrt. apply created_none;
             [apply in_flight_not_created, Hk | exact Hcreated].
        -- rewrite Ht, Hrt. intros i k' Hi Hk'.
           apply list_lookup_insert_Some in Hi as [(<- & _ & _)|(_ & Hi)];
             [reflexivity | eapply Hfl; eassumption].
        -- rewrite Hp, Hp2. rewrite Hm2, Hp2 in Hlt'.
           split; [lia|]. split; [congruence|].
           exists k. split; [|exact Hk]. rewrite Ht, Hrt.
           apply list_lookup_insert_eq. eapply lookup_lt_Some, Hh.
      * cbn [crawler set_crawler] in Hstop.
        apply (loop_bounded_intro B _ None [] (r ++ woken)).
        -- exact Hm2.
        -- cbn [crawler set_task set_crawler]. rewrite Hp2. lia.
        -- exact Hrr.
        -- constructor.
        -- cbn [tasks set_task set_crawler]. rewrite Hrt.
           apply created_none; [discriminate | exact Hcreated].
        -- cbn [tasks set_task set_crawler]. rewrite Hrt. intros i k' Hi Hk'.
           apply list_lookup_insert_Some in Hi as [(<- & <- & _)|(Hne & Hi)];
             [discriminate|].
           specialize (Hfl i k' Hi Hk'). congruence.
        -- cbn [crawler set_task set_crawler]. rewrite Hm2 in Hstop.
           destruct Hstop as [Hfull|Hempty]; [right; exact Hfull|].
           left. rewrite Hempty. simpl. lia.
    + apply (loop_bounded_intro B _ fl [] r); auto.
    + apply (loop_bounded_intro B _ fl [] r); auto.
  - (* task [h] has its first run *)
    simpl in Hready. injection Hready as <- ->.
    assert (Hh : tasks l !! h = Some Created)
      by (apply Hcreated, elem_of_cons; left; reflexivity).
    rewrite Hh. apply NoDup_cons in Hnd as [Hh' Hnd'].
    destruct (enter_spec h (set_ready (pre' ++ post) l))
      as [(Hlt & u & rest & k & Hq & Hk & Ht & Hrd & Hq' & _ & Hp & Hm)|(_ & ->)].
    + simpl in Hlt, Hq, Ht, Hrd, Hp, Hm.
      assert (Hnone : fl = None).
      { destruct fl; [|reflexivity]. destruct Hcase as (_ & Hempty & _).
        rewrite Hempty in Hq by discriminate. discriminate. }
      subst fl.
      assert (Hrest : rest = []).
      { destruct Hcase as [Hone|Hfull]; [|lia].
        rewrite Hq in Hone. destruct rest; [reflexivity | simpl in Hone; lia]. }
      apply (loop_bounded_intro B _ (Some h) pre' post).
      * rewrite Hm. exact Hmax.
      * rewrite Hp. exact Hle.
      * exact Hrd.
      * exact Hnd'.
      * rewrite Ht. apply created_after;
          [apply in_flight_not_created, Hk | exact Hh' | exact Hcreated].
      * rewrite Ht. intros i k' Hi Hk'.
        apply list_lookup_insert_Some in Hi as [(<- & _ & _)|(_ & Hi)];
          [reflexivity|]. specialize (Hfl i k' Hi Hk'). discriminate.
      * rewrite Hp, Hq'. split; [lia|]. split; [intros _; exact Hrest|].
        exists k. split; [|exact Hk]. rewrite Ht.
        apply list_lookup_insert_eq. eapply lookup_lt_Some, Hh.
    + apply (loop_bounded_intro B _ fl pre' post); auto.
      * simpl. apply created_after; [discriminate | exact Hh' | exact Hcreated].
      * simpl. intros i k' Hi Hk'.
        apply list_lookup_insert_Some in Hi as [(_ & <- & _)|(_ & Hi)];
          [discriminate | eapply Hfl; eassumption].
      * simpl. destruct fl as [h0|]; [|exact Hcase].
        destruct Hcase as (Hlt & Hempty & k & Hk0 & Hk).
        split; [exact Hlt|]. split; [intros _; apply Hempty; discriminate|].
        exists k. split; [|exact Hk].
        rewrite list_lookup_insert_ne; [exact Hk0|].
        intros <-. rewrite Hh in Hk0. injection Hk0 as <-. discriminate.
Qed.

Lemma loop_start_bounded concurrency st :
  async_settled st -> loop_bounded (max_pages st) (start concurrency st).
Proof.
  intros (Hle & Hcase).
  apply (loop_bounded_intro _ _ None (seq 0 (Z.to_nat concurrency)) []); simpl; auto.
  - rewrite app_nil_r. reflexivity.
  - apply NoDup_seq.
  - intros j. rewrite elem_of_seq, lookup_replicate. split; [intros; split; [reflexivity | lia] | intros [_ ?]; lia].
  - intros i k Hi Hk. apply lookup_replicate in Hi as [-> _]. discriminate.
Qed.

(** From a settled engine the counter stays within the budget, whatever the
    schedule. *)
Lemma crawl_within_budget concurrency st tape :
  async_settled st ->
  pages (crawler (steps tape (start concurrency st))) <= max_pages st.
Proof.
  intros Hst.
  apply (loop_steps_invariant (loop_bounded (max_pages st)) (loop_step_bounded _) tape
           _ (loop_start_bounded concurrency st Hst)).
Qed.

(** *** Every round counts *)











(** *** Every call can return *)

Lemma fetching_set_task h k k' l :
  tasks l !! h = Some k ->
  (fetching (set_task h k' l) + (if is_fetching k then 1 else 0)
   = fetching l + (if is_fetching k' then 1 else 0))%nat.
Proof. intros Hh. apply (filter_insert_length is_fetching (tasks l) h k k' Hh). Qed.

Lemma live_set_task h k k' l :
  tasks l !! h = Some k ->
  (live (set_task h k' l) + (if negb (task_exited k) then 1 else 0)
   = live l + (if negb (task_exited k') then 1 else 0))%nat.
Proof.
  intros Hh.
  apply (filter_insert_length (fun k => negb (task_exited k)) (tasks l) h k k' Hh).
Qed.

Lemma fetching_bound l : (fetching l <= List.length (tasks l))%nat.
Proof. apply List.filter_length_le. Qed.

Lemma fetching_bound_other h k l :
  tasks l !! h = Some k -> is_fetching k = false ->
  (fetching l < List.length (tasks l))%nat.
Proof.
  intros Hh Hk. pose proof (fetching_set_task h k (Fetching "") l Hh) as Hc.
  pose proof (fetching_bound (set_task h (Fetching "") l)) as Hb.
  rewrite Hk in Hc. simpl in Hc, Hb. rewrite length_insert in Hb. lia.
Qed.

(** With a free slot and nobody waiting, the head of the [while] loop either
    leaves the loop or sends the GET for the URL it pops. *)
Lemma enter_flows i l :
  0 < sem l -> waiters l = [] ->
  ((max_pages (crawler l) <= pages (crawler l) \/ queue (crawler l) = []) /\
   enter i l = set_task i Exited l) \/
  (exists url rest,
     queue (crawler l) = url :: rest /\
     pages (crawler l) < max_pages (crawler l) /\
     enter i l =
       begin_fetch i url
         (mk_loop (add_visited url (set_queue rest (crawler l)))
                  (tasks l) (ready l) (sem l - 1) (waiters l))).
Proof.
  intros Hsem Hw. unfold enter.
  destruct (pages (crawler l) <? max_pages (crawler l)) eqn:Hlt; simpl.
  2:{ left. apply Z.ltb_ge in Hlt. auto. }
  apply Z.ltb_lt in Hlt.
  destruct (queue (crawler l)) as [|url rest] eqn:Hq.
  { left. rewrite bool_decide_eq_false_2; [auto | intros Hn; apply Hn; reflexivity]. }
  rewrite bool_decide_eq_true_2 by discriminate.
  right. exists url, rest. split; [reflexivity|]. split; [exact Hlt|].
  unfold acquire. cbn [sem waiters set_crawler]. rewrite Hw.
  replace (0 <? sem l) with true by (symmetry; apply Z.ltb_lt; exact Hsem).
  reflexivity.
Qed.

Lemma created_in_rest (ts ts' : list task) h r :
  (forall j, ts !! j = Some Created -> In j (h :: r)) ->
  (forall j, ts' !! j = Some Created -> j <> h /\ ts !! j = Some Created) ->
  forall j, ts' !! j = Some Created -> In j r.
Proof.
  intros Hin Hsame j Hj. destruct (Hsame j Hj) as [Hne Hold].
  destruct (Hin j Hold) as [->|Hr]; [contradiction | exact Hr].
Qed.

Lemma insert_created (ts : list task) h k j :
  k <> Created -> <[ h := k ]> ts !! j = Some Created ->
  j <> h /\ ts !! j = Some Created.
Proof.
  intros Hk Hj. apply list_lookup_insert_Some in Hj as [(_ & Hk' & _)|(Hne & Hj)];
    [congruence | auto].
Qed.

Lemma insert_not_acquiring (ts : list task) h k :
  (forall url, k <> Acquiring url) ->
  (forall i url, ts !! i <> Some (Acquiring url)) ->
  forall i url, <[ h := k ]> ts !! i <> Some (Acquiring url).
Proof.
  intros Hk Hts i url Hi.
  apply list_lookup_insert_Some in Hi as [(_ & Hk' & _)|(_ & Hi)];
    [eapply Hk; eassumption | eapply Hts; eassumption].
Qed.

(** The event loop runs the task at the head of the ready queue. *)
Lemma run_head_flows c l h r :
  loop_flows c l -> ready l = h :: r ->
  loop_flows c (step Run l) /\ ready (step Run l) = r /\
  (rounds_left (step Run l) <= rounds_left l)%nat /\
  (forall url, tasks l !! h = Some (Fetching url) ->
               (rounds_left (step Run l) < rounds_left l)%nat).
Proof.
  intros (Hlen & Hw & Hacq & Hsem & Hcr) Hr. simpl. rewrite Hr.
  rewrite Hr in Hcr.
  unfold run_task. cbn [tasks set_ready].
  destruct (tasks l !! h) as [[|url|url|]|] eqn:Hh.
  - (* first run of a worker *)
    pose proof (fetching_bound_other h Created l Hh eq_refl) as Hfb.
    destruct (enter_flows h (set_ready r l)) as [(_ & ->)|(url & rest & _ & _ & ->)].
    { cbn [sem set_ready]. lia. }
    { exact Hw. }
    + pose proof (fetching_set_task h Created Exited l Hh) as Hf.
      pose proof (live_set_task h Created Exited l Hh) as Hl. simpl in Hf, Hl.
      repeat split.
      * simpl. rewrite length_insert. exact Hlen.
      * exact Hw.
      * apply insert_not_acquiring; [discriminate | exact Hacq].
      * unfold fetching in *. simpl in *. lia.
      * simpl. eapply created_in_rest; [exact Hcr|].
        intros j. apply insert_created. discriminate.
      * unfold rounds_left, live in *. simpl in *. lia.
      * intros url' [=].
    + pose proof (fetching_set_task h Created (Fetching url) l Hh) as Hf.
      pose proof (live_set_task h Created (Fetching url) l Hh) as Hl. simpl in Hf, Hl.
      repeat split.
      * simpl. rewrite length_insert. exact Hlen.
      * exact Hw.
      * apply insert_not_acquiring; [discriminate | exact Hacq].
      * unfold fetching in *. simpl in *. lia.
      * simpl. eapply created_in_rest; [exact Hcr|].
        intros j. apply insert_created. discriminate.
      * unfold rounds_left, live in *. simpl in *. lia.
      * intros url' [=].
  - exfalso. eapply Hacq, Hh.
  - (* the rest of a round *)
    pose proof (fetching_bound l) as Hfb.
    assert (Hrel : release (set_ready r l)
                   = mk_loop (crawler l) (tasks l) r (sem l + 1) [])
      by (unfold release; cbn [waiters set_ready]; rewrite Hw; reflexivity).
    unfold resume. rewrite Hrel. cbn [crawler].
    set (st2 := set_pages _ _).
    assert (Hp2 : pages st2 = pages (crawler l) + 1 /\
                  max_pages st2 = max_pages (crawler l)).
    { subst st2. simpl. destruct (truthy (fetch url)); [|auto].
      destruct (parse_frame (crawler l) url (fetch url)) as (-> & -> & _). auto. }
    destruct Hp2 as (Hp2 & Hm2).
    match goal with
    | |- context [enter h ?l3] =>
        destruct (enter_flows h l3) as [(Hstop & ->)|(u & rest & _ & Hgo & ->)]
    end.
    { cbn [sem set_crawler]. lia. }
    { reflexivity. }
    + cbn [crawler set_crawler] in Hstop.
      pose proof (fetching_set_task h (Fetching url) Exited l Hh) as Hf.
      pose proof (live_set_task h (Fetching url) Exited l Hh) as Hl. simpl in Hf, Hl.
      assert (Hround : (Z.to_nat (max_pages st2 - pages st2) + live (set_task h Exited l)
                        < rounds_left l)%nat).
      { unfold rounds_left. rewrite Hp2, Hm2. unfold live in *. simpl in *. lia. }
      repeat split.
      * simpl. rewrite length_insert. exact Hlen.
      * apply insert_not_acquiring; [discriminate | exact Hacq].
      * unfold fetching in *. simpl in *. lia.
      * simpl. eapply created_in_rest; [exact Hcr|].
        intros j. apply insert_created. discriminate.
      * unfold rounds_left, live in *. simpl in *. lia.
      * intros _ _. unfold rounds_left, live in *. simpl in *. lia.
    + cbn [crawler set_crawler] in Hgo.
      pose proof (fetching_set_task h (Fetching url) (Fetching u) l Hh) as Hf.
      pose proof (live_set_task h (Fetching url) (Fetching u) l Hh) as Hl.
      simpl in Hf, Hl.
      assert (Hround : (Z.to_nat (max_pages st2 - pages st2) + live (set_task h (Fetching u) l)
                        < rounds_left l)%nat).
      { unfold rounds_left. rewrite Hp2, Hm2. rewrite Hp2, Hm2 in Hgo.
        unfold live in *. simpl in *. lia. }
      repeat split.
      * simpl. rewrite length_insert. exact Hlen.
      * apply insert_not_acquiring; [discriminate | exact Hacq].
      * unfold fetching in *. simpl in *. lia.
      * simpl. eapply created_in_rest; [exact Hcr|].
        intros j. apply insert_created. discriminate.
      * unfold rounds_left, live in *. simpl in *. lia.
      * intros _ _. unfold rounds_left, live in *. simpl in *. lia.
  - repeat split; auto.
    + simpl. intros j Hj. destruct (Hcr j Hj) as [->|Hin]; [congruence | exact Hin].
    + intros url [=].
  - repeat split; auto.
    + simpl. intros j Hj. destruct (Hcr j Hj) as [->|Hin]; [congruence | exact Hin].
    + intros url [=].
Qed.

(** The event loop can run until nothing is ready. *)
Lemma ready_runs_out c n : forall l,
  List.length (ready l) = n -> loop_flows c l ->
  exists tape,
    loop_flows c (steps tape l) /\ ready (steps tape l) = [] /\
    (rounds_left (steps tape l) <= rounds_left l)%nat.
Proof.
  induction n as [|n IH]; intros l Hn Hflows.
  - exists []. simpl. destruct (ready l); [auto | discriminate].
  - destruct (ready l) as [|h r] eqn:Hr; [discriminate|].
    destruct (run_head_flows c l h r Hflows Hr) as (Hf' & Hr' & Hle & _).
    destruct (IH (step Run l)) as (tape & Hf'' & Hr'' & Hle'');
      [rewrite Hr'; simpl in Hn; lia | exact Hf' |].
    exists (Run :: tape). rewrite loop_steps_cons.
    split; [exact Hf''|]. split; [exact Hr''|]. lia.
Qed.

Lemma not_gathered (ts : list task) :
  forallb task_exited ts = false ->
  exists h k, ts !! h = Some k /\ task_exited k = false.
Proof.
  induction ts as [|k ts IH]; simpl; [discriminate|].
  destruct (task_exited k) eqn:Hk; simpl.
  - intros Hts. destruct (IH Hts) as (h & k' & Hh & Hk').
    exists (S h), k'. auto.
  - intros _. exists 0%nat, k. auto.
Qed.

(** Under some schedule every worker leaves its loop. *)
Lemma tasks_run_out c m : forall l,
  (rounds_left l <= m)%nat -> loop_flows c l ->
  exists tape, gathered (steps tape l) = true.
Proof.
  induction m as [|m IH]; intros l Hm Hflows.
  all: destruct (ready_runs_out c _ l eq_refl Hflows) as (tape1 & Hf1 & Hr1 & Hle1).
  all: set (l1 := steps tape1 l) in *.
  all: destruct (gathered l1) eqn:Hall; [exists tape1; exact Hall|].
  all: destruct (not_gathered _ Hall) as (h & k & Hh & Hk).
  all: assert (Hfetch : exists url, k = Fetching url).
  1,3: destruct Hf1 as (_ & _ & Hacq & _ & Hcr); destruct k as [|url|url|];
       [ apply Hcr in Hh; rewrite Hr1 in Hh; destruct Hh
       | exfalso; eapply Hacq, Hh
       | eauto
       | discriminate ].
  all: destruct Hfetch as (url & ->).
  all: assert (Harrive : step (Arrive h) l1 = set_ready [h] l1)
         by (simpl; rewrite Hh, Hr1; reflexivity).
  all: assert (Hf2 : loop_flows c (set_ready [h] l1)).
  1,3: destruct Hf1 as (Hlen & Hw & Hacq & Hsem & Hcr); repeat split; auto;
       intros j Hj; apply Hcr in Hj; rewrite Hr1 in Hj; destruct Hj.
  all: destruct (run_head_flows c (set_ready [h] l1) h [] Hf2 eq_refl)
         as (Hf3 & _ & _ & Hlt).
  all: specialize (Hlt url Hh).
  all: change (rounds_left (set_ready [h] l1)) with (rounds_left l1) in Hlt.
  - lia.
  - destruct (IH (step Run (set_ready [h] l1))) as (tape3 & Hdone);
      [lia | exact Hf3 |].
    exists (tape1 ++ Arrive h :: Run :: tape3).
    rewrite loop_steps_app. fold l1. rewrite !loop_steps_cons, Harrive.
    exact Hdone.
Qed.

Lemma start_flows concurrency st :
  0 <= concurrency -> loop_flows concurrency (start concurrency st).
Proof.
  intros Hc. unfold loop_flows, start. cbn [tasks waiters sem ready].
  assert (Hnone : fetching (start concurrency st) = 0%nat).
  { unfold fetching, start. simpl.
    induction (Z.to_nat concurrency) as [|n IH]; simpl; [reflexivity | exact IH]. }
  repeat split.
  - rewrite length_replicate. lia.
  - intros i url Hi. apply lookup_replicate in Hi as [[=] _].
  - unfold fetching, start in Hnone. simpl in Hnone. unfold fetching. simpl.
    rewrite Hnone. lia.
  - intros j Hj. apply lookup_replicate in Hj as [_ Hlt].
    apply in_seq. lia.
Qed.

(** Under some schedule the event loop brings any call to its return. *)
Lemma loop_can_return concurrency st :
  0 <= concurrency ->
  exists tape, gathered (steps tape (start concurrency st)) = true.
Proof.
  intros Hc. apply (tasks_run_out concurrency _ _ (le_n _)), start_flows, Hc.
Qed.

Lemma loop_exec_reaches tape : forall l,
  gathered (steps tape l) = true ->
  exists l' rest, exec tape l = Return (l', rest).
Proof.
  induction tape as [|c tape IH]; intros l Hall; simpl.
  - simpl in Hall. rewrite Hall. eauto.
  - destruct (gathered l); [eauto|]. apply IH. exact Hall.
Qed.

(** *** The seen-set in the event loop *)







End WithWeb.
End LoopFacts.

(** ** The benchmark runner *)

Section RunnerFacts.
Context `{Web}.

Lemma time_fn_loop_chained {S R : Type} (fn : S -> result (R * S)) n :
  forall acc s obs s',
  time_fn_loop (observe fn) n acc s = Return (obs, s') ->
  exists new, obs = acc ++ new /\ chained fn s new s' /\ List.length new = n.
Proof.
  induction n as [|n IH]; intros acc s obs s'; simpl.
  - intros [= <- <-]. exists []. rewrite app_nil_r. repeat split. constructor.
  - unfold observe at 1. destruct (fn s) as [[r s1]| |] eqn:Hfn; try discriminate.
    intros Hrun. destruct (IH _ _ _ _ Hrun) as (new & -> & Hch & Hlen).
    exists ((s, r) :: new). rewrite <- app_assoc. repeat split.
    + econstructor; eassumption.
    + simpl. rewrite Hlen. reflexivity.
Qed.

Lemma crawl_single_idempotent st :
  ThreadedCrawler.crawl_single (ThreadedCrawler.crawl_single st)
  = ThreadedCrawler.crawl_single st.
Proof.
  rewrite (SingleFacts.crawl_single_unfold (ThreadedCrawler.crawl_single st)).
  rewrite SingleFacts.crawl_single_guard. reflexivity.
Qed.

(** Calls of [crawl_single] on an engine that a call has returned. *)
Lemma time_fn_loop_returned n : forall acc st tape,
  time_fn_loop (observe single_thread) n acc
    (ThreadedCrawler.crawl_single st, tape)
  = Return (acc ++ replicate n ((ThreadedCrawler.crawl_single st, tape), tt),
            (ThreadedCrawler.crawl_single st, tape)).
Proof.
  induction n as [|n IH]; intros acc st tape; simpl.
  - rewrite app_nil_r. reflexivity.
  - rewrite crawl_single_idempotent, IH, <- app_assoc. reflexivity.
Qed.

Lemma time_fn_single_thread n st tape :
  time_fn_loop (observe single_thread) (S n) [] (st, tape)
  = Return (((st, tape), tt)
              :: replicate n ((ThreadedCrawler.crawl_single st, tape), tt),
            (ThreadedCrawler.crawl_single st, tape)).
Proof. simpl. rewrite time_fn_loop_returned. reflexivity. Qed.

(** C3 (as amended). [main] builds the threaded engine and the async engine
    once.  Only the first repetition of the sequential strategy and the first
    repetition of the asyncio strategy start from the engine as constructed;
    each later repetition starts from the engine the repetition before it
    returned, and the first repetition of the thread-pool strategy starts from
    the engine the sequential repetitions returned. *)
Theorem main_reuses_its_engines (MONGO_URI : option string)
    (stored : list document) (tape_tc : list ThreadedCrawler.choice)
    (tape_ac : list AsyncCrawler.choice) :
  match main_observed MONGO_URI stored tape_tc tape_ac with
  | Return rep =>
      let tc := ThreadedCrawler.__init__ MONGO_URI stored seed max_pages in
      let ac := AsyncCrawler.__init__ seed max_pages in
      let tc' := ThreadedCrawler.crawl_single tc in
      single_thread_samples rep
        = ((tc, tape_tc), tt) :: replicate 4 ((tc', tape_tc), tt) /\
      (exists tc_end,
         chained thread_pool (tc', tape_tc) (thread_pool_samples rep) tc_end) /\
      (exists ac_end,
         chained asyncio (ac, tape_ac) (asyncio_samples rep) ac_end)
  | _ => True
  end.
Proof.
  unfold main_observed, benchmark, time_fn.
  change (Z.to_nat repeats) with 5%nat.
  rewrite time_fn_single_thread.
  destruct (time_fn_loop (observe thread_pool) 5 [] _) as [[r2 tc2]| |] eqn:Hpool;
    try exact I.
  destruct (time_fn_loop (observe asyncio) 5 [] _) as [[r3 ac3]| |] eqn:Haio;
    try exact I.
  apply time_fn_loop_chained in Hpool as (new2 & -> & Hch2 & _).
  apply time_fn_loop_chained in Haio as (new3 & -> & Hch3 & _).
  simpl. repeat split; eauto.
Qed.

End RunnerFacts.

(** ** The three engines *)

Lemma threaded_init_settled MONGO_URI stored seed_url B :
  0 <= B -> threaded_settled (ThreadedCrawler.__init__ MONGO_URI stored seed_url B).
Proof. intros HB. split; simpl; [exact HB | left; lia]. Qed.

Lemma async_init_settled seed_url B :
  0 <= B -> async_settled (AsyncCrawler.__init__ seed_url B).
Proof. intros HB. split; simpl; [exact HB | left; lia]. Qed.

Section Engines.
Context `{Web}.

(** A returned call of [crawl_threaded] ends some run of the pool. *)
Lemma crawl_threaded_returned max_workers st tape st' rest :
  ThreadedCrawler.crawl_threaded max_workers (st, tape) = Return (tt, (st', rest)) ->
  exists used,
    st' = ThreadedCrawler.engine
            (ThreadedCrawler.steps used (ThreadedCrawler.start max_workers st)) /\
    ThreadedCrawler.at_main
      (ThreadedCrawler.steps used (ThreadedCrawler.start max_workers st))
    = ThreadedCrawler.Returned.
Proof.
  unfold ThreadedCrawler.crawl_threaded. destruct (max_workers <=? 0); [discriminate|].
  simpl. destruct (ThreadedCrawler.exec tape _) as [[p r]| |] eqn:Hrun; try discriminate.
  intros [= <- <-]. apply PoolFacts.pool_exec_steps in Hrun as (used & _ & -> & Hret).
  exists used. auto.
Qed.

(** A returned call of [crawl] ends some run of the event loop. *)
Lemma crawl_returned concurrency st tape st' rest :
  AsyncCrawler.crawl concurrency (st, tape) = Return (tt, (st', rest)) ->
  exists used,
    st' = AsyncCrawler.crawler
            (AsyncCrawler.steps used (AsyncCrawler.start concurrency st)) /\
    AsyncCrawler.gathered
      (AsyncCrawler.steps used (AsyncCrawler.start concurrency st)) = true.
Proof.
  unfold AsyncCrawler.crawl. destruct (concurrency <? 0); [discriminate|].
  simpl. destruct (AsyncCrawler.exec tape _) as [[l r]| |] eqn:Hrun; try discriminate.
  intros [= <- <-]. apply LoopFacts.loop_exec_steps in Hrun as (used & _ & -> & Hret).
  exists used. auto.
Qed.

(** Some schedule lets a call of [crawl_threaded] return. *)
Lemma crawl_threaded_can_return max_workers st :
  0 < max_workers ->
  exists tape st' rest,
    ThreadedCrawler.crawl_threaded max_workers (st, tape) = Return (tt, (st', rest)).
Proof.
  intros Hw. destruct (PoolFacts.pool_can_return max_workers st) as (tape & Hret).
  destruct (PoolFacts.pool_exec_reaches tape _ Hret) as (p' & rest & Hrun).
  exists tape, (ThreadedCrawler.engine p'), rest.
  unfold ThreadedCrawler.crawl_threaded.
  replace (max_workers <=? 0) with false by (symmetry; apply Z.leb_gt; exact Hw).
  simpl. rewrite Hrun. reflexivity.
Qed.

(** Some schedule lets a call of [crawl] return. *)
Lemma crawl_can_return concurrency st :
  0 <= concurrency ->
  exists tape st' rest,
    AsyncCrawler.crawl concurrency (st, tape) = Return (tt, (st', rest)).
Proof.
  intros Hc. destruct (LoopFacts.loop_can_return concurrency st Hc) as (tape & Hall).
  destruct (LoopFacts.loop_exec_reaches tape _ Hall) as (l' & rest & Hrun).
  exists tape, (AsyncCrawler.crawler l'), rest.
  unfold AsyncCrawler.crawl.
  replace (concurrency <? 0) with false by (symmetry; apply Z.ltb_ge; exact Hc).
  simpl. rewrite Hrun. reflexivity.
Qed.

(** [ThreadedCrawler.fetch] gives the empty content for every failure: no
    reply, or a reply with a 4xx or 5xx status. *)
Lemma threaded_fetch_failure_is_empty url :
  http_get url = NoReply \/
  (exists status text, http_get url = Reply status text /\
                       400 <= status < 600) ->
  ThreadedCrawler.fetch url = ""%string.
Proof.
  unfold ThreadedCrawler.fetch. intros [-> |(status & text & -> & Hs)];
    [reflexivity|].
  unfold raise_for_status.
  replace (400 <=? status) with true by (symmetry; apply Z.leb_le; lia).
  replace (status <? 600) with true by (symmetry; apply Z.ltb_lt; lia).
  reflexivity.
Qed.

(** [AsyncCrawler.fetch] gives the empty content when there is no reply, and
    the body of the reply otherwise, whatever its status. *)
Lemma async_fetch_reply url :
  AsyncCrawler.fetch url =
  match http_get url with NoReply => ""%string | Reply _ text => text end.
Proof. reflexivity. Qed.

(** A run hands back a settled engine when it was given one. *)
Lemma crawl_single_settled st :
  threaded_settled st ->
  threaded_settled (ThreadedCrawler.crawl_single st) /\
  ThreadedCrawler.max_pages (ThreadedCrawler.crawl_single st)
  = ThreadedCrawler.max_pages st.
Proof.
  intros (Hle & _). pose proof (SingleFacts.crawl_single_max_pages st) as Hm.
  split; [|exact Hm]. split.
  - rewrite Hm. apply SingleFacts.crawl_single_within_budget, Hle.
  - pose proof (SingleFacts.crawl_single_guard st) as Hg.
    apply SingleFacts.single_guard_false in Hg as [Hq|Hfull];
      [left; rewrite Hq; simpl; lia | right; exact Hfull].
Qed.

Lemma crawl_threaded_settled max_workers st tape st' rest :
  threaded_settled st ->
  ThreadedCrawler.crawl_threaded max_workers (st, tape) = Return (tt, (st', rest)) ->
  threaded_settled st' /\
  ThreadedCrawler.max_pages st' = ThreadedCrawler.max_pages st.
Proof.
  intros Hst Hrun.
  assert (Hw : 0 < max_workers).
  { unfold ThreadedCrawler.crawl_threaded in Hrun.
    destruct (max_workers <=? 0) eqn:Hw; [discriminate | apply Z.leb_gt, Hw]. }
  apply crawl_threaded_returned in Hrun as (used & -> & Hret).
  set (p := ThreadedCrawler.steps used (ThreadedCrawler.start max_workers st)) in *.
  assert (Hb : pool_bounded (ThreadedCrawler.max_pages st) p)
    by (apply PoolFacts.pool_steps_invariant;
        [apply PoolFacts.pool_step_bounded | apply PoolFacts.pool_start_bounded, Hst]).
  assert (Hi : pool_idles p)
    by (apply PoolFacts.pool_steps_invariant;
        [apply PoolFacts.pool_step_idles | apply PoolFacts.pool_start_idles, Hw]).
  destruct Hb as (Hm & Hle & _). destruct Hi as (_ & _ & Hidle & Hd).
  rewrite Hret in Hd. split; [|exact Hm]. split; [rewrite Hm; exact Hle|].
  destruct Hd as [Hf|Hfull]; [left | right; exact Hfull].
  destruct (Hidle Hf) as [Hq|(_ & n & Hn)];
    [rewrite Hq; simpl; lia | rewrite Hret in Hn; discriminate].
Qed.

Lemma crawl_settled concurrency st tape st' rest :
  async_settled st ->
  AsyncCrawler.crawl concurrency (st, tape) = Return (tt, (st', rest)) ->
  async_settled st' /\ AsyncCrawler.max_pages st' = AsyncCrawler.max_pages st.
Proof.
  intros Hst Hrun.
  apply crawl_returned in Hrun as (used & -> & Hall).
  set (l := AsyncCrawler.steps used (AsyncCrawler.start concurrency st)) in *.
  assert (Hb : loop_bounded (AsyncCrawler.max_pages st) l)
    by (apply LoopFacts.loop_steps_invariant;
        [apply LoopFacts.loop_step_bounded | apply LoopFacts.loop_start_bounded, Hst]).
  destruct Hb as (Hm & Hle & fl & pre & post & _ & _ & _ & _ & Hcase).
  split; [|exact Hm]. split; [rewrite Hm; exact Hle|].
  destruct fl as [h|]; [|rewrite Hm; exact Hcase].
  destruct Hcase as (_ & _ & k & Hk & Hflight). exfalso.
  unfold AsyncCrawler.gathered in Hall.
  assert (Hex : AsyncCrawler.task_exited k = true).
  { apply (proj1 (forallb_forall _ _) Hall). apply list_elem_of_In.
    eapply list_elem_of_lookup_2, Hk. }
  destruct k; discriminate.
Qed.

Lemma threaded_engine_settled B st :
  0 <= B -> threaded_engine B st ->
  threaded_settled st /\ ThreadedCrawler.max_pages st = B.
Proof.
  intros HB. induction 1 as [MONGO_URI stored seed_url| st _ [IH IHm]
                             | st max_workers tape st' rest _ [IH IHm] Hrun].
  - split; [apply threaded_init_settled, HB | reflexivity].
  - destruct (crawl_single_settled st IH) as [Hs Hm]. split; [exact Hs | congruence].
  - destruct (crawl_threaded_settled _ _ _ _ _ IH Hrun) as [Hs Hm].
    split; [exact Hs | congruence].
Qed.

Lemma async_engine_settled B st :
  0 <= B -> async_engine B st ->
  async_settled st /\ AsyncCrawler.max_pages st = B.
Proof.
  intros HB. induction 1 as [seed_url
                             | st concurrency tape st' rest _ [IH IHm] Hrun].
  - split; [apply async_init_settled, HB | reflexivity].
  - destruct (crawl_settled _ _ _ _ _ IH Hrun) as [Hs Hm].
    split; [exact Hs | congruence].
Qed.


(** C2 (as amended).  In the worker-pool strategy pagesCrawled is incremented
    once for every completed operation the loop collects, whether or not its
    fetch returned content: at every point of a run it stands at its value at
    entry plus the operations submitted minus the futures still listed, and
    when the call has returned every submitted operation has issued exactly
    one GET.  A failed fetch uses up one unit of the budget. *)
Theorem pool_counts_every_collected_future (max_workers : Z)
    (st : ThreadedCrawler.t) (tape : list ThreadedCrawler.choice) :
  let p := ThreadedCrawler.steps tape (ThreadedCrawler.start max_workers st) in
  ThreadedCrawler.pages_crawled (ThreadedCrawler.engine p)
  = ThreadedCrawler.pages_crawled st
    + Z.of_nat (List.length (ThreadedCrawler.jobs p))
    - Z.of_nat (List.length (ThreadedCrawler.futures p)) /\
  match ThreadedCrawler.at_main p with
  | ThreadedCrawler.Returned =>
      List.length (ThreadedCrawler.requests (ThreadedCrawler.engine p))
      = (List.length (ThreadedCrawler.requests st)
         + List.length (ThreadedCrawler.jobs p))%nat
  | _ => True
  end.
Proof.
  intros p. split.
  - apply (PoolFacts.pool_steps_invariant
             (pool_accounts (ThreadedCrawler.pages_crawled st))
             (PoolFacts.step_accounts _) tape _
             (PoolFacts.start_accounts max_workers st)).
  - assert (Hun : unissued p = unissued (ThreadedCrawler.start max_workers st)).
    { subst p. apply (PoolFacts.pool_steps_invariant
        (fun p => unissued p = unissued (ThreadedCrawler.start max_workers st))).
      - intros c q <-. apply PoolFacts.step_unissued.
      - reflexivity. }
    assert (Hfin : ThreadedCrawler.at_main p = ThreadedCrawler.Returned ->
                   forallb ThreadedCrawler.job_finished (ThreadedCrawler.jobs p) = true).
    { subst p. apply (PoolFacts.pool_steps_invariant
        (fun p => ThreadedCrawler.at_main p = ThreadedCrawler.Returned ->
                  forallb ThreadedCrawler.job_finished (ThreadedCrawler.jobs p) = true)).
      - intros c q. apply PoolFacts.step_returned_finished.
      - discriminate. }
    destruct (ThreadedCrawler.at_main p); try exact I.
    unfold unissued in Hun. rewrite (PoolFacts.finished_all_started _ (Hfin eq_refl)) in Hun.
    simpl in Hun. lia.
Qed.

(** C4.  With a page budget [B] that is not negative, no run of any of the
    three strategies takes the counter above [B], on a new engine or on an
    engine that earlier runs have handed back: the sequential loop returns
    with the counter at most [B]; under every schedule the counter of the
    thread pool and of the event loop is at most [B] at every point of the
    run, so also when the call returns; and for each of the two some
    schedule lets the call return. *)
Theorem budget_is_an_upper_bound (B : Z) :
  0 <= B ->
  (forall tc, threaded_engine B tc ->
     ThreadedCrawler.pages_crawled (ThreadedCrawler.crawl_single tc) <= B /\
     (forall max_workers tape,
        ThreadedCrawler.pages_crawled
          (ThreadedCrawler.engine
             (ThreadedCrawler.steps tape (ThreadedCrawler.start max_workers tc)))
        <= B) /\
     (forall max_workers tape st' rest,
        ThreadedCrawler.crawl_threaded max_workers (tc, tape)
        = Return (tt, (st', rest)) ->
        ThreadedCrawler.pages_crawled st' <= B) /\
     (forall max_workers, 0 < max_workers ->
        exists tape st' rest,
          ThreadedCrawler.crawl_threaded max_workers (tc, tape)
          = Return (tt, (st', rest)))) /\
  (forall ac, async_engine B ac ->
     (forall concurrency tape,
        AsyncCrawler.pages
          (AsyncCrawler.crawler
             (AsyncCrawler.steps tape (AsyncCrawler.start concurrency ac))) <= B) /\
     (forall concurrency tape st' rest,
        AsyncCrawler.crawl concurrency (ac, tape) = Return (tt, (st', rest)) ->
        AsyncCrawler.pages st' <= B) /\
     (forall concurrency, 0 <= concurrency ->
        exists tape st' rest,
          AsyncCrawler.crawl concurrency (ac, tape) = Return (tt, (st', rest)))).
Proof.
  intros HB. split.
  - intros tc Htc. destruct (threaded_engine_settled B tc HB Htc) as [Hs <-].
    split; [|split; [|split]].
    + apply SingleFacts.crawl_single_within_budget, Hs.
    + intros max_workers tape.
      apply (PoolFacts.crawl_threaded_within_budget max_workers tc tape Hs).
    + intros max_workers tape st' rest Hrun.
      apply crawl_threaded_returned in Hrun as (used & -> & _).
      apply (PoolFacts.crawl_threaded_within_budget max_workers tc used Hs).
    + intros max_workers Hw. apply crawl_threaded_can_return, Hw.
  - intros ac Hac. destruct (async_engine_settled B ac HB Hac) as [Hs <-].
    split; [|split].
    + intros concurrency tape.
      apply (LoopFacts.crawl_within_budget concurrency ac tape Hs).
    + intros concurrency tape st' rest Hrun.
      apply crawl_returned in Hrun as (used & -> & _).
      apply (LoopFacts.crawl_within_budget concurrency ac used Hs).
    + intros concurrency Hc. apply crawl_can_return, Hc.
Qed.


(** C9.  The seed is put in the pending queue by the constructor as it is,
    without a look at its prefix and without being marked seen, in both
    engines.  Whatever the seed string is, the first round of each strategy
    pops it and issues the GET for it: the first round of the sequential loop
    (entered when the budget is positive), the first kick-off round of the
    thread pool and the pool thread that takes the job, and the first run of
    the first asyncio worker. *)
Theorem seed_bypasses_prefix_check_and_seen_set (MONGO_URI : option string)
    (stored : list document) (seed_url : string) (B : Z) :
  let tc := ThreadedCrawler.__init__ MONGO_URI stored seed_url B in
  let ac := AsyncCrawler.__init__ seed_url B in
  (ThreadedCrawler.queue tc = [seed_url] /\ ThreadedCrawler.visited tc = ∅) /\
  (AsyncCrawler.queue ac = [seed_url] /\ AsyncCrawler.visited ac = ∅) /\
  (0 < B ->
   ThreadedCrawler.single_guard tc = true /\
   ThreadedCrawler.requests (ThreadedCrawler.single_body tc) = [seed_url]) /\
  (forall max_workers, 0 < max_workers ->
   let p := ThreadedCrawler.main_step (ThreadedCrawler.start max_workers tc) in
   ThreadedCrawler.jobs p = [ThreadedCrawler.ToFetch seed_url] /\
   ThreadedCrawler.requests
     (ThreadedCrawler.engine (ThreadedCrawler.worker_step 0 p)) = [seed_url]) /\
  (forall concurrency, 0 < concurrency -> 0 < B ->
   AsyncCrawler.requests
     (AsyncCrawler.crawler
        (AsyncCrawler.step AsyncCrawler.Run (AsyncCrawler.start concurrency ac)))
   = [seed_url]).
Proof.
  intros tc ac. split; [split; reflexivity|]. split; [split; reflexivity|].
  split; [|split].
  - intros HB. split.
    + apply SingleFacts.single_guard_true. simpl. split; [discriminate | exact HB].
    + unfold ThreadedCrawler.single_body. simpl.
      destruct (truthy (ThreadedCrawler.fetch seed_url)); [|reflexivity].
      simpl. unfold ThreadedCrawler.parse.
      set (s0 := ThreadedCrawler.log_request _ _).
      destruct (SingleFacts.save_page_frame s0 seed_url (ThreadedCrawler.fetch seed_url))
        as (_ & _ & _ & _ & Hreq).
      assert (Hlinks : forall hrefs s,
                ThreadedCrawler.requests (fold_left ThreadedCrawler.enqueue_link hrefs s)
                = ThreadedCrawler.requests s).
      { induction hrefs as [|h l IH]; intros s1; simpl; [reflexivity|].
        rewrite IH. unfold ThreadedCrawler.enqueue_link. destruct (_ && _); reflexivity. }
      rewrite Hlinks, Hreq. reflexivity.
  - intros max_workers Hw p.
    assert (Hp : p = ThreadedCrawler.mk_pool
                   (ThreadedCrawler.add_visited seed_url
                      (ThreadedCrawler.set_queue [] tc))
                   [ThreadedCrawler.ToFetch seed_url] [0%nat]
                   (ThreadedCrawler.Kickoff 0)).
    { subst p. unfold ThreadedCrawler.start, ThreadedCrawler.main_step. simpl.
      replace (Z.to_nat (Z.min (Z.of_nat 1) max_workers)) with 1%nat by lia.
      reflexivity. }
    rewrite Hp. split; [reflexivity|].
    unfold ThreadedCrawler.worker_step. simpl.
    destruct (truthy (ThreadedCrawler.fetch seed_url)); [|reflexivity].
    simpl. unfold ThreadedCrawler.save_page. simpl.
    destruct (match MONGO_URI with Some uri => truthy uri | None => false end);
      reflexivity.
  - intros concurrency Hc HB.
    unfold AsyncCrawler.start.
    destruct (Z.to_nat concurrency) as [|n] eqn:Hn; [lia|].
    simpl. unfold AsyncCrawler.run_task. simpl.
    unfold AsyncCrawler.enter. simpl.
    replace (0 <? B) with true by (symmetry; apply Z.ltb_lt; exact HB).
    simpl. unfold AsyncCrawler.acquire. simpl.
    replace (0 <? concurrency) with true by (symmetry; apply Z.ltb_lt; exact Hc).
    reflexivity.
Qed.

End Engines.

(** C10.  With a persistence store configured (a non-empty MONGO_URI), the
    constructor of the threaded engine leaves the webpages collection empty,
    whatever it held before, and it does so before any crawling: no request
    has been issued and the counter is zero.  Without a store the collection
    is not touched. *)
Theorem constructor_empties_the_store (uri : string) (stored : list document)
    (seed_url : string) (B : Z) :
  truthy uri = true ->
  let tc := ThreadedCrawler.__init__ (Some uri) stored seed_url B in
  ThreadedCrawler.db_client tc = true /\
  ThreadedCrawler.collection tc = [] /\
  ThreadedCrawler.requests tc = [] /\
  ThreadedCrawler.pages_crawled tc = 0 /\
  ThreadedCrawler.collection (ThreadedCrawler.__init__ None stored seed_url B)
  = stored.
Proof.
  intros Huri. unfold ThreadedCrawler.__init__. rewrite Huri. simpl. auto.
Qed.

(** ** Runs on the stub webs *)

(** C3, counterexample.  On [web_wiki], [main] runs to its end and the second
    repetition of the sequential strategy does not start from a fresh engine:
    it starts with the empty queue and the counter the first one left. *)
Lemma second_repetition_is_not_fresh :
  exists rep,
    @main_observed web_wiki None [] wiki_tape_tc wiki_tape_ac = Return rep /\
    ~ Forall (fun o => threaded_fresh seed (fst (fst o)))
             (single_thread_samples rep).
Proof.
  unfold main_observed, benchmark, time_fn.
  change (Z.to_nat repeats) with 5%nat.
  rewrite time_fn_single_thread.
  erewrite (SingleFacts.crawl_single_fuel_sound 10); [|vm_compute; reflexivity].
  eexists. split; [vm_compute; reflexivity|].
  cbn [single_thread_samples replicate]. intros Hall.
  apply Forall_cons in Hall as [_ Hall]. apply Forall_cons in Hall as [Hsecond _].
  destruct Hsecond as (Hq & _). discriminate Hq.
Qed.



(** C2, counterexample.  On [web_down] the one fetch of the run fails, and
    the thread pool returns with the counter at 1 although no fetch of the
    run returned content. *)
Lemma pool_counts_a_failed_fetch :
  exists st',
    @ThreadedCrawler.crawl_threaded web_down 1
      (ThreadedCrawler.__init__ None [] "http://a" 10, down_tape_tc)
    = Return (tt, (st', [])) /\
    ThreadedCrawler.pages_crawled st' = 1 /\
    ThreadedCrawler.requests st' = ["http://a"%string] /\
    List.filter (fun url => truthy (@ThreadedCrawler.fetch web_down url))
                (ThreadedCrawler.requests st') = [].
Proof.
  eexists. split; [vm_compute; reflexivity|].
  repeat split; vm_compute; reflexivity.
Qed.

Lemma budget_witness :
  0 <= 10 /\
  ThreadedCrawler.pages_crawled
    (@ThreadedCrawler.crawl_single web_twice
       (ThreadedCrawler.__init__ None [] "http://a" 10)) <= 10 /\
  (exists st',
     @ThreadedCrawler.crawl_threaded web_twice 1
       (ThreadedCrawler.__init__ None [] "http://a" 10, twice_tape_tc)
     = Return (tt, (st', [])) /\
     ThreadedCrawler.pages_crawled st' <= 10) /\
  (exists st',
     @AsyncCrawler.crawl web_down 1
       (AsyncCrawler.__init__ "http://a" 10, down_tape_ac)
     = Return (tt, (st', [])) /\
     AsyncCrawler.pages st' <= 10).
Proof.
  assert (HB : 0 <= 10) by lia.
  destruct (@budget_is_an_upper_bound web_twice 10 HB) as [Htc _].
  destruct (Htc _ (@threaded_new web_twice 10 None [] "http://a"))
    as (Hsingle & _ & Hpool & _).
  destruct (@budget_is_an_upper_bound web_down 10 HB) as [_ Hac].
  destruct (Hac _ (@async_new web_down 10 "http://a")) as (_ & Hloop & _).
  split; [exact HB|]. split; [exact Hsingle|]. split.
  - eexists. split; [vm_compute; reflexivity|].
    eapply (Hpool 1 twice_tape_tc _ []). vm_compute. reflexivity.
  - eexists. split; [vm_compute; reflexivity|].
    eapply (Hloop 1 down_tape_ac _ []). vm_compute. reflexivity.
Defined.

(** C7, at the failing input.  The page of [http://a] holds the one link
    [/about].  [ThreadedCrawler.parse] tests the raw href for the http
    prefix and drops it, so nothing is enqueued; [AsyncCrawler.parse] joins
    it with the page URL first and enqueues [http://a/about]. *)
Theorem threaded_parse_drops_relative_link :
  let tc := ThreadedCrawler.add_visited "http://a"
              (ThreadedCrawler.set_queue []
                 (ThreadedCrawler.__init__ None [] "http://a" 10)) in
  let ac := AsyncCrawler.add_visited "http://a"
              (AsyncCrawler.set_queue [] (AsyncCrawler.__init__ "http://a" 10)) in
  @find_all_a_href web_relative "A" = ["/about"%string] /\
  ThreadedCrawler.queue (@ThreadedCrawler.parse web_relative tc "http://a" "A") = [] /\
  AsyncCrawler.queue (@AsyncCrawler.parse web_relative ac "http://a" "A")
  = ["http://a/about"%string].
Proof. repeat split; vm_compute; reflexivity. Qed.

(** C8, at the failing input.  [http://a/missing] answers 404 with an error
    page.  [ThreadedCrawler.fetch] returns the empty content;
    [AsyncCrawler.fetch] returns the error page. *)
Theorem async_fetch_returns_error_page :
  @http_get web_404 "http://a/missing" = Reply 404 "Not Found" /\
  @ThreadedCrawler.fetch web_404 "http://a/missing" = ""%string /\
  @AsyncCrawler.fetch web_404 "http://a/missing" = "Not Found"%string.
Proof. repeat split; vm_compute; reflexivity. Qed.

Lemma seed_witness :
  0 < 10 /\ 0 < 4 /\
  ThreadedCrawler.requests
    (@ThreadedCrawler.single_body web_down
       (ThreadedCrawler.__init__ None [] "ftp://files.example/" 10))
  = ["ftp://files.example/"%string] /\
  ThreadedCrawler.requests
    (ThreadedCrawler.engine
       (@ThreadedCrawler.worker_step web_down 0
          (ThreadedCrawler.main_step
             (ThreadedCrawler.start 4
                (ThreadedCrawler.__init__ None [] "ftp://files.example/" 10)))))
  = ["ftp://files.example/"%string] /\
  AsyncCrawler.requests
    (AsyncCrawler.crawler
       (@AsyncCrawler.step web_down AsyncCrawler.Run
          (AsyncCrawler.start 4 (AsyncCrawler.__init__ "ftp://files.example/" 10))))
  = ["ftp://files.example/"%string].
Proof.
  assert (HB : 0 < 10) by lia. assert (Hw : 0 < 4) by lia.
  pose proof (@seed_bypasses_prefix_check_and_seen_set web_down None []
                "ftp://files.example/" 10) as (_ & _ & Hsingle & Hpool & Hloop).
  split; [exact HB|]. split; [exact Hw|]. split; [|split].
  - exact (proj2 (Hsingle HB)).
  - exact (proj2 (Hpool 4 Hw)).
  - exact (Hloop 4 Hw HB).
Defined.

Lemma store_witness :
  truthy "mongodb://localhost" = true /\
  ThreadedCrawler.collection
    (ThreadedCrawler.__init__ (Some "mongodb://localhost"%string)
       [{| doc_url := "http://a"; doc_title := "A"; doc_content := "A" |}]
       "http://a" 10) = [].
Proof.
  assert (Huri : truthy "mongodb://localhost" = true) by reflexivity.
  split; [exact Huri|].
  exact (proj1 (proj2 (constructor_empties_the_store "mongodb://localhost"
    [{| doc_url := "http://a"; doc_title := "A"; doc_content := "A" |}]
    "http://a" 10 Huri))).
Defined.


(** The two scenarios of the specification: a page with two links is
    crawled with its two targets, 3 pages under every strategy; a page that
    links to itself is not enqueued again, 2 pages. *)
Example fan_is_crawled_once_each :
  ThreadedCrawler.pages_crawled
    (@ThreadedCrawler.crawl_single web_fan
       (ThreadedCrawler.__init__ None [] "http://a" 10)) = 3 /\
  (exists st',
     @ThreadedCrawler.crawl_threaded web_fan 2
       (ThreadedCrawler.__init__ None [] "http://a" 10, twice_tape_tc)
     = Return (tt, (st', [])) /\
     ThreadedCrawler.pages_crawled st' = 3) /\
  (exists st',
     @AsyncCrawler.crawl web_fan 2
       (AsyncCrawler.__init__ "http://a" 10, fan_tape_ac)
     = Return (tt, (st', [])) /\
     AsyncCrawler.pages st' = 3).
Proof.
  split; [|split].
  - erewrite (SingleFacts.crawl_single_fuel_sound 10); [|vm_compute; reflexivity].
    reflexivity.
  - eexists. split; vm_compute; reflexivity.
  - eexists. split; vm_compute; reflexivity.
Qed.

Example self_link_is_not_enqueued :
  ThreadedCrawler.requests
    (@ThreadedCrawler.crawl_single web_self
       (ThreadedCrawler.__init__ None [] "http://a" 10))
  = ["http://a"; "http://b"]%string /\
  ThreadedCrawler.pages_crawled
    (@ThreadedCrawler.crawl_single web_self
       (ThreadedCrawler.__init__ None [] "http://a" 10)) = 2.
Proof.
  erewrite (SingleFacts.crawl_single_fuel_sound 10); [|vm_compute; reflexivity].
  split; reflexivity.
Qed.

(** * Further properties *)

(** ** Link extraction and fetching *)


Section ParseFacts.
Context `{Web}.

Lemma threaded_links_closed hrefs : forall st,
  ThreadedCrawler.queue (fold_left ThreadedCrawler.enqueue_link hrefs st)
  = ThreadedCrawler.queue st ++ List.filter (wanted (ThreadedCrawler.visited st)) hrefs /\
  ThreadedCrawler.visited (fold_left ThreadedCrawler.enqueue_link hrefs st)
  = ThreadedCrawler.visited st /\
  ThreadedCrawler.max_pages (fold_left ThreadedCrawler.enqueue_link hrefs st)
  = ThreadedCrawler.max_pages st /\
  ThreadedCrawler.pages_crawled (fold_left ThreadedCrawler.enqueue_link hrefs st)
  = ThreadedCrawler.pages_crawled st /\
  ThreadedCrawler.db_client (fold_left ThreadedCrawler.enqueue_link hrefs st)
  = ThreadedCrawler.db_client st /\
  ThreadedCrawler.collection (fold_left ThreadedCrawler.enqueue_link hrefs st)
  = ThreadedCrawler.collection st /\
  ThreadedCrawler.requests (fold_left ThreadedCrawler.enqueue_link hrefs st)
  = ThreadedCrawler.requests st.
Proof.
  induction hrefs as [|h l IH]; intros st; simpl.
  - rewrite app_nil_r. auto 10.
  - destruct (IH (ThreadedCrawler.enqueue_link st h)) as (-> & -> & -> & -> & -> & -> & ->).
    unfold ThreadedCrawler.enqueue_link, wanted.
    destruct (String.prefix "http" h && bool_decide (h ∉ ThreadedCrawler.visited st));
      simpl; rewrite <- ?app_assoc; auto 10.
Qed.

Lemma async_links_closed url hrefs : forall st,
  AsyncCrawler.queue (fold_left (AsyncCrawler.enqueue_link url) hrefs st)
  = AsyncCrawler.queue st
    ++ List.filter (wanted (AsyncCrawler.visited st)) (List.map (urljoin url) hrefs) /\
  AsyncCrawler.visited (fold_left (AsyncCrawler.enqueue_link url) hrefs st)
  = AsyncCrawler.visited st /\
  AsyncCrawler.max_pages (fold_left (AsyncCrawler.enqueue_link url) hrefs st)
  = AsyncCrawler.max_pages st /\
  AsyncCrawler.pages (fold_left (AsyncCrawler.enqueue_link url) hrefs st)
  = AsyncCrawler.pages st /\
  AsyncCrawler.requests (fold_left (AsyncCrawler.enqueue_link url) hrefs st)
  = AsyncCrawler.requests st.
Proof.
  induction hrefs as [|h l IH]; intros st; simpl.
  - rewrite app_nil_r. auto 10.
  - destruct (IH (AsyncCrawler.enqueue_link url st h)) as (-> & -> & -> & -> & ->).
    unfold AsyncCrawler.enqueue_link, wanted.
    destruct (String.prefix "http" (urljoin url h)
              && bool_decide (urljoin url h ∉ AsyncCrawler.visited st));
      simpl; rewrite <- ?app_assoc; auto 10.
Qed.

Lemma threaded_parse_fields st url html :
  ThreadedCrawler.queue (ThreadedCrawler.parse st url html)
  = ThreadedCrawler.queue st
    ++ List.filter (wanted (ThreadedCrawler.visited st)) (find_all_a_href html) /\
  ThreadedCrawler.visited (ThreadedCrawler.parse st url html)
  = ThreadedCrawler.visited st /\
  ThreadedCrawler.max_pages (ThreadedCrawler.parse st url html)
  = ThreadedCrawler.max_pages st /\
  ThreadedCrawler.pages_crawled (ThreadedCrawler.parse st url html)
  = ThreadedCrawler.pages_crawled st /\
  ThreadedCrawler.db_client (ThreadedCrawler.parse st url html)
  = ThreadedCrawler.db_client st /\
  ThreadedCrawler.collection (ThreadedCrawler.parse st url html)
  = ThreadedCrawler.collection (ThreadedCrawler.save_page st url html) /\
  ThreadedCrawler.requests (ThreadedCrawler.parse st url html)
  = ThreadedCrawler.requests st.
Proof.
  unfold ThreadedCrawler.parse.
  destruct (threaded_links_closed (find_all_a_href html)
              (ThreadedCrawler.save_page st url html))
    as (-> & -> & -> & -> & -> & -> & ->).
  destruct (SingleFacts.save_page_frame st url html) as (-> & -> & -> & -> & ->).
  repeat split; auto.
  unfold ThreadedCrawler.save_page.
  destruct (ThreadedCrawler.db_client st) eqn:Hdb; simpl; auto.
Qed.






End ParseFacts.

(** ** Traces of the sequential loop *)

Lemma flat_map_insert_elem {A B : Type} (f : A -> list B) (l : list A) i x y u :
  l !! i = Some x ->
  (u ∈ flat_map f (<[ i := y ]> l) \/ u ∈ f x <-> u ∈ flat_map f l \/ u ∈ f y).
Proof.
  revert i. induction l as [|z l IH]; intros [|i] Hi; simpl in *; try discriminate.
  - injection Hi as ->. rewrite !elem_of_app. tauto.
  - specialize (IH i Hi). rewrite !elem_of_app. tauto.
Qed.

Lemma flat_map_snoc {A B : Type} (f : A -> list B) (l : list A) x :
  flat_map f (l ++ [x]) = flat_map f l ++ f x.
Proof. rewrite flat_map_app. simpl. rewrite app_nil_r. reflexivity. Qed.

Lemma wanted_filter_http v hrefs u :
  u ∈ List.filter (wanted v) hrefs -> String.prefix "http" u = true.
Proof.
  intros Hu. apply list_elem_of_In, List.filter_In in Hu as [_ Hw].
  unfold wanted in Hw. apply andb_prop in Hw as [Hp _]. exact Hp.
Qed.

Module SingleTraces.
Import ThreadedCrawler.

Section WithWeb.
Context `{Web}.

Lemma threaded_trace_refl st : threaded_trace st [] [] st.
Proof.
  unfold threaded_trace. simpl. rewrite !app_nil_r.
  destruct (db_client st); rewrite ?app_nil_r; repeat split; auto.
  - set_solver.
  - intros u [Hu|[Hu|Hu]]; [left; exact Hu | inversion Hu | inversion Hu].
  - set_solver.
  - intros u [Hu|[Hu|Hu]]; [left; exact Hu | inversion Hu | inversion Hu].
Qed.

Lemma threaded_trace_trans st new1 st1 new2 st2 :
  threaded_trace st [] new1 st1 -> threaded_trace st1 [] new2 st2 ->
  threaded_trace st [] (new1 ++ new2) st2.
Proof.
  intros (Hr1 & Hv1 & Hd1 & Hc1 & Hp1) (Hr2 & Hv2 & Hd2 & Hc2 & Hp2).
  unfold threaded_trace. rewrite Hr2, Hr1, Hv2, Hv1, Hd2, Hd1, Hc2, Hc1, Hd1.
  rewrite <- !app_assoc. repeat split; auto.
  - rewrite list_to_set_app_L. set_solver.
  - f_equal. destruct (db_client st); [|reflexivity].
    rewrite List.filter_app, List.map_app. reflexivity.
  - intros u Hu. rewrite elem_of_app in Hu.
    assert (Hmid : u ∈ queue st1 \/ String.prefix "http" u = true \/ u ∈ new1).
    { destruct Hu as [Hu|[Hu|[Hu|Hu]]]; [| inversion Hu | auto |].
      - destruct (Hp2 u (or_introl Hu)); auto.
      - destruct (Hp2 u (or_intror (or_intror Hu))); auto. }
    destruct Hmid as [Hu'|[Hu'|Hu']]; [apply Hp1; auto | auto | apply Hp1; auto].
Qed.

(** One round of the loop, in full. *)
Lemma single_body_round st url rest :
  queue st = url :: rest ->
  single_body st
  = (if truthy (fetch url)
     then fun s => set_pages_crawled (pages_crawled s + 1) s
     else fun s => s)
      (fetch_and_parse (add_visited url (set_queue rest st)) url).
Proof.
  intros Hq. unfold single_body, fetch_and_parse. rewrite Hq.
  destruct (truthy (fetch url)); reflexivity.
Qed.

Lemma single_body_trace st url rest :
  queue st = url :: rest ->
  threaded_trace st [] [url] (single_body st) /\
  pages_crawled (single_body st)
  = pages_crawled st + (if has_content url then 1 else 0).
Proof.
  intros Hq. unfold single_body, threaded_trace, has_content. rewrite Hq.
  set (s0 := log_request url (add_visited url (set_queue rest st))).
  destruct (truthy (fetch url)) eqn:Hhtml.
  - destruct (threaded_parse_fields s0 url (fetch url))
      as (Hpq & Hpv & _ & Hpp & Hpd & Hpc & Hpr).
    cbn [requests visited db_client collection queue pages_crawled set_pages_crawled].
    rewrite Hpr, Hpv, Hpd, Hpc, Hpp, Hpq. unfold save_page. subst s0.
    cbn [requests visited db_client collection queue pages_crawled log_request
         add_visited set_queue insert_one].
    repeat split.
    + set_solver.
    + destruct (db_client st); simpl; rewrite ?Hhtml, ?app_nil_r; reflexivity.
    + intros u [Hu|[Hu|Hu]].
      * apply elem_of_app in Hu as [Hu|Hu].
        -- left. apply elem_of_cons. right. exact Hu.
        -- right. eapply wanted_filter_http, Hu.
      * inversion Hu.
      * left. apply list_elem_of_singleton in Hu as ->.
        apply elem_of_cons. left. reflexivity.
  - subst s0.
    cbn [requests visited db_client collection queue pages_crawled log_request
         add_visited set_queue].
    repeat split.
    + set_solver.
    + simpl. rewrite Hhtml. destruct (db_client st); rewrite app_nil_r; reflexivity.
    + intros u [Hu|[Hu|Hu]].
      * left. apply elem_of_cons. right. exact Hu.
      * inversion Hu.
      * left. apply list_elem_of_singleton in Hu as ->.
        apply elem_of_cons. left. reflexivity.
    + lia.
Qed.

Lemma crawl_single_trace st :
  exists new,
    threaded_trace st [] new (crawl_single st) /\
    pages_crawled (crawl_single st)
    = pages_crawled st + Z.of_nat (List.length (List.filter has_content new)).
Proof.
  apply (SingleFacts.crawl_single_rounds
           (fun st st' => exists new,
              threaded_trace st [] new st' /\
              pages_crawled st'
              = pages_crawled st + Z.of_nat (List.length (List.filter has_content new)))).
  - intros s _. exists []. split; [apply threaded_trace_refl | simpl; lia].
  - intros s s' Hg (new & Htrace & Hpages).
    apply SingleFacts.single_guard_true in Hg as [Hq _].
    destruct (queue s) as [|url rest] eqn:Eq; [congruence|].
    destruct (single_body_trace s url rest Eq) as [Hround Hcount].
    exists ([url] ++ new). split.
    + eapply threaded_trace_trans; eassumption.
    + rewrite Hpages, Hcount. simpl. destruct (has_content url); simpl; lia.
Qed.

(** X6.  [crawl_single] hands back the engine unchanged exactly when, at
    entry, the queue is empty or the counter has reached the budget; and a
    call on an engine that a call has returned changes nothing. *)
Theorem crawl_single_fixed_points (st : t) :
  (crawl_single st = st <-> queue st = [] \/ max_pages st <= pages_crawled st) /\
  crawl_single (crawl_single st) = crawl_single st.
Proof.
  split.
  - rewrite <- SingleFacts.single_guard_false. split.
    + intros Hfix. rewrite <- Hfix. apply SingleFacts.crawl_single_guard.
    + intros Hg. rewrite SingleFacts.crawl_single_unfold, Hg. reflexivity.
  - rewrite (SingleFacts.crawl_single_unfold (crawl_single st)).
    rewrite SingleFacts.crawl_single_guard. reflexivity.
Qed.


End WithWeb.
End SingleTraces.

(** ** Traces of the thread pool *)

Module PoolTraces.
Import ThreadedCrawler.

Section WithWeb.
Context `{Web}.

Lemma dispatch_trace st p : pool_trace st p -> pool_trace st (dispatch p).
Proof.
  intros Htrace. unfold dispatch.
  destruct (queue (engine p)) as [|url rest] eqn:Hq; [exact Htrace|].
  destruct Htrace as (new & Hr & Hv & Hd & Hc & Hp). exists new. unfold threaded_trace. cbn [engine jobs requests visited db_client
    collection queue add_visited set_queue].
  unfold to_fetch in *. rewrite flat_map_snoc. cbn [job_url].
  repeat split; auto.
  - rewrite Hv, list_to_set_app_L. set_solver.
  - intros u Hu. apply Hp. rewrite Hq.
    rewrite elem_of_app, list_elem_of_singleton in Hu. rewrite elem_of_cons. tauto.
Qed.

Lemma worker_step_trace st i p : pool_trace st p -> pool_trace st (worker_step i p).
Proof.
  intros (new & Hr & Hv & Hd & Hc & Hp). unfold worker_step.
  destruct (jobs p !! i) as [[url|url [|href hrefs]|]|] eqn:Hi;
    try (exists new; repeat split; assumption).
  - (* the GET goes out *)
    assert (Hmove : forall j u, job_url j = [] ->
              (u ∈ to_fetch (<[ i := j ]> (jobs p)) \/ u ∈ [url]
               <-> u ∈ to_fetch (jobs p))).
    { intros j u Hj.
      pose proof (flat_map_insert_elem job_url (jobs p) i _ j u Hi) as Hiff.
      rewrite Hj in Hiff. simpl in Hiff. unfold to_fetch. rewrite Hiff.
      split; [intros [Hu|Hu]; [exact Hu | inversion Hu] | auto]. }
    exists (new ++ [url]).
    destruct (truthy (fetch url)) eqn:Hhtml.
    + unfold threaded_trace. cbn [engine jobs set_job set_engine].
      destruct (SingleFacts.save_page_frame (log_request url (engine p)) url (fetch url))
        as (Hsq & Hsv & _ & _ & Hsr).
      assert (Hsd : db_client (save_page (log_request url (engine p)) url (fetch url))
                    = db_client (engine p))
        by (unfold save_page; simpl; destruct (db_client (engine p)) eqn:Hdb;
            simpl; auto).
      assert (Hsc : collection (save_page (log_request url (engine p)) url (fetch url))
                    = collection (engine p)
                      ++ (if db_client (engine p) then [page_of url] else []))
        by (unfold save_page, page_of; simpl; destruct (db_client (engine p));
            simpl; rewrite ?app_nil_r; reflexivity).
      rewrite Hsq, Hsv, Hsr, Hsd, Hsc. cbn [requests visited queue log_request].
      specialize (Hmove (ToParse url (find_all_a_href (fetch url)))).
      repeat split.
      * rewrite Hr, <- app_assoc. reflexivity.
      * rewrite Hv, list_to_set_app_L.
        apply set_eq. intros u. specialize (Hmove u eq_refl).
        rewrite !elem_of_union, !elem_of_list_to_set in *. tauto.
      * exact Hd.
      * rewrite Hc, Hd, <- app_assoc. f_equal.
        destruct (db_client st); [|reflexivity].
        rewrite List.filter_app, List.map_app. simpl.
        change (has_content url) with (truthy (fetch url)). rewrite Hhtml.
        reflexivity.
      * intros u Hu. apply Hp. specialize (Hmove u eq_refl).
        rewrite elem_of_app in Hu. tauto.
    + unfold threaded_trace. cbn [engine jobs set_job set_engine
        requests visited db_client collection queue log_request].
      specialize (Hmove Finished).
      repeat split; auto.
      * rewrite Hr, <- app_assoc. reflexivity.
      * rewrite Hv, list_to_set_app_L.
        apply set_eq. intros u. specialize (Hmove u eq_refl).
        rewrite !elem_of_union, !elem_of_list_to_set in *. tauto.
      * rewrite Hc. f_equal. destruct (db_client st); [|reflexivity].
        rewrite List.filter_app. simpl.
        change (has_content url) with (truthy (fetch url)). rewrite Hhtml.
        rewrite app_nil_r. reflexivity.
      * intros u Hu. apply Hp. specialize (Hmove u eq_refl).
        rewrite elem_of_app in Hu. tauto.
  - (* the last link is through *)
    exists new. unfold threaded_trace. cbn [engine jobs set_job].
    assert (Hsame : forall u, u ∈ to_fetch (<[ i := Finished ]> (jobs p))
                              <-> u ∈ to_fetch (jobs p)).
    { intros u.
      pose proof (flat_map_insert_elem job_url (jobs p) i _ Finished u Hi) as Hiff.
      simpl in Hiff. unfold to_fetch.
      split; intros Hu; [destruct (proj1 Hiff (or_introl Hu)) as [Hu'|Hu'];
                           [exact Hu' | inversion Hu']|].
      destruct (proj2 Hiff (or_introl Hu)) as [Hu'|Hu']; [exact Hu' | inversion Hu']. }
    repeat split; auto.
    + rewrite Hv. apply set_eq. intros u. specialize (Hsame u).
      rewrite !elem_of_union, !elem_of_list_to_set in *. tauto.
    + intros u Hu. apply Hp. specialize (Hsame u). tauto.
  - (* one link *)
    exists new. unfold threaded_trace. cbn [engine jobs set_job set_engine].
    assert (Hsame : forall u, u ∈ to_fetch (<[ i := ToParse url hrefs ]> (jobs p))
                              <-> u ∈ to_fetch (jobs p)).
    { intros u.
      pose proof (flat_map_insert_elem job_url (jobs p) i _ (ToParse url hrefs) u Hi)
        as Hiff.
      simpl in Hiff. unfold to_fetch.
      split; intros Hu; [destruct (proj1 Hiff (or_introl Hu)) as [Hu'|Hu'];
                           [exact Hu' | inversion Hu']|].
      destruct (proj2 Hiff (or_introl Hu)) as [Hu'|Hu']; [exact Hu' | inversion Hu']. }
    unfold enqueue_link.
    destruct (String.prefix "http" href) eqn:Hhttp; simpl;
      [destruct (bool_decide (href ∉ visited (engine p))); simpl|].
    all: repeat split; auto.
    all: try (rewrite Hv; apply set_eq; intros u; specialize (Hsame u);
              rewrite !elem_of_union, !elem_of_list_to_set in *; tauto).
    all: intros u Hu; specialize (Hsame u).
    + rewrite elem_of_app, list_elem_of_singleton in Hu.
      destruct Hu as [[Hu| ->]|Hu]; [apply Hp; tauto | right; exact Hhttp | apply Hp; tauto].
    + apply Hp; tauto.
    + apply Hp; tauto.
Qed.

Lemma pool_step_trace st c p : pool_trace st p -> pool_trace st (step c p).
Proof.
  intros Htrace. destruct c as [|i]; simpl; [|apply worker_step_trace, Htrace].
  unfold main_step.
  destruct (at_main p) as [[|n]| |[|fut done]| |]; cbv beta iota zeta.
  - exact Htrace.
  - destruct (dispatch_trace st p Htrace) as (new & Hd). exists new. exact Hd.
  - destruct (_ && _); [|exact Htrace]. destruct (List.filter _ _); exact Htrace.
  - exact Htrace.
  - set (p1 := set_futures _ (set_engine _ p)).
    assert (H1 : pool_trace st p1) by (destruct Htrace as (new & Hn); exists new; exact Hn).
    destruct (bool_decide (queue (engine p1) ≠ [])).
    + destruct (dispatch_trace st p1 H1) as (new & Hd). exists new. exact Hd.
    + exact H1.
  - destruct (forallb job_finished (jobs p)); exact Htrace.
  - exact Htrace.
Qed.

Lemma pool_start_trace max_workers st : pool_trace st (start max_workers st).
Proof. exists []. apply SingleTraces.threaded_trace_refl. Qed.

Lemma pool_steps_trace max_workers st tape :
  pool_trace st (steps tape (start max_workers st)).
Proof.
  apply PoolFacts.pool_steps_invariant;
    [apply pool_step_trace | apply pool_start_trace].
Qed.

Lemma finished_nothing_to_fetch (js : list job) :
  forallb job_finished js = true -> to_fetch js = [].
Proof.
  induction js as [|j js IH]; simpl; [reflexivity|]. intros Hall.
  apply andb_prop in Hall as [Hj Hjs]. destruct j; try discriminate.
  simpl. apply IH, Hjs.
Qed.

Lemma pool_returned_finished max_workers st tape :
  at_main (steps tape (start max_workers st)) = Returned ->
  forallb job_finished (jobs (steps tape (start max_workers st))) = true.
Proof.
  apply (PoolFacts.pool_steps_invariant
    (fun p => at_main p = Returned -> forallb job_finished (jobs p) = true)).
  - intros c q. apply PoolFacts.step_returned_finished.
  - discriminate.
Qed.

(** A returned call leaves the trace of a finished run. *)
Lemma crawl_threaded_trace max_workers st tape st' rest :
  crawl_threaded max_workers (st, tape) = Return (tt, (st', rest)) ->
  exists new, threaded_trace st [] new st'.
Proof.
  intros Hrun. apply crawl_threaded_returned in Hrun as (used & -> & Hret).
  destruct (pool_steps_trace max_workers st used) as (new & Htrace).
  rewrite (finished_nothing_to_fetch _ (pool_returned_finished _ _ _ Hret)) in Htrace.
  exists new. exact Htrace.
Qed.

End WithWeb.
End PoolTraces.

(** ** Traces of the event loop *)

Module LoopTraces.
Import AsyncCrawler.

Section WithWeb.
Context `{Web}.

Lemma async_trace_pending st pending pending' new s :
  (forall u, u ∈ pending' <-> u ∈ pending) ->
  async_trace st pending new s -> async_trace st pending' new s.
Proof.
  intros Hsame (Hr & Hv & Hp). repeat split; [exact Hr | |].
  - rewrite Hv. apply set_eq. intros u. specialize (Hsame u).
    rewrite !elem_of_union, !elem_of_list_to_set. tauto.
  - intros u Hu. apply Hp. specialize (Hsame u). tauto.
Qed.

Lemma acquiring_insert (ts : list task) i k k' u :
  ts !! i = Some k ->
  (u ∈ acquiring (<[ i := k' ]> ts) \/ u ∈ task_url k
   <-> u ∈ acquiring ts \/ u ∈ task_url k').
Proof. apply flat_map_insert_elem. Qed.

Lemma acquiring_insert_same (ts : list task) i k k' u :
  ts !! i = Some k -> task_url k = [] -> task_url k' = [] ->
  (u ∈ acquiring (<[ i := k' ]> ts) <-> u ∈ acquiring ts).
Proof.
  intros Hi Hk Hk'. pose proof (acquiring_insert ts i k k' u Hi) as Hiff.
  rewrite Hk, Hk' in Hiff.
  split; intros Hu.
  - destruct (proj1 Hiff (or_introl Hu)) as [Hu'|Hu']; [exact Hu' | inversion Hu'].
  - destruct (proj2 Hiff (or_introl Hu)) as [Hu'|Hu']; [exact Hu' | inversion Hu'].
Qed.

(** The GET of [url] goes out for a task that had popped it. *)
Lemma begin_fetch_trace st i url l pending new :
  async_trace st pending new (crawler l) ->
  (forall u, u ∈ pending <-> u ∈ acquiring (<[ i := Fetching url ]> (tasks l)) \/ u = url) ->
  loop_trace st (begin_fetch i url l).
Proof.
  intros (Hr & Hv & Hp) Hsame. exists (new ++ [url]).
  unfold async_trace, begin_fetch.
  cbn [crawler tasks set_task set_crawler requests visited queue log_request].
  repeat split.
  - rewrite Hr, <- app_assoc. reflexivity.
  - rewrite Hv, list_to_set_app_L. apply set_eq. intros u. specialize (Hsame u).
    rewrite !elem_of_union, !elem_of_list_to_set, list_elem_of_singleton. tauto.
  - intros u Hu. apply Hp. specialize (Hsame u).
    rewrite elem_of_app, list_elem_of_singleton in Hu. tauto.
Qed.

Lemma enter_trace st i l k :
  tasks l !! i = Some k -> task_url k = [] ->
  loop_trace st l -> loop_trace st (enter i l).
Proof.
  intros Hi Hk (new & Htrace). unfold enter.
  destruct ((pages (crawler l) <? max_pages (crawler l))
            && bool_decide (queue (crawler l) ≠ [])).
  2:{ exists new. cbn [crawler tasks set_task].
      eapply async_trace_pending; [|exact Htrace].
      intros u. apply (acquiring_insert_same _ i k Exited u Hi Hk eq_refl). }
  destruct (queue (crawler l)) as [|url rest] eqn:Hq; [exists new; exact Htrace|].
  assert (Hpop : async_trace st (url :: acquiring (tasks l)) new
                   (add_visited url (set_queue rest (crawler l)))).
  { destruct Htrace as (Hr & Hv & Hp). repeat split; [exact Hr | |].
    - cbn [visited add_visited set_queue]. rewrite Hv. apply set_eq. intros u.
      rewrite !elem_of_union, !elem_of_list_to_set, elem_of_cons, elem_of_singleton.
      tauto.
    - cbn [queue add_visited set_queue]. intros u Hu. apply Hp. rewrite Hq.
      rewrite !elem_of_cons in *. tauto. }
  unfold acquire. cbn [sem waiters set_crawler crawler tasks ready].
  destruct ((0 <? sem l) && bool_decide (waiters l = [])).
  - eapply begin_fetch_trace; [exact Hpop|].
    intros u. cbn [tasks].
    rewrite elem_of_cons, (acquiring_insert_same _ i k (Fetching url) u Hi Hk eq_refl).
    tauto.
  - exists new. cbn [crawler tasks set_task].
    eapply async_trace_pending; [|exact Hpop].
    intros u. pose proof (acquiring_insert (tasks l) i k (Acquiring url) u Hi) as Hiff.
    rewrite Hk in Hiff. simpl in Hiff. rewrite elem_of_cons.
    rewrite list_elem_of_singleton in Hiff.
    split.
    + intros Hu. destruct (proj1 Hiff (or_introl Hu)) as [Hu'|Hu']; auto.
    + intros Hu. destruct (proj2 Hiff) as [Hu'|Hu']; [tauto | exact Hu' | inversion Hu'].
Qed.

Lemma loop_step_trace st c l : loop_trace st l -> loop_trace st (step c l).
Proof.
  intros Htrace. destruct c as [|i]; simpl.
  - destruct (ready l) as [|i r]; [exact Htrace|].
    assert (Hl : loop_trace st (set_ready r l)) by exact Htrace.
    unfold run_task. cbn [tasks set_ready].
    change (tasks l) with (tasks (set_ready r l)).
    destruct (tasks (set_ready r l) !! i) as [[|url|url|]|] eqn:Hi; try exact Hl.
    + apply (enter_trace st i _ Created Hi eq_refl Hl).
    + destruct Hl as (new & Hn). eapply begin_fetch_trace; [exact Hn|].
      intros u. pose proof (acquiring_insert _ i _ (Fetching url) u Hi) as Hiff.
      simpl in Hiff. rewrite list_elem_of_singleton in Hiff.
      split.
      * intros Hu. destruct (proj2 Hiff (or_introl Hu)) as [Hu'|Hu']; auto.
      * intros Hu. destruct (proj1 Hiff) as [Hu'|Hu']; [tauto | exact Hu' | inversion Hu'].
    + unfold resume.
      destruct (LoopFacts.release_spec (set_ready r l)) as (Hrc & Hrt & _).
      set (l1 := release (set_ready r l)) in *.
      set (s1 := if truthy (fetch url) then parse (crawler l1) url (fetch url)
                 else crawler l1).
      apply (enter_trace st i _ (Fetching url)).
      * cbn [tasks set_crawler]. rewrite Hrt. exact Hi.
      * reflexivity.
      * destruct Hl as (new & Hr & Hv & Hp). exists new.
        cbn [tasks crawler set_crawler]. rewrite Hrt.
        assert (Hs1 : requests s1 = requests (crawler l1) /\
                      visited s1 = visited (crawler l1) /\
                      exists links, queue s1 = queue (crawler l1) ++ links /\
                        forall u, u ∈ links -> String.prefix "http" u = true).
        { subst s1. destruct (truthy (fetch url)).
          - destruct (async_links_closed url (find_all_a_href (fetch url)) (crawler l1))
              as (Hpq & Hpv & _ & _ & Hpr).
            unfold parse. rewrite Hpq, Hpv, Hpr. repeat split. eexists. split;
              [reflexivity|]. intros u. apply wanted_filter_http.
          - repeat split. exists []. rewrite app_nil_r. split; [reflexivity|].
            intros u Hu. inversion Hu. }
        destruct Hs1 as (Hsr & Hsv & links & Hsq & Hlinks).
        unfold async_trace. cbn [requests visited queue set_pages].
        rewrite Hsr, Hsv, Hsq, Hrc. repeat split; [exact Hr | exact Hv |].
        intros u Hu. rewrite elem_of_app in Hu.
        destruct Hu as [[Hu|Hu]|Hu]; [apply Hp; auto | right; apply Hlinks, Hu
                                      | apply Hp; auto].
  - destruct (tasks l !! i) as [[| | |]|]; try exact Htrace.
    destruct (bool_decide (i ∈ ready l)); exact Htrace.
Qed.

Lemma loop_start_trace concurrency st : loop_trace st (start concurrency st).
Proof.
  exists []. unfold async_trace, start. cbn [crawler tasks].
  assert (Hnone : acquiring (replicate (Z.to_nat concurrency) Created) = []).
  { induction (Z.to_nat concurrency) as [|n IH]; simpl; [reflexivity | exact IH]. }
  rewrite Hnone. simpl. rewrite app_nil_r. repeat split.
  - set_solver.
  - intros u [Hu|[Hu|Hu]]; [left; exact Hu | inversion Hu | inversion Hu].
Qed.

Lemma loop_steps_trace concurrency st tape :
  loop_trace st (steps tape (start concurrency st)).
Proof.
  apply LoopFacts.loop_steps_invariant;
    [apply loop_step_trace | apply loop_start_trace].
Qed.

Lemma gathered_none_acquiring (ts : list task) :
  forallb task_exited ts = true -> acquiring ts = [].
Proof.
  induction ts as [|k ts IH]; simpl; [reflexivity|]. intros Hall.
  apply andb_prop in Hall as [Hk Hts]. destruct k; try discriminate.
  simpl. apply IH, Hts.
Qed.

Lemma crawl_trace concurrency st tape st' rest :
  crawl concurrency (st, tape) = Return (tt, (st', rest)) ->
  exists new, async_trace st [] new st'.
Proof.
  intros Hrun. apply crawl_returned in Hrun as (used & -> & Hall).
  destruct (loop_steps_trace concurrency st used) as (new & Htrace).
  rewrite (gathered_none_acquiring _ Hall) in Htrace.
  exists new. exact Htrace.
Qed.

End WithWeb.
End LoopTraces.

(** ** Futures in flight *)

Lemma flat_map_insert_perm {A B : Type} (f : A -> list B) (l : list A) i x y :
  l !! i = Some x ->
  flat_map f (<[ i := y ]> l) ++ f x ≡ₚ flat_map f l ++ f y.
Proof.
  revert i. induction l as [|z l IH]; intros [|i] Hi; simpl in *; try discriminate.
  - injection Hi as ->.
    rewrite <- !app_assoc. rewrite (Permutation_app_comm (flat_map f l) (f x)).
    rewrite (Permutation_app_comm (flat_map f l) (f y)).
    rewrite !app_assoc. apply Permutation_app_tail, Permutation_app_comm.
  - rewrite <- !app_assoc. apply Permutation_app_head, IH, Hi.
Qed.

Module PoolRuns.
Import ThreadedCrawler.

Section WithWeb.
Context `{Web}.

Lemma pool_step_refills entry k c p :
  pool_accounts entry p -> pool_refills k p -> pool_refills k (step c p).
Proof.
  intros (_ & _ & Hdone & _) Hk. unfold pool_refills in *.
  destruct c as [|i]; simpl.
  - unfold main_step.
    destruct (at_main p) as [[|n]| |[|fut done]| |] eqn:Hat; cbv beta iota zeta;
      cbn [at_main set_at_main futures]; try (rewrite ?Hat; lia).
    + destruct (PoolFacts.dispatch_frame p) as (_ & _ & Ha).
      pose proof (PoolFacts.dispatch_futures_length p). lia.
    + destruct (_ && _); cbn [at_main set_at_main futures]; [|lia].
      destruct (List.filter _ _); [rewrite Hat|]; cbn [at_main set_at_main futures]; lia.
    + destruct Hdone as (_ & Hin).
      pose proof (PoolFacts.remove_first_length fut (futures p)
                    (Hin fut (or_introl eq_refl))) as Hlen.
      set (p1 := set_futures _ (set_engine _ p)).
      assert (Hlen1 : S (List.length (futures p1)) = List.length (futures p))
        by exact Hlen.
      destruct (bool_decide (queue (engine p1) ≠ [])).
      * pose proof (PoolFacts.dispatch_futures_length p1). lia.
      * lia.
    + destruct (forallb job_finished (jobs p)); [|rewrite Hat];
        cbn [at_main set_at_main futures]; lia.
  - destruct (PoolFacts.worker_step_frame i p) as (_ & _ & -> & -> & _). exact Hk.
Qed.

Lemma pool_start_refills max_workers st :
  pool_refills (kickoff_rounds max_workers st) (start max_workers st).
Proof. unfold pool_refills, start, kickoff_rounds. simpl. lia. Qed.

Lemma pool_steps_refills max_workers st tape :
  pool_refills (kickoff_rounds max_workers st) (steps tape (start max_workers st)).
Proof.
  assert (Hboth : pool_accounts (pages_crawled st) (steps tape (start max_workers st)) /\
                  pool_refills (kickoff_rounds max_workers st)
                    (steps tape (start max_workers st))).
  { apply (PoolFacts.pool_steps_invariant
             (fun p => pool_accounts (pages_crawled st) p /\
                       pool_refills (kickoff_rounds max_workers st) p)).
    - intros c p [Ha Hk]. split; [apply PoolFacts.step_accounts, Ha|].
      eapply pool_step_refills; eassumption.
    - split; [apply PoolFacts.start_accounts | apply pool_start_refills]. }
  apply Hboth.
Qed.

Lemma pool_returned_requests max_workers st tape :
  let p := steps tape (start max_workers st) in
  at_main p = Returned ->
  List.length (requests (engine p))
  = (List.length (requests st) + List.length (jobs p))%nat.
Proof.
  intros p Hret.
  assert (Hun : unissued p = unissued (start max_workers st)).
  { subst p. apply (PoolFacts.pool_steps_invariant
      (fun p => unissued p = unissued (start max_workers st))).
    - intros c q <-. apply PoolFacts.step_unissued.
    - reflexivity. }
  pose proof (PoolTraces.pool_returned_finished max_workers st tape Hret) as Hfin.
  fold p in Hfin. unfold unissued in Hun.
  rewrite (PoolFacts.finished_all_started _ Hfin) in Hun. simpl in Hun. lia.
Qed.

(** X11.  Under every schedule the thread pool never lists more futures than
    the kick-off submits, [min(len(self.queue), max_workers)] taken at entry,
    and every job that has not finished is listed; so when the call has
    returned, the GETs issued by the run exceed the pages it has counted by
    that number at most. *)
Theorem pool_keeps_at_most_kickoff_many_in_flight (max_workers : Z) (st : t)
    (tape : list choice) :
  0 < max_workers ->
  let p := steps tape (start max_workers st) in
  (List.length (futures p) <= kickoff_rounds max_workers st)%nat /\
  (forall i j, jobs p !! i = Some j -> j <> Finished -> In i (futures p)) /\
  (at_main p = Returned ->
   pages_crawled (engine p) - pages_crawled st
   <= Z.of_nat (List.length (requests (engine p)))
      - Z.of_nat (List.length (requests st))
   <= pages_crawled (engine p) - pages_crawled st
      + Z.of_nat (kickoff_rounds max_workers st)).
Proof.
  intros Hw p.
  pose proof (pool_steps_refills max_workers st tape) as Hk. fold p in Hk.
  assert (Hlen : (List.length (futures p) <= kickoff_rounds max_workers st)%nat)
    by (unfold pool_refills in Hk; destruct (at_main p); lia).
  split; [exact Hlen|]. split.
  - assert (Hi : pool_idles p)
      by (apply PoolFacts.pool_steps_invariant;
          [apply PoolFacts.pool_step_idles | apply PoolFacts.pool_start_idles, Hw]).
    destruct Hi as (Hlisted & _). intros i j Hj Hn.
    destruct (List.in_dec Nat.eq_dec i (futures p)) as [Hin|Hout]; [exact Hin|].
    exfalso. apply Hn. eapply Hlisted; eassumption.
  - intros Hret.
    pose proof (pool_returned_requests max_workers st tape Hret) as Hreq. fold p in Hreq.
    assert (Ha : pool_accounts (pages_crawled st) p)
      by (apply PoolFacts.pool_steps_invariant;
          [apply PoolFacts.step_accounts | apply PoolFacts.start_accounts]).
    destruct Ha as (_ & _ & _ & Hpages). lia.
Qed.

End WithWeb.
End PoolRuns.

(** ** Runs on a spent budget or an empty queue *)

Module PoolEdges.
Import ThreadedCrawler.

Section WithWeb.
Context `{Web}.

Lemma dispatch_kicks st k m p :
  (k <= List.length (queue st))%nat ->
  at_main p = Kickoff (S m) ->
  pool_kicks st k p -> pool_kicks st k (set_at_main (Kickoff m) (dispatch p)).
Proof.
  intros Hk Hat (Hp & Hm & n & new & links & Hn & Hcase & Hr & Hperm & Hq).
  rewrite Hat in Hcase. subst n.
  assert (Hx : is_Some (queue st !! (k - S m)%nat))
    by (apply lookup_lt_is_Some; lia).
  destruct Hx as [x Hx].
  rewrite (drop_S _ _ _ Hx) in Hq.
  replace (S (k - S m)) with (k - m)%nat in Hq by lia.
  unfold dispatch. rewrite Hq. simpl app.
  unfold pool_kicks. cbn [engine jobs at_main set_at_main pages_crawled max_pages
    requests queue add_visited set_queue].
  split; [exact Hp|]. split; [exact Hm|].
  exists m, new, links. repeat split; auto; [lia|].
  unfold to_fetch in *. rewrite flat_map_snoc. cbn [job_url].
  replace (k - m)%nat with (S (k - S m)) by lia.
  rewrite (take_S_r _ _ _ Hx), app_assoc. apply Permutation_app_tail, Hperm.
Qed.

Lemma worker_step_kicks st k i p :
  pool_kicks st k p -> pool_kicks st k (worker_step i p).
Proof.
  intros (Hp & Hm & n & new & links & Hn & Hcase & Hr & Hperm & Hq).
  destruct (PoolFacts.worker_step_frame i p) as (Hwp & Hwm & _ & Hwa & _).
  unfold pool_kicks. rewrite Hwp, Hwm, Hwa.
  split; [exact Hp|]. split; [exact Hm|].
  unfold worker_step.
  destruct (jobs p !! i) as [[url|url [|href hrefs]|]|] eqn:Hi.
  - (* the GET goes out *)
    exists n, (new ++ [url]), links.
    assert (Hmove : forall j, job_url j = [] ->
              (new ++ [url]) ++ to_fetch (<[ i := j ]> (jobs p))
              ≡ₚ take (k - n) (queue st)).
    { intros j Hj. rewrite <- Hperm.
      pose proof (flat_map_insert_perm job_url (jobs p) i _ j Hi) as Hins.
      rewrite Hj, app_nil_r in Hins. simpl in Hins. unfold to_fetch.
      rewrite <- Hins, <- !app_assoc. apply Permutation_app_head.
      apply Permutation_app_comm. }
    destruct (truthy (fetch url)).
    + cbn [engine jobs set_job set_engine].
      destruct (SingleFacts.save_page_frame (log_request url (engine p)) url (fetch url))
        as (-> & _ & _ & _ & ->).
      cbn [requests queue log_request]. rewrite Hr, <- app_assoc.
      repeat split; auto.
    + cbn [engine jobs set_job set_engine requests queue log_request].
      rewrite Hr, <- app_assoc. repeat split; auto.
  - exists n, new, links. cbn [engine jobs set_job].
    repeat split; auto. rewrite <- Hperm. apply Permutation_app_head.
    pose proof (flat_map_insert_perm job_url (jobs p) i _ Finished Hi) as Hins.
    simpl in Hins. rewrite !app_nil_r in Hins. exact Hins.
  - assert (Hsame : new ++ to_fetch (<[ i := ToParse url hrefs ]> (jobs p))
                    ≡ₚ take (k - n) (queue st)).
    { rewrite <- Hperm. apply Permutation_app_head.
      pose proof (flat_map_insert_perm job_url (jobs p) i _ (ToParse url hrefs) Hi)
        as Hins.
      simpl in Hins. rewrite !app_nil_r in Hins. exact Hins. }
    unfold enqueue_link. destruct (_ && _).
    + exists n, new, (links ++ [href]).
      cbn [engine jobs set_job set_engine requests queue set_queue].
      rewrite Hq, <- app_assoc. repeat split; auto.
    + exists n, new, links. cbn [engine jobs set_job set_engine].
      repeat split; auto.
  - exists n, new, links. repeat split; auto.
  - exists n, new, links. repeat split; auto.
Qed.

Lemma pool_step_kicks st k c p :
  (k <= List.length (queue st))%nat ->
  max_pages st <= pages_crawled st ->
  pool_kicks st k p -> pool_kicks st k (step c p).
Proof.
  intros Hk Hfull Hinv. destruct c as [|i]; simpl; [|apply worker_step_kicks, Hinv].
  unfold main_step.
  destruct (at_main p) as [[|m]| |[|fut done]| |] eqn:Hat; cbv beta iota zeta.
  - destruct Hinv as (Hp & Hm & n & new & links & Hn & Hcase & Hrest).
    rewrite Hat in Hcase. split; [exact Hp|]. split; [exact Hm|].
    exists n, new, links. cbn [at_main set_at_main]. auto.
  - apply dispatch_kicks; assumption.
  - destruct Hinv as (Hp & Hm & n & new & links & Hn & Hcase & Hrest).
    rewrite Hat in Hcase.
    replace (pages_crawled (engine p) <? max_pages (engine p)) with false
      by (symmetry; apply Z.ltb_ge; lia).
    rewrite andb_false_r. split; [exact Hp|]. split; [exact Hm|].
    exists n, new, links. cbn [at_main set_at_main]. auto.
  - destruct Hinv as (_ & _ & n & new & links & _ & Hcase & _).
    rewrite Hat in Hcase. destruct Hcase.
  - destruct Hinv as (_ & _ & n & new & links & _ & Hcase & _).
    rewrite Hat in Hcase. destruct Hcase.
  - destruct (forallb job_finished (jobs p)); [|exact Hinv].
    destruct Hinv as (Hp & Hm & n & new & links & Hn & Hcase & Hrest).
    rewrite Hat in Hcase. split; [exact Hp|]. split; [exact Hm|].
    exists n, new, links. cbn [at_main set_at_main]. auto.
  - exact Hinv.
Qed.

Lemma pool_start_kicks max_workers st :
  pool_kicks st (kickoff_rounds max_workers st) (start max_workers st).
Proof.
  unfold pool_kicks, start. cbn [engine jobs at_main].
  split; [reflexivity|]. split; [reflexivity|].
  exists (kickoff_rounds max_workers st), [], [].
  rewrite Nat.sub_diag. simpl. rewrite !app_nil_r. repeat split; auto.
Qed.

(** X12.  [crawl_threaded] on an engine whose counter has reached the budget
    at entry still runs its kick-off: under every schedule a returned call
    has issued GETs for exactly the first [min(len(self.queue), max_workers)]
    URLs of the queue (in an order the schedule decides), has marked them
    seen and taken them from the queue, and has counted none of them. *)
Theorem pool_kickoff_ignores_the_budget (max_workers : Z) (st : t)
    (tape : list choice) (st' : t) (rest : list choice) :
  max_pages st <= pages_crawled st ->
  crawl_threaded max_workers (st, tape) = Return (tt, (st', rest)) ->
  let k := kickoff_rounds max_workers st in
  pages_crawled st' = pages_crawled st /\
  (exists new,
     requests st' = requests st ++ new /\ new ≡ₚ take k (queue st)) /\
  visited st' = visited st ∪ list_to_set (take k (queue st)) /\
  (exists links, queue st' = drop k (queue st) ++ links).
Proof.
  intros Hfull Hrun k.
  destruct (PoolTraces.crawl_threaded_trace _ _ _ _ _ Hrun) as (new' & Hr' & Hv' & _).
  apply crawl_threaded_returned in Hrun as (used & -> & Hret).
  set (p := steps used (start max_workers st)) in *.
  assert (Hk : (k <= List.length (queue st))%nat)
    by (subst k; unfold kickoff_rounds; lia).
  assert (Hinv : pool_kicks st k p).
  { apply PoolFacts.pool_steps_invariant;
      [intros c q; apply pool_step_kicks; assumption | apply pool_start_kicks]. }
  destruct Hinv as (Hp & _ & n & new & links & _ & Hcase & Hr & Hperm & Hq).
  rewrite Hret in Hcase. subst n. rewrite Nat.sub_0_r in Hperm, Hq.
  pose proof (PoolTraces.finished_nothing_to_fetch _
                (PoolTraces.pool_returned_finished _ _ _ Hret)) as Hnone.
  fold p in Hnone. rewrite Hnone, app_nil_r in Hperm.
  split; [exact Hp|]. split; [exists new; auto|]. split; [|exists links; exact Hq].
  rewrite Hr in Hr'. apply app_inv_head in Hr'. subst new'.
  rewrite Hv'. simpl. rewrite (list_to_set_perm_L _ _ Hperm). set_solver.
Qed.

Lemma pool_step_rests st c p : pool_rests st p -> pool_rests st (step c p).
Proof.
  intros (He & Hj & Hf & Hat). destruct c as [|i]; simpl.
  - unfold main_step. destruct (at_main p) as [[|n]| |done| |] eqn:Ha;
      try destruct Hat.
    + repeat split; auto.
    + rewrite Hf. simpl. repeat split; auto.
    + rewrite Hj. simpl. repeat split; auto.
    + unfold pool_rests. rewrite Ha. auto.
  - unfold worker_step. rewrite Hj, lookup_nil. unfold pool_rests. auto.
Qed.

Lemma pool_start_rests max_workers st :
  queue st = [] -> pool_rests st (start max_workers st).
Proof.
  intros Hq. unfold pool_rests, start. rewrite Hq. simpl.
  repeat split.
  replace (Z.to_nat (Z.min (Z.of_nat 0) max_workers)) with 0%nat by lia. exact I.
Qed.

End WithWeb.
End PoolEdges.

Module LoopEdges.
Import AsyncCrawler.

Section WithWeb.
Context `{Web}.

Lemma loop_step_rests st c l :
  (queue st = [] \/ max_pages st <= pages st) ->
  loop_rests st l -> loop_rests st (step c l).
Proof.
  intros Hidle (Hc & Hts). destruct c as [|i]; simpl.
  - destruct (ready l) as [|i r]; [split; assumption|].
    unfold run_task. cbn [tasks set_ready].
    destruct (tasks l !! i) as [k|] eqn:Hi; [|split; assumption].
    assert (Hk : k = Created \/ k = Exited)
      by (eapply (proj1 (Forall_lookup _ _) Hts); exact Hi).
    destruct Hk as [-> | ->]; [|split; assumption].
    unfold enter. cbn [crawler set_ready]. rewrite Hc.
    replace ((pages st <? max_pages st) && bool_decide (queue st ≠ [])) with false.
    + split; [exact Hc|]. cbn [tasks set_task set_ready].
      apply Forall_insert; [exact Hts | right; reflexivity].
    + symmetry. apply andb_false_iff. destruct Hidle as [Hq|Hfull].
      * right. apply bool_decide_eq_false. intros Hn. apply Hn, Hq.
      * left. apply Z.ltb_ge, Hfull.
  - destruct (tasks l !! i) as [k|] eqn:Hi; [|split; assumption].
    assert (Hk : k = Created \/ k = Exited)
      by (eapply (proj1 (Forall_lookup _ _) Hts); exact Hi).
    destruct Hk as [-> | ->]; split; assumption.
Qed.

Lemma loop_start_rests concurrency st : loop_rests st (start concurrency st).
Proof.
  split; [reflexivity|]. unfold start. cbn [tasks].
  apply Forall_replicate. left. reflexivity.
Qed.

End WithWeb.
End LoopEdges.

Section EdgeRuns.
Context `{Web}.

(** X13.  On an engine with an empty queue a run of the thread pool leaves
    the engine as it is at every point, under every schedule; so does a run
    of the event loop on an engine with an empty queue or with the budget
    reached. *)
Theorem runs_with_nothing_to_do_change_nothing :
  (forall max_workers st tape,
     ThreadedCrawler.queue st = [] ->
     ThreadedCrawler.engine
       (ThreadedCrawler.steps tape (ThreadedCrawler.start max_workers st)) = st) /\
  (forall concurrency st tape,
     AsyncCrawler.queue st = [] \/ AsyncCrawler.max_pages st <= AsyncCrawler.pages st ->
     AsyncCrawler.crawler
       (AsyncCrawler.steps tape (AsyncCrawler.start concurrency st)) = st).
Proof.
  split.
  - intros max_workers st tape Hq.
    apply (PoolFacts.pool_steps_invariant (pool_rests st)
             (PoolEdges.pool_step_rests st) tape _
             (PoolEdges.pool_start_rests max_workers st Hq)).
  - intros concurrency st tape Hidle.
    apply (LoopFacts.loop_steps_invariant (loop_rests st)
             (fun c l => LoopEdges.loop_step_rests st c l Hidle) tape _
             (LoopEdges.loop_start_rests concurrency st)).
Qed.

End EdgeRuns.

(** ** What a run has fetched, marked and stored *)

Section TraceFacts.
Context `{Web}.


(** X9.  When a run of any of the three strategies has returned, the
    seen-set is the seen-set at entry with the URLs for which the run issued
    a GET, and nothing else: what is marked and what is fetched are the
    same. *)
Theorem visited_is_what_was_fetched :
  (forall st, exists new,
     ThreadedCrawler.requests (ThreadedCrawler.crawl_single st)
     = ThreadedCrawler.requests st ++ new /\
     ThreadedCrawler.visited (ThreadedCrawler.crawl_single st)
     = ThreadedCrawler.visited st ∪ list_to_set new) /\
  (forall max_workers st tape st' rest,
     ThreadedCrawler.crawl_threaded max_workers (st, tape) = Return (tt, (st', rest)) ->
     exists new,
       ThreadedCrawler.requests st' = ThreadedCrawler.requests st ++ new /\
       ThreadedCrawler.visited st' = ThreadedCrawler.visited st ∪ list_to_set new) /\
  (forall concurrency st tape st' rest,
     AsyncCrawler.crawl concurrency (st, tape) = Return (tt, (st', rest)) ->
     exists new,
       AsyncCrawler.requests st' = AsyncCrawler.requests st ++ new /\
       AsyncCrawler.visited st' = AsyncCrawler.visited st ∪ list_to_set new).
Proof.
  split; [|split].
  - intros st. destruct (SingleTraces.crawl_single_trace st)
      as (new & (Hr & Hv & _) & _).
    exists new. split; [exact Hr|]. rewrite Hv. simpl. set_solver.
  - intros max_workers st tape st' rest Hrun.
    destruct (PoolTraces.crawl_threaded_trace _ _ _ _ _ Hrun) as (new & Hr & Hv & _).
    exists new. split; [exact Hr|]. rewrite Hv. simpl. set_solver.
  - intros concurrency st tape st' rest Hrun.
    destruct (LoopTraces.crawl_trace _ _ _ _ _ Hrun) as (new & Hr & Hv & _).
    exists new. split; [exact Hr|]. rewrite Hv. simpl. set_solver.
Qed.

(** X10.  When [crawl_single] has returned, and at every point of a run of
    the thread pool or of the event loop under every schedule, every URL for
    which the run has issued a GET, and every URL still pending, was pending
    at entry or starts with http: nothing but the queue at entry passes
    unchecked. *)
Theorem only_queued_and_http_urls_are_fetched :
  (forall st, exists new,
     ThreadedCrawler.requests (ThreadedCrawler.crawl_single st)
     = ThreadedCrawler.requests st ++ new /\
     Forall (fun u => u ∈ ThreadedCrawler.queue st \/ String.prefix "http" u = true)
            (new ++ ThreadedCrawler.queue (ThreadedCrawler.crawl_single st))) /\
  (forall max_workers st tape,
     let p := ThreadedCrawler.steps tape (ThreadedCrawler.start max_workers st) in
     exists new,
       ThreadedCrawler.requests (ThreadedCrawler.engine p)
       = ThreadedCrawler.requests st ++ new /\
       Forall (fun u => u ∈ ThreadedCrawler.queue st \/ String.prefix "http" u = true)
              (new ++ ThreadedCrawler.queue (ThreadedCrawler.engine p))) /\
  (forall concurrency st tape,
     let l := AsyncCrawler.steps tape (AsyncCrawler.start concurrency st) in
     exists new,
       AsyncCrawler.requests (AsyncCrawler.crawler l)
       = AsyncCrawler.requests st ++ new /\
       Forall (fun u => u ∈ AsyncCrawler.queue st \/ String.prefix "http" u = true)
              (new ++ AsyncCrawler.queue (AsyncCrawler.crawler l))).
Proof.
  split; [|split].
  - intros st. destruct (SingleTraces.crawl_single_trace st)
      as (new & (Hr & _ & _ & _ & Hp) & _).
    exists new. split; [exact Hr|]. apply Forall_forall. intros u Hu.
    apply Hp. rewrite elem_of_app in Hu. tauto.
  - intros max_workers st tape p.
    destruct (PoolTraces.pool_steps_trace max_workers st tape)
      as (new & Hr & _ & _ & _ & Hp).
    exists new. split; [exact Hr|]. apply Forall_forall. intros u Hu.
    apply Hp. rewrite elem_of_app in Hu. tauto.
  - intros concurrency st tape l.
    destruct (LoopTraces.loop_steps_trace concurrency st tape) as (new & Hr & _ & Hp).
    exists new. split; [exact Hr|]. apply Forall_forall. intros u Hu.
    apply Hp. rewrite elem_of_app in Hu. tauto.
Qed.

End TraceFacts.

(** ** Repetitions *)

Section TimeFn.
Context {S R : Type} (fn : S -> result (R * S)).

(** The samples collected so far stay in front. *)
Lemma time_fn_loop_results n : forall acc s,
  time_fn_loop fn n acc s
  = match time_fn_loop fn n [] s with
    | Return (results, s') => Return (acc ++ results, s')
    | Raise e => Raise e
    | Unfinished => Unfinished
    end.
Proof.
  induction n as [|n IH]; intros acc s; simpl.
  - rewrite app_nil_r. reflexivity.
  - destruct (fn s) as [[r s1]| |]; try reflexivity.
    rewrite (IH (acc ++ [r])), (IH [r]).
    destruct (time_fn_loop fn n [] s1) as [[rs s2]| |]; try reflexivity.
    rewrite <- app_assoc. reflexivity.
Qed.

Lemma time_fn_loop_returns n : forall s results s',
  time_fn_loop fn n [] s = Return (results, s') <->
  exists obs, chained fn s obs s' /\ List.map snd obs = results /\
              List.length obs = n.
Proof.
  induction n as [|n IH]; intros s results s'; simpl.
  - split.
    + intros [= <- <-]. exists []. repeat split. constructor.
    + intros (obs & Hch & <- & Hlen). destruct obs; [|discriminate].
      inversion Hch. reflexivity.
  - split.
    + destruct (fn s) as [[r s1]| |] eqn:Hfn; try discriminate.
      rewrite time_fn_loop_results.
      destruct (time_fn_loop fn n [] s1) as [[rs s2]| |] eqn:Hrest; try discriminate.
      intros [= <- <-]. apply IH in Hrest as (obs & Hch & <- & <-).
      exists ((s, r) :: obs). repeat split. econstructor; eassumption.
    + intros (obs & Hch & <- & Hlen). destruct obs as [|[s0 r] obs]; [discriminate|].
      inversion Hch as [|? ? s1 ? ? Hfn Hch']; subst. rewrite Hfn.
      injection Hlen as Hlen. rewrite time_fn_loop_results.
      rewrite (proj2 (IH s1 (List.map snd obs) s')); [reflexivity|].
      exists obs. auto.
Qed.

Lemma time_fn_loop_raises n : forall s e,
  time_fn_loop fn n [] s = Raise e <->
  exists obs s1, chained fn s obs s1 /\ (List.length obs < n)%nat /\
                 fn s1 = Raise e.
Proof.
  induction n as [|n IH]; intros s e; simpl.
  - split; [discriminate|]. intros (obs & s1 & _ & Hlen & _). lia.
  - split.
    + destruct (fn s) as [[r s1]| |] eqn:Hfn; try discriminate.
      * rewrite time_fn_loop_results.
        destruct (time_fn_loop fn n [] s1) as [[rs s2]| |] eqn:Hrest; try discriminate.
        intros [= <-]. apply IH in Hrest as (obs & s2 & Hch & Hlen & Hraise).
        exists ((s, r) :: obs), s2. repeat split; [|simpl; lia | exact Hraise].
        econstructor; eassumption.
      * intros [= <-]. exists [], s. repeat split; [constructor | simpl; lia | exact Hfn].
    + intros (obs & s1 & Hch & Hlen & Hraise).
      inversion Hch as [|? r s2 obs' ? Hfn Hch']; subst.
      * rewrite Hraise. reflexivity.
      * rewrite Hfn. simpl in Hlen. rewrite time_fn_loop_results.
        rewrite (proj2 (IH s2 e)); [reflexivity|].
        exists obs', s1. repeat split; [exact Hch' | lia | exact Hraise].
Qed.

(** X15.  [time_fn] returns exactly when [repeats] successive calls of [fn]
    return, each starting in the state the one before left, and then hands
    back their samples in the order of the calls; it raises exactly what the
    first call that raises does, after fewer than [repeats] calls; and for
    [repeats <= 0] it returns the empty list without calling [fn]. *)
Theorem time_fn_takes_one_sample_per_call (repeats : Z) (s : S) :
  (forall results s',
     time_fn fn repeats s = Return (results, s') <->
     exists obs, chained fn s obs s' /\ List.map snd obs = results /\
                 List.length obs = Z.to_nat repeats) /\
  (forall e,
     time_fn fn repeats s = Raise e <->
     exists obs s1, chained fn s obs s1 /\
                    (List.length obs < Z.to_nat repeats)%nat /\
                    fn s1 = Raise e) /\
  (repeats <= 0 -> time_fn fn repeats s = Return ([], s)).
Proof.
  unfold time_fn. split; [|split].
  - intros results s'. apply time_fn_loop_returns.
  - intros e. apply time_fn_loop_raises.
  - intros Hle. replace (Z.to_nat repeats) with 0%nat by lia. reflexivity.
Qed.

Lemma time_fn_loop_plus a : forall b s,
  time_fn_loop fn (a + b) [] s
  = match time_fn_loop fn a [] s with
    | Return (first, s1) =>
        match time_fn_loop fn b [] s1 with
        | Return (second, s2) => Return (first ++ second, s2)
        | Raise e => Raise e
        | Unfinished => Unfinished
        end
    | Raise e => Raise e
    | Unfinished => Unfinished
    end.
Proof.
  induction a as [|a IH]; intros b s; simpl.
  - destruct (time_fn_loop fn b [] s) as [[rs s2]| |]; reflexivity.
  - destruct (fn s) as [[r s1]| |]; try reflexivity.
    rewrite (time_fn_loop_results (a + b) [r]), (time_fn_loop_results a [r]), IH.
    destruct (time_fn_loop fn a [] s1) as [[rs1 s2]| |]; try reflexivity.
    destruct (time_fn_loop fn b [] s2) as [[rs2 s3]| |]; reflexivity.
Qed.

(** X16.  Measuring [a + b] repetitions is measuring [a] and then [b] on the
    state the first measurement left, with the samples of the first in
    front. *)
Theorem time_fn_of_a_sum_is_two_measurements (a b : Z) (s : S) :
  0 <= a -> 0 <= b ->
  time_fn fn (a + b) s
  = match time_fn fn a s with
    | Return (first, s1) =>
        match time_fn fn b s1 with
        | Return (second, s2) => Return (first ++ second, s2)
        | Raise e => Raise e
        | Unfinished => Unfinished
        end
    | Raise e => Raise e
    | Unfinished => Unfinished
    end.
Proof.
  intros Ha Hb. unfold time_fn. rewrite Z2Nat.inj_add by assumption.
  apply time_fn_loop_plus.
Qed.

End TimeFn.

(** ** The whole of [main] *)

Section MainFacts.
Context `{Web}.













End MainFacts.

(** ** The semaphore, and a pool thread on its own *)

Module LoopRuns.
Import AsyncCrawler.

Section WithWeb.
Context `{Web}.

Lemma loop_step_flows concurrency c l :
  loop_flows concurrency l -> loop_flows concurrency (step c l).
Proof.
  intros Hflows. destruct c as [|i].
  - destruct (ready l) as [|h r] eqn:Hr.
    + simpl. rewrite Hr. exact Hflows.
    + apply (LoopFacts.run_head_flows concurrency l h r Hflows Hr).
  - simpl. destruct (tasks l !! i) as [[| |url|]|]; try exact Hflows.
    destruct (bool_decide (i ∈ ready l)); [exact Hflows|].
    destruct Hflows as (Hlen & Hw & Hacq & Hsem & Hcr).
    repeat split; auto. intros j Hj. cbn [ready set_ready].
    apply in_or_app. left. apply Hcr, Hj.
Qed.

Lemma loop_steps_flows concurrency st tape :
  0 <= concurrency ->
  loop_flows concurrency (steps tape (start concurrency st)).
Proof.
  intros Hc. apply LoopFacts.loop_steps_invariant;
    [apply loop_step_flows | apply LoopFacts.start_flows, Hc].
Qed.

(** X18.  During [crawl] no worker ever waits for the semaphore, under any
    schedule: the semaphore has as many slots as there are workers, its free
    slots are those of the workers without a GET out, and it never runs
    out. *)
Theorem semaphore_never_holds_a_worker_up (concurrency : Z) (st : t)
    (tape : list choice) :
  0 <= concurrency ->
  let l := steps tape (start concurrency st) in
  waiters l = [] /\
  (forall i url, tasks l !! i <> Some (Acquiring url)) /\
  sem l = concurrency - Z.of_nat (fetching l) /\
  0 <= sem l.
Proof.
  intros Hc l.
  destruct (loop_steps_flows concurrency st tape Hc) as (Hlen & Hw & Hacq & Hsem & _).
  fold l in Hlen, Hw, Hacq, Hsem.
  repeat split; auto. pose proof (LoopFacts.fetching_bound l). lia.
Qed.

Lemma at_most_one_fetching (ts : list task) :
  (forall i j k k', ts !! i = Some k -> ts !! j = Some k' ->
                    is_fetching k = true -> is_fetching k' = true -> i = j) ->
  (List.length (List.filter is_fetching ts) <= 1)%nat.
Proof.
  induction ts as [|k ts IH]; intros Hone; simpl; [lia|].
  assert (Hrest : forall i j k1 k2, ts !! i = Some k1 -> ts !! j = Some k2 ->
                    is_fetching k1 = true -> is_fetching k2 = true -> i = j).
  { intros i j k1 k2 Hi Hj H1 H2.
    specialize (Hone (S i) (S j) k1 k2 Hi Hj H1 H2). lia. }
  specialize (IH Hrest). destruct (is_fetching k) eqn:Hk; [|exact IH].
  assert (Hnone : List.filter is_fetching ts = []).
  { destruct (List.filter is_fetching ts) as [|k' rest] eqn:Hf; [reflexivity|].
    exfalso.
    assert (Hin : In k' (List.filter is_fetching ts)) by (rewrite Hf; left; reflexivity).
    apply List.filter_In in Hin as [Hin Hk'].
    apply list_elem_of_In, list_elem_of_lookup_1 in Hin as [j Hj].
    specialize (Hone 0%nat (S j) k k' eq_refl Hj Hk Hk'). discriminate. }
  rewrite Hnone. simpl. lia.
Qed.

(** X20.  From an engine with at most one pending URL below the budget, as
    the constructor and every returned run leave it, the event loop never has
    more than one GET out, under any schedule and with any number of
    workers. *)
Theorem asyncio_has_one_get_in_flight_at_most (concurrency : Z) (st : t)
    (tape : list choice) :
  async_settled st ->
  (fetching (steps tape (start concurrency st)) <= 1)%nat.
Proof.
  intros Hst.
  assert (Hb : loop_bounded (max_pages st) (steps tape (start concurrency st)))
    by (apply LoopFacts.loop_steps_invariant;
        [apply LoopFacts.loop_step_bounded | apply LoopFacts.loop_start_bounded, Hst]).
  destruct Hb as (_ & _ & fl & pre & post & _ & _ & _ & Hone & _).
  apply at_most_one_fetching. intros i j k k' Hi Hj Hk Hk'.
  assert (Hfi : fl = Some i) by (apply (Hone i k Hi); destruct k; auto; discriminate).
  assert (Hfj : fl = Some j) by (apply (Hone j k' Hj); destruct k'; auto; discriminate).
  congruence.
Qed.

End WithWeb.
End LoopRuns.

Module PoolThreads.
Import ThreadedCrawler.

Section WithWeb.
Context `{Web}.

Lemma parse_alone i url hrefs : forall p,
  jobs p !! i = Some (ToParse url hrefs) ->
  let p' := steps (replicate (S (List.length hrefs)) (Worker i)) p in
  jobs p' = <[ i := Finished ]> (jobs p) /\
  engine p' = fold_left enqueue_link hrefs (engine p) /\
  futures p' = futures p /\ at_main p' = at_main p.
Proof.
  induction hrefs as [|href hrefs IH]; intros p Hi; simpl.
  - unfold worker_step. rewrite Hi. simpl. auto.
  - assert (Hstep : worker_step i p
                    = set_job i (ToParse url hrefs)
                        (set_engine (enqueue_link (engine p) href) p))
      by (unfold worker_step; rewrite Hi; reflexivity).
    assert (Hnext : jobs (worker_step i p) !! i = Some (ToParse url hrefs)).
    { rewrite Hstep. simpl. apply list_lookup_insert_eq. eapply lookup_lt_Some, Hi. }
    destruct (IH _ Hnext) as (Hj & He & Hf & Ha).
    simpl in Hj, He, Hf, Ha. rewrite Hj, He, Hf, Ha, Hstep. simpl.
    rewrite list_insert_insert_eq. auto.
Qed.

(** X19.  A pool thread that runs a submitted job without interruption
    leaves the engine as one call of [fetch_and_parse] on the job's URL does,
    and the job finished; the futures and the caller are not touched. *)
Theorem pool_thread_runs_fetch_and_parse (i : nat) (url : string) (p : pool) :
  jobs p !! i = Some (ToFetch url) ->
  exists n,
    let p' := steps (replicate n (Worker i)) p in
    jobs p' = <[ i := Finished ]> (jobs p) /\
    engine p' = fetch_and_parse (engine p) url /\
    futures p' = futures p /\ at_main p' = at_main p.
Proof.
  intros Hi. unfold fetch_and_parse.
  destruct (truthy (fetch url)) eqn:Hhtml.
  - assert (Hstep : worker_step i p
                    = set_job i (ToParse url (find_all_a_href (fetch url)))
                        (set_engine (save_page (log_request url (engine p)) url
                                       (fetch url)) p))
      by (unfold worker_step; rewrite Hi, Hhtml; reflexivity).
    assert (Hnext : jobs (worker_step i p) !! i
                    = Some (ToParse url (find_all_a_href (fetch url)))).
    { rewrite Hstep. simpl. apply list_lookup_insert_eq. eapply lookup_lt_Some, Hi. }
    destruct (parse_alone i _ _ _ Hnext) as (Hj & He & Hf & Ha).
    exists (S (S (List.length (find_all_a_href (fetch url))))).
    cbv zeta. rewrite replicate_S, PoolFacts.pool_steps_cons.
    change (step (Worker i) p) with (worker_step i p).
    rewrite Hj, He, Hf, Ha, Hstep. simpl. rewrite list_insert_insert_eq. auto.
  - exists 1%nat. simpl. unfold worker_step. rewrite Hi, Hhtml. simpl. auto.
Qed.

End WithWeb.
End PoolThreads.

(** ** The thread pool from a single pending URL *)

Module PoolOrder.
Import ThreadedCrawler.

Section WithWeb.
Context `{Web}.

Lemma finish_job_frame st j :
  pages_crawled (finish_job st j) = pages_crawled st /\
  max_pages (finish_job st j) = max_pages st.
Proof.
  destruct j as [url|url hrefs|]; simpl; [| |auto].
  - unfold fetch_and_parse. destruct (truthy (fetch url)); [|auto].
    apply (parse_counters (log_request url st)).
  - destruct (threaded_links_closed hrefs st) as (_ & _ & -> & -> & _). auto.
Qed.

Lemma finish_jobs_frame js : forall st,
  pages_crawled (fold_left finish_job js st) = pages_crawled st /\
  max_pages (fold_left finish_job js st) = max_pages st.
Proof.
  induction js as [|j js IH]; intros st; simpl; [auto|].
  destruct (IH (finish_job st j)) as [-> ->]. apply finish_job_frame.
Qed.

Lemma finish_jobs_finished js : forall st,
  forallb job_finished js = true ->
  fold_left finish_job js st = st /\ List.map (fun _ => Finished) js = js.
Proof.
  induction js as [|j js IH]; intros st; simpl; [auto|]. intros Hall.
  apply andb_prop in Hall as [Hj Hjs]. destruct j; try discriminate. simpl.
  destruct (IH st Hjs) as [-> ->]. auto.
Qed.

Lemma complete_finished p :
  forallb job_finished (jobs p) = true -> complete p = p.
Proof.
  intros Hall. unfold complete.
  destruct (finish_jobs_finished (jobs p) (engine p) Hall) as [-> ->].
  destruct p; reflexivity.
Qed.

Lemma complete_jobs_finished p : forallb job_finished (jobs (complete p)) = true.
Proof.
  unfold complete. cbn [jobs]. induction (jobs p) as [|j js IH]; simpl; auto.
Qed.

Lemma complete_idempotent p : complete (complete p) = complete p.
Proof. apply complete_finished, complete_jobs_finished. Qed.

(** With one unfinished job at most, finishing all jobs is finishing that
    one. *)
Lemma finish_the_one js : forall i j st,
  js !! i = Some j ->
  (forall k j', js !! k = Some j' -> k <> i -> j' = Finished) ->
  fold_left finish_job js st = finish_job st j.
Proof.
  induction js as [|x js IH]; intros [|i] j st Hi Hothers; simpl in *;
    try discriminate.
  - injection Hi as ->. apply finish_jobs_finished.
    apply forallb_forall. intros y Hy.
    apply list_elem_of_In, list_elem_of_lookup_1 in Hy as [k Hk].
    rewrite (Hothers (S k) y Hk); [reflexivity | discriminate].
  - rewrite (Hothers 0%nat x eq_refl); [|discriminate]. simpl.
    apply (IH i j st Hi). intros k j' Hk Hne. apply (Hothers (S k) j' Hk). lia.
Qed.

Lemma insert_the_one (js : list job) i j :
  (forall k j', js !! k = Some j' -> k <> i -> j' = Finished) ->
  forall k j', <[ i := j ]> js !! k = Some j' -> k <> i -> j' = Finished.
Proof.
  intros Hothers k j' Hk Hne. rewrite list_lookup_insert_ne in Hk by congruence.
  eapply Hothers; eassumption.
Qed.

(** A move of a pool thread does not change what the pool comes to. *)
Lemma worker_step_complete i p :
  (forall k k' j j', jobs p !! k = Some j -> jobs p !! k' = Some j' ->
                     j <> Finished -> j' <> Finished -> k = k') ->
  complete (worker_step i p) = complete p.
Proof.
  intros Hone.
  destruct (jobs p !! i) as [j|] eqn:Hi;
    [|rewrite PoolFacts.worker_step_noop; auto].
  destruct (job_finished j) eqn:Hj.
  { destruct j; try discriminate. rewrite PoolFacts.worker_step_noop; auto. }
  assert (Hothers : forall k j', jobs p !! k = Some j' -> k <> i -> j' = Finished).
  { intros k j' Hk Hne. destruct j' as [u|u hs|]; [| |reflexivity]; exfalso; apply Hne.
    - apply (Hone k i _ j Hk Hi); [discriminate | intros ->; discriminate].
    - apply (Hone k i _ j Hk Hi); [discriminate | intros ->; discriminate]. }
  assert (Hlt : (i < List.length (jobs p))%nat) by (eapply lookup_lt_Some, Hi).
  unfold complete.
  destruct (PoolFacts.worker_step_frame i p) as (_ & _ & -> & -> & Hlen).
  rewrite (finish_the_one (jobs p) i j (engine p) Hi Hothers).
  assert (Hmap : List.map (fun _ => Finished) (jobs (worker_step i p))
                 = List.map (fun _ => Finished) (jobs p)).
  { apply list_eq. intros k. rewrite !list_lookup_fmap.
    destruct (PoolFacts.worker_step_jobs i p) as (j' & -> & _).
    destruct (decide (k = i)) as [->|Hne].
    - rewrite list_lookup_insert_eq by exact Hlt. rewrite Hi. reflexivity.
    - rewrite list_lookup_insert_ne by congruence. reflexivity. }
  rewrite Hmap. f_equal.
  unfold worker_step. rewrite Hi.
  destruct j as [url|url [|href hrefs]|]; try discriminate.
  - destruct (truthy (fetch url)) eqn:Hhtml; cbn [engine jobs set_job set_engine].
    + erewrite finish_the_one;
        [| apply list_lookup_insert_eq, Hlt | apply insert_the_one, Hothers].
      simpl. unfold fetch_and_parse, parse. rewrite Hhtml. reflexivity.
    + erewrite finish_the_one;
        [| apply list_lookup_insert_eq, Hlt | apply insert_the_one, Hothers].
      simpl. unfold fetch_and_parse. rewrite Hhtml. reflexivity.
  - cbn [engine jobs set_job].
    erewrite finish_the_one;
      [| apply list_lookup_insert_eq, Hlt | apply insert_the_one, Hothers].
    reflexivity.
  - cbn [engine jobs set_job set_engine].
    erewrite finish_the_one;
      [| apply list_lookup_insert_eq, Hlt | apply insert_the_one, Hothers].
    reflexivity.
Qed.

Lemma not_all_finished (js : list job) :
  forallb job_finished js = false ->
  exists i j, js !! i = Some j /\ j <> Finished.
Proof.
  induction js as [|x js IH]; simpl; [discriminate|].
  destruct (job_finished x) eqn:Hx; simpl.
  - intros Hjs. destruct (IH Hjs) as (i & j & Hi & Hj). exists (S i), j. auto.
  - intros _. exists 0%nat, x. split; [reflexivity|]. intros ->. discriminate.
Qed.

Lemma pool_single_one entry p :
  pool_single entry p ->
  (forall k j, jobs p !! k = Some j -> j <> Finished -> futures p = [k]).
Proof.
  intros (_ & (Hlisted & _) & Hk) k j Hj Hn.
  assert (Hin : In k (futures p)).
  { destruct (List.in_dec Nat.eq_dec k (futures p)) as [Hin|Hout]; [exact Hin|].
    exfalso. apply Hn. eapply Hlisted; eassumption. }
  assert (Hlen : (List.length (futures p) <= 1)%nat)
    by (unfold pool_refills in Hk; destruct (at_main p); lia).
  destruct (futures p) as [|f [|f' fs]]; simpl in *; [tauto | | lia].
  destruct Hin as [->|[]]. reflexivity.
Qed.

(** A move of the caller either leaves what the pool comes to, or is the
    next round of the pool taken one job at a time. *)
Lemma main_step_complete entry p :
  pool_single entry p ->
  complete (main_step p) = complete p \/
  complete (main_step p) = pool_round (complete p).
Proof.
  intros Hinv. destruct (forallb job_finished (jobs p)) eqn:Hall.
  { right. unfold pool_round. rewrite (complete_finished p Hall). reflexivity. }
  destruct (not_all_finished _ Hall) as (i & j & Hi & Hj).
  pose proof (pool_single_one entry p Hinv i j Hi Hj) as Hfut.
  destruct Hinv as ((_ & _ & Hdone & _) & (_ & Hfin & _) & Hk).
  unfold pool_refills in Hk. unfold pool_round.
  destruct (finish_jobs_frame (jobs p) (engine p)) as [Hpages Hmax].
  assert (Hmove : forall c,
            main_step p = set_at_main c p ->
            main_step (complete p) = set_at_main c (complete p) ->
            complete (main_step p) = complete (main_step (complete p))).
  { intros c -> ->.
    change (complete (set_at_main c p)) with (set_at_main c (complete p)).
    change (complete (set_at_main c (complete p)))
      with (set_at_main c (complete (complete p))).
    rewrite complete_idempotent. reflexivity. }
  assert (Hat' : at_main (complete p) = at_main p) by reflexivity.
  assert (Hfut' : futures (complete p) = futures p) by reflexivity.
  assert (Heng' : engine (complete p) = fold_left finish_job (jobs p) (engine p))
    by reflexivity.
  destruct (at_main p) as [[|n]| |[|fut done]| |] eqn:Hat.
  - right. apply (Hmove Loop); unfold main_step; rewrite ?Hat', ?Hat; reflexivity.
  - rewrite Hfut in Hk. simpl in Hk. lia.
  - destruct (bool_decide (futures p ≠ [])
              && (pages_crawled (engine p) <? max_pages (engine p))) eqn:Hg.
    + left. unfold main_step. rewrite Hat, Hg, Hfut. simpl. unfold future_done.
      rewrite Hi. destruct j; [reflexivity | reflexivity | contradiction].
    + right. apply (Hmove Shutdown); unfold main_step;
        rewrite ?Hat', ?Hat, ?Hfut', ?Heng', ?Hpages, ?Hmax, Hg; reflexivity.
  - right. apply (Hmove Loop); unfold main_step; rewrite ?Hat', ?Hat; reflexivity.
  - exfalso. destruct Hdone as (_ & Hin).
    specialize (Hin fut (or_introl eq_refl)). rewrite Hfut in Hin.
    destruct Hin as [<-|[]].
    specialize (Hfin i (or_introl eq_refl)). congruence.
  - left. unfold main_step. rewrite Hat, Hall. reflexivity.
  - left. unfold main_step. rewrite Hat. reflexivity.
Qed.

Lemma pool_step_single entry c p :
  pool_single entry p -> pool_single entry (step c p).
Proof.
  intros (Ha & Hi & Hk). split; [apply PoolFacts.step_accounts, Ha|].
  split; [apply PoolFacts.pool_step_idles, Hi|].
  eapply PoolRuns.pool_step_refills; eassumption.
Qed.

Lemma pool_start_single max_workers st :
  0 < max_workers -> (List.length (queue st) <= 1)%nat ->
  pool_single (pages_crawled st) (start max_workers st).
Proof.
  intros Hw Hq. split; [apply PoolFacts.start_accounts|].
  split; [apply PoolFacts.pool_start_idles, Hw|].
  unfold pool_refills, start. simpl. lia.
Qed.

(** Every run is a run of the pool taken one job at a time. *)
Lemma pool_steps_rounds entry tape : forall p,
  pool_single entry p ->
  exists n, complete (steps tape p) = Nat.iter n pool_round (complete p).
Proof.
  induction tape as [|c tape IH]; intros p Hinv.
  - exists 0%nat. reflexivity.
  - rewrite PoolFacts.pool_steps_cons.
    destruct (IH (step c p) (pool_step_single entry c p Hinv)) as (n & ->).
    destruct c as [|i]; simpl.
    + destruct (main_step_complete entry p Hinv) as [-> | ->].
      * exists n. reflexivity.
      * exists (S n). rewrite Nat.iter_swap. reflexivity.
    + exists n. rewrite worker_step_complete; [reflexivity|].
      intros k k' j j' Hk Hk' Hj Hj'.
      pose proof (pool_single_one entry p Hinv k j Hk Hj) as H1.
      pose proof (pool_single_one entry p Hinv k' j' Hk' Hj') as H2.
      congruence.
Qed.

Lemma pool_round_returned p :
  at_main p = Returned -> forallb job_finished (jobs p) = true ->
  forall n, Nat.iter n pool_round p = p.
Proof.
  intros Hret Hall. induction n as [|n IH]; simpl; [reflexivity|].
  rewrite IH. unfold pool_round, main_step. rewrite Hret.
  apply complete_finished, Hall.
Qed.

(** X22.  From an engine with at most one pending URL, the engine that
    [crawl_threaded] hands back is the same for every schedule and every
    number of workers. *)
Theorem pool_result_does_not_depend_on_the_schedule (st : t)
    (max_workers1 max_workers2 : Z) (tape1 tape2 : list choice)
    (st1 st2 : t) (rest1 rest2 : list choice) :
  (List.length (queue st) <= 1)%nat ->
  crawl_threaded max_workers1 (st, tape1) = Return (tt, (st1, rest1)) ->
  crawl_threaded max_workers2 (st, tape2) = Return (tt, (st2, rest2)) ->
  st1 = st2.
Proof.
  intros Hq Hrun1 Hrun2.
  assert (Hw : forall w t s r,
            crawl_threaded w (st, t) = Return (tt, (s, r)) -> 0 < w).
  { intros w t s r Hrun. unfold crawl_threaded in Hrun.
    destruct (w <=? 0) eqn:Hw; [discriminate | apply Z.leb_gt, Hw]. }
  pose proof (Hw _ _ _ _ Hrun1) as Hw1. pose proof (Hw _ _ _ _ Hrun2) as Hw2.
  assert (Hstart : start max_workers2 st = start max_workers1 st).
  { unfold start. f_equal. f_equal. lia. }
  apply crawl_threaded_returned in Hrun1 as (used1 & -> & Hret1).
  apply crawl_threaded_returned in Hrun2 as (used2 & -> & Hret2).
  rewrite Hstart in *.
  set (p0 := start max_workers1 st) in *.
  pose proof (pool_start_single max_workers1 st Hw1 Hq) as Hinv. fold p0 in Hinv.
  pose proof (PoolTraces.pool_returned_finished max_workers1 st used1 Hret1) as Hall1.
  pose proof (PoolTraces.pool_returned_finished max_workers1 st used2 Hret2) as Hall2.
  fold p0 in Hall1, Hall2.
  destruct (pool_steps_rounds _ used1 p0 Hinv) as (n1 & H1).
  destruct (pool_steps_rounds _ used2 p0 Hinv) as (n2 & H2).
  rewrite (complete_finished _ Hall1) in H1.
  rewrite (complete_finished _ Hall2) in H2.
  assert (Hsame : steps used1 p0 = steps used2 p0).
  { destruct (Nat.le_ge_cases n1 n2) as [Hle|Hle].
    - replace n2 with ((n2 - n1) + n1)%nat in H2 by lia.
      rewrite Nat.iter_add, <- H1 in H2.
      rewrite (pool_round_returned _ Hret1 Hall1) in H2. congruence.
    - replace n1 with ((n1 - n2) + n2)%nat in H1 by lia.
      rewrite Nat.iter_add, <- H2 in H1.
      rewrite (pool_round_returned _ Hret2 Hall2) in H1. congruence. }
  rewrite Hsame. reflexivity.
Qed.

End WithWeb.
End PoolOrder.

(** ** The event loop from a single pending URL *)

Module LoopOrder.
Import AsyncCrawler.

Section WithWeb.
Context `{Web}.

Lemma finish_tasks_idle ts : forall st,
  (forall i k, ts !! i = Some k -> in_flight k = false) ->
  fold_left finish_task ts st = st.
Proof.
  induction ts as [|k ts IH]; intros st Hidle; simpl; [reflexivity|].
  pose proof (Hidle 0%nat k eq_refl) as Hk.
  destruct k; try discriminate; simpl; apply IH; intros i k Hi;
    apply (Hidle (S i) k Hi).
Qed.

Lemma finish_the_task ts : forall h k st,
  ts !! h = Some k ->
  (forall i k', ts !! i = Some k' -> i <> h -> in_flight k' = false) ->
  fold_left finish_task ts st = finish_task st k.
Proof.
  induction ts as [|x ts IH]; intros [|h] k st Hh Hothers; simpl in *;
    try discriminate.
  - injection Hh as ->. apply finish_tasks_idle. intros i k' Hi.
    apply (Hothers (S i) k' Hi). discriminate.
  - assert (Hx : in_flight x = false) by (apply (Hothers 0%nat x eq_refl); discriminate).
    assert (Hid : finish_task st x = st) by (destruct x; try discriminate; reflexivity).
    rewrite Hid. apply (IH h k st Hh). intros i k' Hi Hne.
    apply (Hothers (S i) k' Hi). lia.
Qed.

Lemma resume_unfold i url l :
  resume i url l
  = enter i (set_crawler (finish_round (crawler (release l)) url) (release l)).
Proof. reflexivity. Qed.

Lemma worker_guard_false st :
  max_pages st <= pages st \/ queue st = [] -> worker_guard st = false.
Proof.
  unfold worker_guard. intros [Hfull|Hq]; apply andb_false_iff.
  - left. apply Z.ltb_ge, Hfull.
  - right. apply bool_decide_eq_false. intros Hn. apply Hn, Hq.
Qed.

Lemma worker_guard_true st url rest :
  queue st = url :: rest -> pages st < max_pages st -> worker_guard st = true.
Proof.
  unfold worker_guard. intros Hq Hlt. apply andb_true_iff. split.
  - apply Z.ltb_lt, Hlt.
  - apply bool_decide_eq_true. rewrite Hq. discriminate.
Qed.

Lemma not_exited_not_gathered (ts : list task) h k :
  ts !! h = Some k -> task_exited k = false -> forallb task_exited ts = false.
Proof.
  intros Hh Hk. destruct (forallb task_exited ts) eqn:Hall; [|reflexivity].
  rewrite forallb_forall in Hall.
  rewrite Hall in Hk; [discriminate|].
  apply list_elem_of_In. eapply list_elem_of_lookup_2, Hh.
Qed.

(** What running the task at the head of the ready queue comes to. *)
Lemma run_head_settles B c l h r :
  loop_bounded B l -> loop_flows c l -> loop_drains l -> ready l = h :: r ->
  loop_drains (step Run l) /\
  (settle (step Run l) = settle l \/
   (worker_guard (settle l) = true /\
    settle (step Run l) = worker_round (settle l))).
Proof.
  intros (_ & _ & fl & pre & post & Hready & _ & Hpre & Hone & Hcase)
         (Hlen & Hw & Hacq & Hsem & Hcr) Hdrain Hr.
  simpl. rewrite Hr. unfold run_task. cbn [tasks set_ready].
  pose proof (LoopFacts.fetching_bound l) as Hfb.
  destruct (tasks l !! h) as [[|url|url|]|] eqn:Hh.
  - (* first run of a worker *)
    pose proof (LoopFacts.fetching_bound_other h Created l Hh eq_refl) as Hfree.
    assert (Hin : h ∈ pre) by (apply Hpre, Hh).
    destruct (LoopFacts.enter_flows h (set_ready r l))
      as [(Hstop & ->)|(url & rest & Hq & Hlt & ->)];
      [cbn [sem set_ready]; lia | exact Hw | |].
    + split.
      * intros _. apply worker_guard_false, Hstop.
      * left. unfold settle. cbn [tasks crawler set_task set_ready].
        clear -Hh. revert h Hh. generalize (crawler l) as st.
        induction (tasks l) as [|x ts IH]; intros st [|h] Hh; simpl in *;
          try discriminate.
        -- injection Hh as ->. reflexivity.
        -- apply IH, Hh.
    + cbn [crawler set_ready] in Hq, Hlt.
      assert (Hidle : forall i k, tasks l !! i = Some k -> in_flight k = false).
      { intros i k Hi. destruct (in_flight k) eqn:Hk; [|reflexivity]. exfalso.
        specialize (Hone i k Hi Hk). subst fl.
        destruct Hcase as (_ & Hempty & _).
        rewrite Hempty in Hq; [discriminate|]. intros ->. inversion Hin. }
      split.
      * intros Hall. exfalso. unfold gathered, begin_fetch in Hall.
        cbn [tasks set_task set_crawler] in Hall.
        rewrite (not_exited_not_gathered _ h (Fetching url)) in Hall;
          [discriminate | | reflexivity].
        apply list_lookup_insert_eq. eapply lookup_lt_Some, Hh.
      * right. unfold settle at 1 3.
        rewrite (finish_tasks_idle (tasks l) (crawler l) Hidle).
        split; [eapply worker_guard_true; eassumption|].
        unfold settle, begin_fetch. cbn [tasks crawler set_task set_crawler].
        erewrite finish_the_task;
          [| apply list_lookup_insert_eq; eapply lookup_lt_Some, Hh |].
        -- unfold worker_round. rewrite Hq. reflexivity.
        -- intros i k' Hi Hne. rewrite list_lookup_insert_ne in Hi by congruence.
           eapply Hidle, Hi.
  - exfalso. eapply Hacq, Hh.
  - (* the reply is there *)
    assert (Hfl : fl = Some h) by (apply (Hone h _ Hh); reflexivity).
    assert (Hothers : forall i k', tasks l !! i = Some k' -> i <> h ->
                                   in_flight k' = false).
    { intros i k' Hi Hne. destruct (in_flight k') eqn:Hk; [|reflexivity].
      specialize (Hone i k' Hi Hk). congruence. }
    assert (Hsettle : settle l = finish_round (crawler l) url).
    { unfold settle. rewrite (finish_the_task _ h _ _ Hh Hothers). reflexivity. }
    assert (Hrel : release (set_ready r l)
                   = mk_loop (crawler l) (tasks l) r (sem l + 1) []).
    { unfold release. cbn [waiters set_ready]. rewrite Hw. reflexivity. }
    set (s := finish_round (crawler l) url) in *.
    set (l2 := mk_loop s (tasks l) r (sem l + 1) []).
    assert (Hres : resume h url (set_ready r l) = enter h l2)
      by (rewrite resume_unfold, Hrel; reflexivity).
    rewrite Hres.
    destruct (LoopFacts.enter_flows h l2)
      as [(Hstop & ->)|(url2 & rest2 & Hq & Hlt & ->)];
      [cbn [sem l2]; lia | reflexivity | |].
    + cbn [crawler l2] in Hstop. split.
      * intros _. apply worker_guard_false, Hstop.
      * left. unfold settle. cbn [tasks crawler set_task l2].
        rewrite finish_tasks_idle; [symmetry; exact Hsettle|].
        intros i k Hi. apply list_lookup_insert_Some in Hi as [(_ & <- & _)|(Hne & Hi)];
          [reflexivity | eapply Hothers; eauto].
    + cbn [crawler l2] in Hq, Hlt. split.
      * intros Hall. exfalso. unfold gathered, begin_fetch in Hall.
        cbn [tasks set_task set_crawler l2] in Hall.
        rewrite (not_exited_not_gathered _ h (Fetching url2)) in Hall;
          [discriminate | | reflexivity].
        apply list_lookup_insert_eq. eapply lookup_lt_Some, Hh.
      * right. rewrite Hsettle.
        split; [eapply worker_guard_true; eassumption|].
        unfold settle, begin_fetch. cbn [tasks crawler set_task set_crawler l2].
        erewrite finish_the_task;
          [| apply list_lookup_insert_eq; eapply lookup_lt_Some, Hh |].
        -- unfold worker_round. rewrite Hq. reflexivity.
        -- intros i k' Hi Hne. rewrite list_lookup_insert_ne in Hi by congruence.
           eapply Hothers; eauto.
  - split; [exact Hdrain | left; reflexivity].
  - split; [exact Hdrain | left; reflexivity].
Qed.

Lemma loop_step_settles B c ch l :
  loop_single B c l ->
  loop_single B c (step ch l) /\
  (settle (step ch l) = settle l \/ settle (step ch l) = worker_turn (settle l)).
Proof.
  intros (Hb & Hf & Hd).
  assert (Hinv : loop_bounded B (step ch l) /\ loop_flows c (step ch l))
    by (split; [apply LoopFacts.loop_step_bounded, Hb
               | apply LoopRuns.loop_step_flows, Hf]).
  destruct Hinv as [Hb' Hf'].
  destruct ch as [|i].
  - destruct (ready l) as [|h r] eqn:Hr.
    + assert (Hsame : step Run l = l) by (simpl; rewrite Hr; reflexivity).
      rewrite Hsame. split; [split; [exact Hb | split; [exact Hf | exact Hd]]|].
      left. reflexivity.
    + destruct (run_head_settles B c l h r Hb Hf Hd Hr) as (Hd' & Hcase).
      split; [split; [exact Hb' | split; [exact Hf' | exact Hd']]|].
      destruct Hcase as [Hsame|[Hg Hround]]; [left; exact Hsame | right].
      unfold worker_turn. rewrite Hg. exact Hround.
  - assert (Hsame : crawler (step (Arrive i) l) = crawler l /\
                    tasks (step (Arrive i) l) = tasks l).
    { simpl. destruct (tasks l !! i) as [[| |url|]|]; auto.
      destruct (bool_decide (i ∈ ready l)); auto. }
    destruct Hsame as [Hc Ht].
    split; [|left; unfold settle; rewrite Hc, Ht; reflexivity].
    split; [exact Hb' | split; [exact Hf'|]].
    unfold loop_drains, gathered. rewrite Hc, Ht. exact Hd.
Qed.

Lemma loop_steps_turns B c tape : forall l,
  loop_single B c l ->
  loop_single B c (steps tape l) /\
  exists n, settle (steps tape l) = Nat.iter n worker_turn (settle l).
Proof.
  induction tape as [|ch tape IH]; intros l Hinv.
  - split; [exact Hinv|]. exists 0%nat. reflexivity.
  - rewrite LoopFacts.loop_steps_cons.
    destruct (loop_step_settles B c ch l Hinv) as (Hinv' & Hcase).
    destruct (IH _ Hinv') as (Hend & n & ->). split; [exact Hend|].
    destruct Hcase as [-> | ->].
    + exists n. reflexivity.
    + exists (S n). rewrite Nat.iter_swap. reflexivity.
Qed.

Lemma loop_start_single concurrency st :
  0 < concurrency -> async_settled st ->
  loop_single (max_pages st) concurrency (start concurrency st).
Proof.
  intros Hc Hst. split; [apply LoopFacts.loop_start_bounded, Hst|].
  split; [apply LoopFacts.start_flows; lia|].
  intros Hall. exfalso. unfold gathered, start in Hall. cbn [tasks] in Hall.
  destruct (Z.to_nat concurrency) as [|n] eqn:Hn; [lia | discriminate].
Qed.

Lemma settle_start concurrency st : settle (start concurrency st) = st.
Proof.
  unfold settle, start. cbn [tasks crawler].
  apply finish_tasks_idle. intros i k Hi.
  apply lookup_replicate in Hi as [-> _]. reflexivity.
Qed.

Lemma settle_gathered l : gathered l = true -> settle l = crawler l.
Proof.
  intros Hall. apply finish_tasks_idle. intros i k Hi.
  unfold gathered in Hall. rewrite forallb_forall in Hall.
  assert (Hk : task_exited k = true)
    by (apply Hall, list_elem_of_In; eapply list_elem_of_lookup_2, Hi).
  destruct k; try discriminate. reflexivity.
Qed.

Lemma worker_turn_rests st :
  worker_guard st = false -> forall n, Nat.iter n worker_turn st = st.
Proof.
  intros Hg. induction n as [|n IH]; simpl; [reflexivity|].
  rewrite IH. unfold worker_turn. rewrite Hg. reflexivity.
Qed.

(** What a returned call hands back: some number of turns of the loop of
    [worker], taken one after the other, and the guard of the loop false. *)
Lemma crawl_turns concurrency st tape st' rest :
  0 < concurrency -> async_settled st ->
  crawl concurrency (st, tape) = Return (tt, (st', rest)) ->
  worker_guard st' = false /\ exists n, st' = Nat.iter n worker_turn st.
Proof.
  intros Hc Hst Hrun. apply crawl_returned in Hrun as (used & -> & Hall).
  destruct (loop_steps_turns _ _ used _ (loop_start_single concurrency st Hc Hst))
    as ((_ & _ & Hd) & n & Hn).
  rewrite settle_start, (settle_gathered _ Hall) in Hn.
  split; [apply Hd, Hall | exists n; exact Hn].
Qed.

(** X24.  From an engine with at most one pending URL below the budget,
    [crawl] with any positive number of workers hands back, under every
    schedule, what the loop of a single [worker] comes to when its rounds are
    taken one after the other: some number of turns of that loop, at the
    end of which its guard is false (the budget is reached or nothing is
    pending). *)
Theorem asyncio_runs_the_loop_of_one_worker (st : t) (concurrency : Z)
    (tape : list choice) (st' : t) (rest : list choice) :
  async_settled st -> 0 < concurrency ->
  crawl concurrency (st, tape) = Return (tt, (st', rest)) ->
  (exists n, st' = Nat.iter n worker_turn st) /\
  (pages st' < max_pages st' -> queue st' = []).
Proof.
  intros Hst Hc Hrun.
  destruct (crawl_turns _ _ _ _ _ Hc Hst Hrun) as (Hg & Hn).
  split; [exact Hn|]. intros Hlt.
  unfold worker_guard in Hg. apply andb_false_iff in Hg as [Hge|Hq].
  - apply Z.ltb_ge in Hge. lia.
  - apply bool_decide_eq_false in Hq.
    destruct (queue st'); [reflexivity|]. exfalso. apply Hq. discriminate.
Qed.

(** X21.  From an engine with at most one pending URL below the budget, the
    engine that [crawl] hands back is the same for every schedule and every
    positive number of workers. *)
Theorem asyncio_result_does_not_depend_on_the_schedule (st : t)
    (concurrency1 concurrency2 : Z) (tape1 tape2 : list choice)
    (st1 st2 : t) (rest1 rest2 : list choice) :
  async_settled st -> 0 < concurrency1 -> 0 < concurrency2 ->
  crawl concurrency1 (st, tape1) = Return (tt, (st1, rest1)) ->
  crawl concurrency2 (st, tape2) = Return (tt, (st2, rest2)) ->
  st1 = st2.
Proof.
  intros Hst Hc1 Hc2 Hrun1 Hrun2.
  destruct (crawl_turns _ _ _ _ _ Hc1 Hst Hrun1) as (Hg1 & n1 & H1).
  destruct (crawl_turns _ _ _ _ _ Hc2 Hst Hrun2) as (Hg2 & n2 & H2).
  destruct (Nat.le_ge_cases n1 n2) as [Hle|Hle].
  - replace n2 with ((n2 - n1) + n1)%nat in H2 by lia.
    rewrite Nat.iter_add, <- H1, (worker_turn_rests _ Hg1) in H2. congruence.
  - replace n1 with ((n1 - n2) + n2)%nat in H1 by lia.
    rewrite Nat.iter_add, <- H2, (worker_turn_rests _ Hg2) in H1. congruence.
Qed.

End WithWeb.
End LoopOrder.

(** ** Worker counts out of range, and a run after a run *)

Section OtherRuns.
Context `{Web}.


(** X23.  After a returned call of [crawl] on an engine with at most one
    pending URL below the budget, a further run of the event loop on the
    engine handed back changes nothing, with any number of workers and under
    any schedule. *)
Theorem asyncio_run_after_a_run_changes_nothing (st : AsyncCrawler.t)
    (concurrency : Z) (tape : list AsyncCrawler.choice) (st' : AsyncCrawler.t)
    (rest : list AsyncCrawler.choice) :
  async_settled st -> 0 < concurrency ->
  AsyncCrawler.crawl concurrency (st, tape) = Return (tt, (st', rest)) ->
  forall concurrency' tape',
    AsyncCrawler.crawler
      (AsyncCrawler.steps tape' (AsyncCrawler.start concurrency' st')) = st'.
Proof.
  intros Hst Hc Hrun concurrency' tape'.
  destruct (LoopOrder.crawl_turns _ _ _ _ _ Hc Hst Hrun) as (Hg & _).
  assert (Hidle : AsyncCrawler.queue st' = [] \/
                  AsyncCrawler.max_pages st' <= AsyncCrawler.pages st').
  { unfold worker_guard in Hg. apply andb_false_iff in Hg as [Hlt|Hq].
    - right. apply Z.ltb_ge, Hlt.
    - left. apply bool_decide_eq_false in Hq.
      destruct (AsyncCrawler.queue st'); [reflexivity|]. exfalso. apply Hq. discriminate. }
  apply (LoopFacts.loop_steps_invariant (loop_rests st')
           (fun c l => LoopEdges.loop_step_rests st' c l Hidle) tape' _
           (LoopEdges.loop_start_rests concurrency' st')).
Qed.

End OtherRuns.

(** ** The sequential and the asyncio strategy on the same web *)

Section Strategies.
Context `{Web}.

(** No GET is answered with a 4xx or 5xx status. *)
Hypothesis no_error_status :
  forall url status text, http_get url = Reply status text -> ~ (400 <= status < 600).

(** Every link of every page is absolute: [urljoin] hands it back. *)
Hypothesis links_are_absolute :
  forall url html, Forall (fun href => urljoin url href = href) (find_all_a_href html).











End Strategies.

(** ** The sequential and the thread-pool strategy on the same web *)

Module Frontier.
Import ThreadedCrawler.

Section WithWeb.
Context `{Web}.

Lemma same_frontier_refl a : same_frontier a a.
Proof. repeat split. Qed.

Lemma same_frontier_sym a b : same_frontier a b -> same_frontier b a.
Proof. intros (? & ? & ? & ? & ? & ?). repeat split; congruence. Qed.

Lemma same_frontier_trans a b c :
  same_frontier a b -> same_frontier b c -> same_frontier a c.
Proof.
  intros (? & ? & ? & ? & ? & ?) (? & ? & ? & ? & ? & ?). repeat split; congruence.
Qed.

Lemma same_frontier_counter n a : same_frontier (set_pages_crawled n a) a.
Proof. repeat split. Qed.

(** [fetch_and_parse], field by field. *)
Lemma fetch_and_parse_fields st url :
  let st' := fetch_and_parse st url in
  queue st'
  = queue st ++ (if has_content url
                 then List.filter (wanted (visited st)) (find_all_a_href (fetch url))
                 else []) /\
  visited st' = visited st /\
  max_pages st' = max_pages st /\
  db_client st' = db_client st /\
  collection st'
  = collection st ++ (if db_client st && has_content url then [page_of url] else []) /\
  requests st' = requests st ++ [url] /\
  pages_crawled st' = pages_crawled st.
Proof.
  intros st'. subst st'. unfold fetch_and_parse, has_content.
  destruct (truthy (fetch url)).
  - destruct (threaded_parse_fields (log_request url st) url (fetch url))
      as (-> & -> & -> & -> & -> & -> & ->).
    unfold save_page, page_of. simpl.
    destruct (db_client st); simpl; rewrite ?app_nil_r; auto 10.
  - simpl. rewrite !app_nil_r, andb_false_r, app_nil_r. auto 10.
Qed.

Lemma advance_frontier a b :
  same_frontier a b -> same_frontier (advance a) (advance b).
Proof.
  intros (Hq & Hv & Hm & Hd & Hc & Hr). unfold advance. rewrite Hq.
  destruct (queue b) as [|url rest] eqn:Eb; [repeat split; congruence|].
  unfold same_frontier.
  destruct (fetch_and_parse_fields (add_visited url (set_queue rest a)) url)
    as (-> & -> & -> & -> & -> & -> & _).
  destruct (fetch_and_parse_fields (add_visited url (set_queue rest b)) url)
    as (-> & -> & -> & -> & -> & -> & _).
  simpl. rewrite Hv, Hm, Hd, Hc, Hr. repeat split.
Qed.

Lemma advances_frontier n : forall a b,
  same_frontier a b ->
  same_frontier (Nat.iter n advance a) (Nat.iter n advance b).
Proof.
  induction n as [|n IH]; intros a b Hab; [exact Hab|].
  rewrite !Nat.iter_succ. apply advance_frontier, IH, Hab.
Qed.

Lemma advance_requests st :
  requests (advance st) = requests st ++ take 1 (queue st).
Proof.
  unfold advance. destruct (queue st) as [|url rest]; simpl.
  - rewrite app_nil_r. reflexivity.
  - destruct (fetch_and_parse_fields (add_visited url (set_queue rest st)) url)
      as (_ & _ & _ & _ & _ & -> & _). reflexivity.
Qed.

Lemma advance_empty st : queue st = [] -> advance st = st.
Proof. intros Hq. unfold advance. rewrite Hq. reflexivity. Qed.

Lemma advances_empty n st : queue st = [] -> Nat.iter n advance st = st.
Proof.
  intros Hq. induction n as [|n IH]; [reflexivity|].
  rewrite Nat.iter_succ, IH. apply advance_empty, Hq.
Qed.

(** The GETs of fewer advances come first among those of more. *)
Lemma advances_requests j k st :
  (j <= k)%nat ->
  exists more,
    requests (Nat.iter k advance st) = requests (Nat.iter j advance st) ++ more.
Proof.
  induction 1 as [|k Hle (more & IH)].
  - exists []. rewrite app_nil_r. reflexivity.
  - exists (more ++ take 1 (queue (Nat.iter k advance st))).
    rewrite Nat.iter_succ, advance_requests, IH, app_assoc. reflexivity.
Qed.

(** A round of the sequential loop is one advance, counted or not. *)
Lemma single_body_advances st :
  single_guard st = true ->
  same_frontier (single_body st) (advance st) /\
  pages_crawled (single_body st)
  = pages_crawled st
    + (if has_content (hd ""%string (queue st)) then 1 else 0).
Proof.
  intros Hg. apply SingleFacts.single_guard_true in Hg as [Hq _].
  destruct (queue st) as [|url rest] eqn:Eq; [congruence|].
  rewrite (SingleTraces.single_body_round st url rest Eq).
  unfold advance. rewrite Eq. simpl hd.
  destruct (fetch_and_parse_fields (add_visited url (set_queue rest st)) url)
    as (_ & _ & _ & _ & _ & _ & Hp).
  unfold has_content.
  destruct (truthy (fetch url)); simpl.
  - split; [apply same_frontier_counter|]. rewrite Hp. reflexivity.
  - split; [apply same_frontier_refl|]. rewrite Hp. simpl. lia.
Qed.

(** The sequential loop is some number of advances, of which it has counted
    those with content. *)
Lemma crawl_single_advances st :
  exists n,
    same_frontier (crawl_single st) (Nat.iter n advance st) /\
    pages_crawled (crawl_single st) <= pages_crawled st + Z.of_nat n /\
    (Forall (fun u => has_content u = true)
            (drop (List.length (requests st)) (requests (crawl_single st))) ->
     pages_crawled (crawl_single st) = pages_crawled st + Z.of_nat n).
Proof.
  apply (SingleFacts.crawl_single_rounds
    (fun st st' => exists n,
       same_frontier st' (Nat.iter n advance st) /\
       pages_crawled st' <= pages_crawled st + Z.of_nat n /\
       (Forall (fun u => has_content u = true)
               (drop (List.length (requests st)) (requests st')) ->
        pages_crawled st' = pages_crawled st + Z.of_nat n))).
  - intros s _. exists 0%nat. simpl. split; [apply same_frontier_refl|].
    split; [lia | intros _; lia].
  - intros s s' Hg (n & Hsame & Hle & Heq).
    destruct (single_body_advances s Hg) as (Hround & Hcount).
    exists (S n). split; [|split].
    + rewrite Nat.iter_succ, <- Nat.iter_swap.
      eapply same_frontier_trans; [exact Hsame|].
      apply advances_frontier, Hround.
    + destruct (has_content _); lia.
    + intros Hall.
      apply SingleFacts.single_guard_true in Hg as [Hq _].
      destruct (queue s) as [|url rest] eqn:Eq; [congruence|].
      destruct (SingleTraces.single_body_trace s url rest Eq) as ((Hr & _) & _).
      destruct Hsame as (_ & _ & _ & _ & _ & Hreq).
      destruct (advances_requests 0 n (single_body s) (Nat.le_0_l n)) as (more & Hm).
      simpl in Hm.
      assert (Hs' : requests s' = requests s ++ url :: more)
        by (rewrite Hreq, Hm, Hr, <- app_assoc; reflexivity).
      rewrite Hs', drop_app_length in Hall.
      apply Forall_cons in Hall as [Hurl Hmore].
      simpl hd in Hcount. rewrite Hurl in Hcount.
      rewrite Heq; [lia|].
      rewrite Hs', Hr.
      replace (requests s ++ url :: more) with ((requests s ++ [url]) ++ more)
        by (rewrite <- app_assoc; reflexivity).
      rewrite drop_app_length. exact Hmore.
Qed.

Lemma pool_advances_same st p p' :
  jobs p' = jobs p -> engine p' = engine p ->
  pool_advances st p -> pool_advances st p'.
Proof.
  unfold pool_advances, complete. cbn [engine]. intros -> ->. auto.
Qed.

(** Submitting one more job, with no job under way, is one more advance. *)
Lemma dispatch_advances st p :
  forallb job_finished (jobs p) = true ->
  same_frontier (engine p) (Nat.iter (List.length (jobs p)) advance st) ->
  pool_advances st (dispatch p).
Proof.
  intros Hall Hsame. unfold pool_advances, dispatch.
  destruct (queue (engine p)) as [|url rest] eqn:Hq.
  - rewrite (PoolOrder.complete_finished p Hall). exact Hsame.
  - unfold complete. cbn [engine jobs]. rewrite fold_left_app. simpl.
    rewrite (proj1 (PoolOrder.finish_jobs_finished (jobs p) _ Hall)).
    rewrite length_app. simpl.
    replace (List.length (jobs p) + 1)%nat with (S (List.length (jobs p))) by lia.
    rewrite Nat.iter_succ.
    eapply same_frontier_trans; [|apply advance_frontier, Hsame].
    unfold advance. rewrite Hq. apply same_frontier_refl.
Qed.

Lemma pool_step_advances entry st c p :
  pool_single entry p -> pool_advances st p -> pool_advances st (step c p).
Proof.
  intros Hinv Hadv. destruct c as [|i]; simpl.
  2:{ unfold pool_advances. rewrite PoolOrder.worker_step_complete.
      - destruct (PoolFacts.worker_step_frame i p) as (_ & _ & _ & _ & ->). exact Hadv.
      - intros k k' j j' Hk Hk' Hj Hj'.
        pose proof (PoolOrder.pool_single_one entry p Hinv k j Hk Hj) as H1.
        pose proof (PoolOrder.pool_single_one entry p Hinv k' j' Hk' Hj') as H2.
        congruence. }
  destruct (forallb job_finished (jobs p)) eqn:Hall.
  - (* no job is under way *)
    assert (Hsame : same_frontier (engine p)
                      (Nat.iter (List.length (jobs p)) advance st)).
    { unfold pool_advances in Hadv.
      rewrite (PoolOrder.complete_finished p Hall) in Hadv. exact Hadv. }
    unfold main_step.
    destruct (at_main p) as [[|n]| |[|fut done]| |] eqn:Hat; cbv beta iota zeta.
    + apply (pool_advances_same st p); auto.
    + apply (pool_advances_same st (dispatch p)); [reflexivity.. |].
      apply dispatch_advances; assumption.
    + destruct (_ && _); [|apply (pool_advances_same st p); auto].
      destruct (List.filter _ _); [exact Hadv|].
      apply (pool_advances_same st p); auto.
    + apply (pool_advances_same st p); auto.
    + set (p1 := set_futures _ (set_engine _ p)).
      assert (H1 : same_frontier (engine p1)
                     (Nat.iter (List.length (jobs p1)) advance st)).
      { eapply same_frontier_trans; [|exact Hsame]. apply same_frontier_counter. }
      destruct (bool_decide (queue (engine p1) ≠ [])).
      * apply (pool_advances_same st (dispatch p1)); [reflexivity.. |].
        apply dispatch_advances; [exact Hall | exact H1].
      * apply (pool_advances_same st p1); [reflexivity.. |].
        unfold pool_advances.
        rewrite (PoolOrder.complete_finished p1 Hall). exact H1.
    + rewrite Hall. apply (pool_advances_same st p); auto.
    + exact Hadv.
  - (* a job is under way: the caller waits or moves on *)
    destruct (PoolOrder.not_all_finished _ Hall) as (i & j & Hi & Hj).
    pose proof (PoolOrder.pool_single_one entry p Hinv i j Hi Hj) as Hfut.
    destruct Hinv as ((_ & _ & Hdone & _) & (_ & Hfin & _) & Hk).
    unfold pool_refills in Hk. unfold main_step.
    destruct (at_main p) as [[|n]| |[|fut done]| |] eqn:Hat; cbv beta iota zeta.
    + apply (pool_advances_same st p); auto.
    + rewrite Hfut in Hk. simpl in Hk. lia.
    + destruct (_ && _); [|apply (pool_advances_same st p); auto].
      destruct (List.filter _ _); [exact Hadv|].
      apply (pool_advances_same st p); auto.
    + apply (pool_advances_same st p); auto.
    + exfalso. destruct Hdone as (_ & Hin).
      specialize (Hin fut (or_introl eq_refl)). rewrite Hfut in Hin.
      destruct Hin as [<-|[]].
      specialize (Hfin i (or_introl eq_refl)). congruence.
    + rewrite Hall. exact Hadv.
    + exact Hadv.
Qed.

Lemma pool_steps_advances max_workers st tape :
  0 < max_workers -> (List.length (queue st) <= 1)%nat ->
  let p := steps tape (start max_workers st) in
  pool_single (pages_crawled st) p /\ pool_advances st p.
Proof.
  intros Hw Hq.
  apply (PoolFacts.pool_steps_invariant
           (fun p => pool_single (pages_crawled st) p /\ pool_advances st p)).
  - intros c p [Hinv Hadv]. split; [apply PoolOrder.pool_step_single, Hinv|].
    eapply pool_step_advances; eassumption.
  - split; [apply PoolOrder.pool_start_single; assumption|].
    unfold pool_advances. simpl. apply same_frontier_refl.
Qed.

(** The GETs of [j] advances come first among those of [k] advances when
    [j <= k], or when nothing is pending after [k] of them. *)
Lemma advances_requests_upto j k st :
  (j <= k)%nat \/ queue (Nat.iter k advance st) = [] ->
  exists more,
    requests (Nat.iter k advance st) = requests (Nat.iter j advance st) ++ more.
Proof.
  intros [Hle|Hq]; [apply advances_requests, Hle|].
  destruct (Nat.le_ge_cases j k) as [Hle|Hge]; [apply advances_requests, Hle|].
  exists []. rewrite app_nil_r.
  replace j with ((j - k) + k)%nat by lia.
  rewrite Nat.iter_add, (advances_empty _ _ Hq). reflexivity.
Qed.

(** X26.  From an engine with at most one pending URL, the thread pool issues
    the GETs of [crawl_single] in the same order and stops at most one GET
    after it: the GETs of a returned [crawl_threaded] are the first of those
    of [crawl_single] followed by the URL that [crawl_single] leaves at the
    head of the queue.  If every GET of [crawl_single] returns content, its
    GETs are in turn the first of those of the pool, so that the two runs
    differ by that one GET at most. *)
Theorem pool_fetches_what_the_sequential_loop_fetches (max_workers : Z) (st : t)
    (tape : list choice) (st' : t) (rest : list choice) :
  (List.length (queue st) <= 1)%nat ->
  crawl_threaded max_workers (st, tape) = Return (tt, (st', rest)) ->
  (exists more,
     requests (crawl_single st) ++ take 1 (queue (crawl_single st))
     = requests st' ++ more) /\
  (Forall (fun u => has_content u = true)
          (drop (List.length (requests st)) (requests (crawl_single st))) ->
   exists more, requests st' = requests (crawl_single st) ++ more).
Proof.
  intros Hq Hrun.
  assert (Hw : 0 < max_workers).
  { unfold crawl_threaded in Hrun.
    destruct (max_workers <=? 0) eqn:Hw; [discriminate | apply Z.leb_gt, Hw]. }
  apply crawl_threaded_returned in Hrun as (used & -> & Hret).
  destruct (pool_steps_advances max_workers st used Hw Hq) as (Hinv & Hadv).
  set (p := steps used (start max_workers st)) in *.
  pose proof (PoolTraces.pool_returned_finished max_workers st used Hret) as Hall.
  fold p in Hall.
  unfold pool_advances in Hadv. rewrite (PoolOrder.complete_finished p Hall) in Hadv.
  destruct Hadv as (Hpq & _ & _ & _ & _ & Hpr).
  destruct Hinv as ((_ & _ & _ & Hpages) & (_ & _ & Hidle & Hleft) & Hk).
  unfold pool_refills in Hk. rewrite Hret in Hk, Hleft.
  set (np := List.length (jobs p)) in *.
  destruct (crawl_single_advances st) as (ns & (Hsq & _ & Hsm & _ & _ & Hsr) & Hsle & Hseq).
  pose proof (SingleFacts.crawl_single_guard st) as Hend.
  apply SingleFacts.single_guard_false in Hend.
  rewrite SingleFacts.crawl_single_max_pages in Hend.
  split.
  - rewrite Hpr, Hsr, Hsq, <- advance_requests, <- Nat.iter_succ.
    apply advances_requests_upto.
    destruct Hend as [Hempty|Hfull].
    + right. rewrite Nat.iter_succ, advance_empty; rewrite <- Hsq; exact Hempty.
    + left. destruct (Z.le_gt_cases (pages_crawled st) (max_pages st)) as [Hin|Hout].
      * assert (Hb : pages_crawled (engine p) <= max_pages st).
        { apply PoolFacts.crawl_threaded_within_budget. split; [exact Hin | left; exact Hq]. }
        subst np. lia.
      * assert (Hkicks : pool_kicks st (kickoff_rounds max_workers st) p).
        { apply PoolFacts.pool_steps_invariant;
            [intros c q; apply PoolEdges.pool_step_kicks;
               [unfold kickoff_rounds; lia | lia]
            | apply PoolEdges.pool_start_kicks]. }
        destruct Hkicks as (Hsame & _). subst np. lia.
  - intros Hcontent. specialize (Hseq Hcontent). rewrite Hpr, Hsr.
    apply advances_requests_upto.
    destruct Hleft as [Hnone|Hfull].
    + right. rewrite <- Hpq.
      destruct (Hidle Hnone) as [Hempty|(_ & n & Hn)];
        [exact Hempty | rewrite Hret in Hn; discriminate].
    + left. destruct (Z.le_gt_cases (pages_crawled st) (max_pages st)) as [Hin|Hout].
      * pose proof (SingleFacts.crawl_single_within_budget st Hin) as Hb.
        assert (Hmp : max_pages (engine p) = max_pages st).
        { assert (Hb' : pool_bounded (max_pages st) p)
            by (apply PoolFacts.pool_steps_invariant;
                [apply PoolFacts.pool_step_bounded
                | apply PoolFacts.pool_start_bounded; split; [exact Hin | left; exact Hq]]).
          apply Hb'. }
        subst np. lia.
      * assert (Hstay : crawl_single st = st).
        { rewrite SingleFacts.crawl_single_unfold.
          replace (single_guard st) with false; [reflexivity|].
          symmetry. apply SingleFacts.single_guard_false. right. lia. }
        rewrite Hstay in Hseq. lia.
Qed.

End WithWeb.
End Frontier.

(** ** Instances on the stub webs *)


Lemma pool_in_flight_witness :
  0 < 1 /\
  (List.length
     (ThreadedCrawler.futures
        (@ThreadedCrawler.steps web_twice twice_tape_tc
           (ThreadedCrawler.start 1 (ThreadedCrawler.__init__ None [] "http://a" 10))))
   <= kickoff_rounds 1 (ThreadedCrawler.__init__ None [] "http://a" 10))%nat.
Proof.
  assert (Hw : 0 < 1) by lia. split; [exact Hw|].
  exact (proj1 (@PoolRuns.pool_keeps_at_most_kickoff_many_in_flight web_twice 1
                  (ThreadedCrawler.__init__ None [] "http://a" 10) twice_tape_tc Hw)).
Defined.

Lemma pool_kickoff_witness :
  ThreadedCrawler.max_pages (ThreadedCrawler.__init__ None [] "http://a" 0)
  <= ThreadedCrawler.pages_crawled (ThreadedCrawler.__init__ None [] "http://a" 0) /\
  exists st',
    @ThreadedCrawler.crawl_threaded web_twice 1
      (ThreadedCrawler.__init__ None [] "http://a" 0, spent_tape_tc)
    = Return (tt, (st', [])) /\
    ThreadedCrawler.pages_crawled st' = 0 /\
    (exists new, ThreadedCrawler.requests st' = [] ++ new /\
                 new ≡ₚ take 1 ["http://a"%string]).
Proof.
  assert (Hfull : ThreadedCrawler.max_pages (ThreadedCrawler.__init__ None [] "http://a" 0)
                  <= ThreadedCrawler.pages_crawled
                       (ThreadedCrawler.__init__ None [] "http://a" 0))
    by (simpl; lia).
  split; [exact Hfull|].
  eexists. split; [vm_compute; reflexivity|].
  assert (Hrun : @ThreadedCrawler.crawl_threaded web_twice 1
                   (ThreadedCrawler.__init__ None [] "http://a" 0, spent_tape_tc)
                 = Return (tt, (_, []))) by (vm_compute; reflexivity).
  destruct (@PoolEdges.pool_kickoff_ignores_the_budget web_twice 1 _ _ _ _ Hfull Hrun)
    as (Hp & Hnew & _).
  split; [exact Hp | exact Hnew].
Defined.

Lemma time_fn_sum_witness :
  0 <= 2 /\ 0 <= 3 /\
  time_fn (@single_thread web_wiki) (2 + 3)
    (ThreadedCrawler.__init__ None [] seed max_pages, [])
  = match time_fn (@single_thread web_wiki) 2
            (ThreadedCrawler.__init__ None [] seed max_pages, []) with
    | Return (first, s1) =>
        match time_fn (@single_thread web_wiki) 3 s1 with
        | Return (second, s2) => Return (first ++ second, s2)
        | Raise e => Raise e
        | Unfinished => Unfinished
        end
    | Raise e => Raise e
    | Unfinished => Unfinished
    end.
Proof.
  assert (Ha : 0 <= 2) by lia. assert (Hb : 0 <= 3) by lia.
  split; [exact Ha|]. split; [exact Hb|].
  exact (time_fn_of_a_sum_is_two_measurements (@single_thread web_wiki) 2 3 _ Ha Hb).
Defined.

Lemma semaphore_witness :
  0 <= 2 /\
  AsyncCrawler.waiters
    (@AsyncCrawler.steps web_fan fan_tape_ac
       (AsyncCrawler.start 2 (AsyncCrawler.__init__ "http://a" 10))) = [].
Proof.
  assert (Hc : 0 <= 2) by lia. split; [exact Hc|].
  exact (proj1 (@LoopRuns.semaphore_never_holds_a_worker_up web_fan 2
                  (AsyncCrawler.__init__ "http://a" 10) fan_tape_ac Hc)).
Defined.

Lemma pool_thread_witness :
  ThreadedCrawler.jobs
    (ThreadedCrawler.main_step
       (ThreadedCrawler.start 1 (ThreadedCrawler.__init__ None [] "http://a" 10)))
    !! 0%nat
  = Some (ThreadedCrawler.ToFetch "http://a") /\
  exists n,
    ThreadedCrawler.engine
      (@ThreadedCrawler.steps web_twice (replicate n (ThreadedCrawler.Worker 0))
         (ThreadedCrawler.main_step
            (ThreadedCrawler.start 1
               (ThreadedCrawler.__init__ None [] "http://a" 10))))
    = @ThreadedCrawler.fetch_and_parse web_twice
        (ThreadedCrawler.engine
           (ThreadedCrawler.main_step
              (ThreadedCrawler.start 1
                 (ThreadedCrawler.__init__ None [] "http://a" 10))))
        "http://a".
Proof.
  assert (Hjob : ThreadedCrawler.jobs
            (ThreadedCrawler.main_step
               (ThreadedCrawler.start 1
                  (ThreadedCrawler.__init__ None [] "http://a" 10))) !! 0%nat
          = Some (ThreadedCrawler.ToFetch "http://a")) by reflexivity.
  split; [exact Hjob|].
  destruct (@PoolThreads.pool_thread_runs_fetch_and_parse web_twice 0 "http://a" _ Hjob)
    as (n & _ & He & _).
  exists n. exact He.
Defined.

Lemma asyncio_in_flight_witness :
  async_settled (AsyncCrawler.__init__ "http://a" 10) /\
  (fetching
     (@AsyncCrawler.steps web_fan fan_tape_ac
        (AsyncCrawler.start 2 (AsyncCrawler.__init__ "http://a" 10))) <= 1)%nat.
Proof.
  assert (Hst : async_settled (AsyncCrawler.__init__ "http://a" 10))
    by (split; [simpl; lia | left; simpl; lia]).
  split; [exact Hst|].
  exact (@LoopRuns.asyncio_has_one_get_in_flight_at_most web_fan 2 _ fan_tape_ac Hst).
Defined.

Lemma asyncio_schedule_witness :
  async_settled (AsyncCrawler.__init__ "http://a" 10) /\ 0 < 2 /\ 0 < 1 /\
  exists st1 st2,
    @AsyncCrawler.crawl web_fan 2 (AsyncCrawler.__init__ "http://a" 10, fan_tape_ac)
    = Return (tt, (st1, [])) /\
    @AsyncCrawler.crawl web_fan 1 (AsyncCrawler.__init__ "http://a" 10, lone_tape_ac)
    = Return (tt, (st2, [])) /\
    st1 = st2.
Proof.
  assert (Hst : async_settled (AsyncCrawler.__init__ "http://a" 10))
    by (split; [simpl; lia | left; simpl; lia]).
  assert (H2 : 0 < 2) by lia. assert (H1 : 0 < 1) by lia.
  split; [exact Hst|]. split; [exact H2|]. split; [exact H1|].
  eexists. eexists. split; [vm_compute; reflexivity|].
  split; [vm_compute; reflexivity|].
  eapply (@LoopOrder.asyncio_result_does_not_depend_on_the_schedule web_fan
            _ 2 1 fan_tape_ac lone_tape_ac _ _ [] [] Hst H2 H1);
    vm_compute; reflexivity.
Defined.

Lemma pool_schedule_witness :
  (List.length (ThreadedCrawler.queue (ThreadedCrawler.__init__ None [] "http://a" 10))
   <= 1)%nat /\
  exists st1 st2,
    @ThreadedCrawler.crawl_threaded web_twice 1
      (ThreadedCrawler.__init__ None [] "http://a" 10, twice_tape_tc)
    = Return (tt, (st1, [])) /\
    @ThreadedCrawler.crawl_threaded web_twice 2
      (ThreadedCrawler.__init__ None [] "http://a" 10, polling_tape_tc)
    = Return (tt, (st2, [])) /\
    st1 = st2.
Proof.
  assert (Hq : (List.length (ThreadedCrawler.queue
                  (ThreadedCrawler.__init__ None [] "http://a" 10)) <= 1)%nat)
    by (simpl; lia).
  split; [exact Hq|].
  eexists. eexists. split; [vm_compute; reflexivity|].
  split; [vm_compute; reflexivity|].
  eapply (@PoolOrder.pool_result_does_not_depend_on_the_schedule web_twice
            _ 1 2 twice_tape_tc polling_tape_tc _ _ [] [] Hq);
    vm_compute; reflexivity.
Defined.

Lemma asyncio_second_run_witness :
  async_settled (AsyncCrawler.__init__ "http://a" 10) /\ 0 < 2 /\
  exists st',
    @AsyncCrawler.crawl web_fan 2 (AsyncCrawler.__init__ "http://a" 10, fan_tape_ac)
    = Return (tt, (st', [])) /\
    AsyncCrawler.crawler
      (@AsyncCrawler.steps web_fan fan_tape_ac (AsyncCrawler.start 2 st')) = st'.
Proof.
  assert (Hst : async_settled (AsyncCrawler.__init__ "http://a" 10))
    by (split; [simpl; lia | left; simpl; lia]).
  assert (H2 : 0 < 2) by lia.
  split; [exact Hst|]. split; [exact H2|].
  eexists. split; [vm_compute; reflexivity|].
  eapply (@asyncio_run_after_a_run_changes_nothing web_fan _ 2 fan_tape_ac _ []
            Hst H2).
  vm_compute. reflexivity.
Defined.


Lemma visited_witness :
  exists st',
    @ThreadedCrawler.crawl_threaded web_twice 1
      (ThreadedCrawler.__init__ None [] "http://a" 10, twice_tape_tc)
    = Return (tt, (st', [])) /\
    exists new,
      ThreadedCrawler.requests st' = [] ++ new /\
      ThreadedCrawler.visited st' = ∅ ∪ list_to_set new.
Proof.
  eexists. split; [vm_compute; reflexivity|].
  apply (proj1 (proj2 (@visited_is_what_was_fetched web_twice))
           1 (ThreadedCrawler.__init__ None [] "http://a" 10) twice_tape_tc _ []).
  vm_compute. reflexivity.
Defined.

Lemma nothing_to_do_witness :
  ThreadedCrawler.queue
    (ThreadedCrawler.set_queue [] (ThreadedCrawler.__init__ None [] "http://a" 10))
  = [] /\
  ThreadedCrawler.engine
    (@ThreadedCrawler.steps web_twice twice_tape_tc
       (ThreadedCrawler.start 2
          (ThreadedCrawler.set_queue []
             (ThreadedCrawler.__init__ None [] "http://a" 10))))
  = ThreadedCrawler.set_queue [] (ThreadedCrawler.__init__ None [] "http://a" 10).
Proof.
  assert (Hq : ThreadedCrawler.queue
                 (ThreadedCrawler.set_queue []
                    (ThreadedCrawler.__init__ None [] "http://a" 10)) = [])
    by reflexivity.
  split; [exact Hq|].
  exact (proj1 (@runs_with_nothing_to_do_change_nothing web_twice) 2 _ twice_tape_tc Hq).
Defined.


Lemma time_fn_witness :
  -1 <= 0 /\
  time_fn (@single_thread web_wiki) (-1)
    (ThreadedCrawler.__init__ None [] seed max_pages, [])
  = Return ([], (ThreadedCrawler.__init__ None [] seed max_pages, [])).
Proof.
  assert (Hr : -1 <= 0) by lia. split; [exact Hr|].
  exact (proj2 (proj2 (time_fn_takes_one_sample_per_call
                         (@single_thread web_wiki) (-1) _)) Hr).
Defined.

Lemma asyncio_loop_witness :
  async_settled (AsyncCrawler.__init__ "http://a" 10) /\ 0 < 2 /\
  exists st',
    @AsyncCrawler.crawl web_fan 2 (AsyncCrawler.__init__ "http://a" 10, fan_tape_ac)
    = Return (tt, (st', [])) /\
    exists n,
      st' = Nat.iter n (@worker_turn web_fan) (AsyncCrawler.__init__ "http://a" 10).
Proof.
  assert (Hst : async_settled (AsyncCrawler.__init__ "http://a" 10))
    by (split; [simpl; lia | left; simpl; lia]).
  assert (H2 : 0 < 2) by lia.
  split; [exact Hst|]. split; [exact H2|].
  eexists. split; [vm_compute; reflexivity|].
  refine (proj1 (@LoopOrder.asyncio_runs_the_loop_of_one_worker web_fan _ 2
                   fan_tape_ac _ [] Hst H2 _)).
  vm_compute. reflexivity.
Defined.




Lemma pool_and_single_witness :
  (List.length (ThreadedCrawler.queue (ThreadedCrawler.__init__ None [] "http://a" 1))
   <= 1)%nat /\
  exists st' rest,
    @ThreadedCrawler.crawl_threaded web_twice 1
      (ThreadedCrawler.__init__ None [] "http://a" 1, twice_tape_tc)
    = Return (tt, (st', rest)) /\
    exists more,
      ThreadedCrawler.requests
        (@ThreadedCrawler.crawl_single web_twice
           (ThreadedCrawler.__init__ None [] "http://a" 1))
      ++ take 1 (ThreadedCrawler.queue
                   (@ThreadedCrawler.crawl_single web_twice
                      (ThreadedCrawler.__init__ None [] "http://a" 1)))
      = ThreadedCrawler.requests st' ++ more.
Proof.
  assert (Hq : (List.length (ThreadedCrawler.queue
                  (ThreadedCrawler.__init__ None [] "http://a" 1)) <= 1)%nat)
    by (simpl; lia).
  split; [exact Hq|].
  eexists. eexists. split; [vm_compute; reflexivity|].
  refine (proj1 (@Frontier.pool_fetches_what_the_sequential_loop_fetches web_twice 1
                   _ twice_tape_tc _ _ Hq _)).
  vm_compute. reflexivity.
Defined.
